(** * The pNode directory table and the node map: query pipeline and placement

    A shallow embedding of the in-memory pipeline of the node directory
    table (filter, sort, de-duplicate, paginate), of the health-score cell
    it renders, of the marker "recent" flag and of the popup placement of
    the map view; then of the controls of the table (sort and filter
    handlers, rank, pagination strip), of the rest of the map (marker
    icons, popup text, filters, filter panel, marker layers) and of
    the figures of the overview page, the metric card and the tier chart.

    Conventions.
    - A JavaScript [number] is an exact rational extended with [NaN] and the
      two infinities; rounding of IEEE doubles, overflow to an infinity and
      the sign of zero are not represented, and no statement below rests on
      a quotient or a product being finite or exact.  Numbers that arrive in
      a record are finite.
    - Built-ins whose behaviour depends on the locale or on the host
      (collation, case mapping, trimming, date parsing) are the fields of an
      [Engine].  [Array.prototype.sort] is represented by a stable insertion
      sort, which returns what the language prescribes when the comparator
      is consistent on the elements; the sort of V8 on short arrays stands
      beside it for the comparators that are not.
    - Arrays live in a [heap] and are handled through references, so that
      the in-place [sort] is an update of the store.
    - A string is the sequence of its code units.  A map layer is an object
      known by its identity; the map holds a set of layers. *)

From Stdlib Require Import ZArith QArith Qround Qabs Lia Lqa.
From Stdlib Require Import String Ascii List Permutation.
From stdpp Require Import gmap strings list sorting pretty.

Close Scope Q_scope.
Local Open Scope Z_scope.

(** ** Numbers *)

Inductive number : Type :=
| Fin (q : Q)
| PInf
| NInf
| NaN.

Definition isFinite (v : number) : bool :=
  match v with Fin _ => true | _ => false end.

Definition Qis0 (q : Q) : bool := Qeq_bool q 0.
Definition Qpos (q : Q) : bool := negb (Qle_bool q 0).
Definition Qneg (q : Q) : bool := negb (Qle_bool 0 q).

(** Unary minus. *)
Definition jsneg (v : number) : number :=
  match v with
  | Fin q => Fin (- q)%Q
  | PInf => NInf
  | NInf => PInf
  | NaN => NaN
  end.

(** [a - b]. *)
Definition jssub (a b : number) : number :=
  match a, b with
  | NaN, _ | _, NaN => NaN
  | Fin x, Fin y => Fin (x - y)%Q
  | PInf, PInf | NInf, NInf => NaN
  | PInf, _ => PInf
  | NInf, _ => NInf
  | Fin _, PInf => NInf
  | Fin _, NInf => PInf
  end.

(** [a + b]. *)
Definition jsadd (a b : number) : number := jssub a (jsneg b).

Definition signedInf (positive : bool) : number :=
  if positive then PInf else NInf.

(** [a * b]. *)
Definition jsmul (a b : number) : number :=
  match a, b with
  | NaN, _ | _, NaN => NaN
  | Fin x, Fin y => Fin (x * y)%Q
  | Fin x, PInf | PInf, Fin x =>
      if Qis0 x then NaN else signedInf (Qpos x)
  | Fin x, NInf | NInf, Fin x =>
      if Qis0 x then NaN else signedInf (Qneg x)
  | PInf, PInf | NInf, NInf => PInf
  | PInf, NInf | NInf, PInf => NInf
  end.

(** [a / b]: a zero divisor gives [NaN] for [0 / 0] and an infinity
    otherwise. *)
Definition jsdiv (a b : number) : number :=
  match a, b with
  | NaN, _ | _, NaN => NaN
  | Fin x, Fin y =>
      if Qis0 y then (if Qis0 x then NaN else signedInf (Qpos x))
      else Fin (x / y)%Q
  | Fin _, _ => Fin 0
  | PInf, Fin y => signedInf (negb (Qneg y))
  | NInf, Fin y => signedInf (Qneg y)
  | _, _ => NaN
  end.

(** [a > b]; any comparison with [NaN] is false. *)
Definition jsgt (a b : number) : bool :=
  match a, b with
  | NaN, _ | _, NaN => false
  | Fin x, Fin y => negb (Qle_bool x y)
  | PInf, PInf => false
  | PInf, _ => true
  | _, NInf => match a with NInf => false | _ => true end
  | _, _ => false
  end.

(** [a >= b] *)
Definition jsge (a b : number) : bool :=
  match a, b with
  | NaN, _ | _, NaN => false
  | _, _ => negb (jsgt b a)
  end.

Definition ofZ (z : Z) : number := Fin (inject_Z z).

(** The sign the sort reads off the value returned by a comparator: [NaN]
    counts as [+0]. *)
Definition sortSign (v : number) : Datatypes.comparison :=
  match v with
  | Fin q => (q ?= 0)%Q
  | PInf => Gt
  | NInf => Lt
  | NaN => Eq
  end.

(** How a block of statements ends: with a value, or by throwing. *)
Inductive completion (A : Type) : Type :=
| Normal (a : A)
| Throw.

Arguments Normal {A} a.
Arguments Throw {A}.

(** [try { body } catch { handler }] *)
Definition tryCatch {A : Type} (body : completion A) (handler : A) : A :=
  match body with
  | Normal a => a
  | Throw => handler
  end.

(** ** Host built-ins *)

Record Engine : Type := {
  localeCompare : string -> string -> Z;
  toLowerCase : string -> string;
  trim : string -> string;
  DateParse : string -> option Z;
  NumberToString : Q -> string
}.

(** A [Date] object holds a time value in milliseconds, or none when the
    date is invalid. *)
Inductive Date : Type := MkDate (tv : option Z).

(** [new Date(s)] on a string: never throws, an unparsable string gives an
    invalid date. *)
Definition newDate (E : Engine) (s : string) : Date := MkDate (DateParse E s).

(** [d.getTime()]: [NaN] for an invalid date. *)
Definition getTime (d : Date) : number :=
  match d with
  | MkDate (Some t) => ofZ t
  | MkDate None => NaN
  end.

(** [s.includes(sub)] *)
Fixpoint includes (s sub : string) : bool :=
  if String.prefix sub s then true
  else match s with
       | EmptyString => false
       | String _ s' => includes s' sub
       end.

(** [s || d] on strings: the empty string is falsy. *)
Definition strOr (s d : string) : string :=
  match s with EmptyString => d | _ => s end.

Definition optStrOr (o : option string) (d : string) : string :=
  match o with Some s => strOr s d | None => d end.

(** [x || 0] on an optional number. *)
Definition numOr0 (o : option Q) : number :=
  match o with
  | Some q => if Qis0 q then Fin 0 else Fin q
  | None => Fin 0
  end.

(** [o ?? d] *)
Definition nullish (o : option Q) (d : number) : number :=
  match o with Some q => Fin q | None => d end.

(** ** Records *)

Inductive LastSeen : Type :=
| LsDate (d : Date)
| LsString (s : string).

Module PNode.
(** Modelled from the spec: the record type [PNode] of the directory table,
    whose declaration (hooks/usePNodes) is not part of the sources; the
    fields are the ones the table reads. *)
Record t : Type := mk {
  pubkey : string;
  status : string;
  healthScore : option Q;
  tier : option string;
  storageUsed : Q;
  storageTotal : Q;
  storageUtilization : option Q;
  ramUsed : option Q;
  ramTotal : option Q;
  version : option string;
  region : option string;
  ip : option string;
  lastSeen : LastSeen
}.
End PNode.

Module MapNode.
Record t : Type := mk {
  pubkey : string;
  lat : Q;
  lng : Q;
  country : string;
  region : string;
  status : string;
  healthScore : Q;
  uptime24h : Q;
  storageUtilization : Q;
  version : string;
  lastSeen : string
}.
End MapNode.

Record RamData : Type := { used : Q; total : Q }.

Module SortField.
Inductive t : Type :=
| pubkey | storageUsed | lastSeen | status | healthScore
| storageUtilization | tier | version | region | ramUsed | ramUtilization.
End SortField.

Inductive SortDirection : Type := asc | desc.

(** ** The table: derived data *)

(** [nodeRamData]: the map from pubkey to RAM figures, filled in input
    order, a later record replacing an earlier one with the same key. *)
Definition nodeRamData (pnodes : list PNode.t) : gmap string RamData :=
  foldl (fun ramMap node =>
           match PNode.ramUsed node, PNode.ramTotal node with
           | Some u, Some t => <[PNode.pubkey node := {| used := u; total := t |}]> ramMap
           | _, _ => ramMap
           end) ∅ pnodes.

(** The names of the members that every object literal inherits from
    [Object.prototype]. *)
Definition ObjectPrototype_names : list string :=
  [ "constructor"; "hasOwnProperty"; "isPrototypeOf"; "propertyIsEnumerable";
    "toLocaleString"; "toString"; "valueOf"; "__proto__"; "__defineGetter__";
    "__defineSetter__"; "__lookupGetter__"; "__lookupSetter__" ]%string.

Definition inheritedName (s : string) : bool :=
  existsb (String.eqb s) ObjectPrototype_names.

(** What [o[k]] gives on an object literal whose own properties are
    numbers: the own number, a member inherited from [Object.prototype] (a
    function, or the prototype itself for [__proto__]), or [undefined]. *)
Inductive Member : Type :=
| Own (q : Q)
| Inherited
| Undefined.

(** [(o[k] ?? d)] as a subtraction reads it: [??] replaces [undefined]
    only, and an inherited member converts to [NaN]. *)
Definition memberOr (m : Member) (d : Q) : number :=
  match m with
  | Own q => Fin q
  | Inherited => NaN
  | Undefined => Fin d
  end.

(** [statusOrder[s]] for [{ online: 0, offline: 1 }] *)
Definition statusOrder (s : string) : Member :=
  if String.eqb s "online" then Own 0%Q
  else if String.eqb s "offline" then Own 1%Q
  else if inheritedName s then Inherited
  else Undefined.

(** [tierOrder[s]] for [{ 'Excellent': 0, 'Good': 1, 'Poor': 2 }] *)
Definition tierOrder (s : string) : Member :=
  if String.eqb s "Excellent" then Own 0%Q
  else if String.eqb s "Good" then Own 1%Q
  else if String.eqb s "Poor" then Own 2%Q
  else if inheritedName s then Inherited
  else Undefined.

(** [x instanceof Date ? x.getTime() : new Date(x).getTime()] *)
Definition lastSeenTime (E : Engine) (l : LastSeen) : number :=
  match l with
  | LsDate d => getTime d
  | LsString s => getTime (newDate E s)
  end.

(** The body of the [try] block of the [lastSeen] case. *)
Definition lastSeenTry (E : Engine) (a b : PNode.t) : completion number :=
  let aTime := lastSeenTime E (PNode.lastSeen a) in
  let bTime := lastSeenTime E (PNode.lastSeen b) in
  Normal (jssub aTime bTime).

(** The key of the [storageUsed] column: the utilisation ratio. *)
Definition storageUsedUtil (a : PNode.t) : number :=
  if jsgt (Fin (PNode.storageTotal a)) (Fin 0)
  then jsdiv (Fin (PNode.storageUsed a)) (Fin (PNode.storageTotal a))
  else Fin 0.

(** The key of the [storageUtilization] column. *)
Definition storageUtilizationUtil (a : PNode.t) : number :=
  nullish (PNode.storageUtilization a)
    (if jsgt (Fin (PNode.storageTotal a)) (Fin 0)
     then jsmul (jsdiv (Fin (PNode.storageUsed a)) (Fin (PNode.storageTotal a)))
                (Fin 100)
     else Fin 0).

(** [nodeRamData.get(a.pubkey)?.used ?? 0] *)
Definition ramUsedOf (ramMap : gmap string RamData) (a : PNode.t) : number :=
  match ramMap !! PNode.pubkey a with
  | Some r => Fin (used r)
  | None => Fin 0
  end.

Definition ramUtilOf (ramMap : gmap string RamData) (a : PNode.t) : number :=
  match ramMap !! PNode.pubkey a with
  | Some r =>
      if jsgt (Fin (total r)) (Fin 0)
      then jsmul (jsdiv (Fin (used r)) (Fin (total r))) (Fin 100)
      else Fin 0
  | None => Fin 0
  end.

(** The value of [comparison] at the end of the [switch]. *)
Definition comparison (E : Engine) (ramMap : gmap string RamData)
    (sortField : SortField.t) (a b : PNode.t) : number :=
  match sortField with
  | SortField.storageUsed =>
      jssub (storageUsedUtil a) (storageUsedUtil b)
  | SortField.lastSeen =>
      tryCatch (lastSeenTry E a b) (Fin 0)
  | SortField.status =>
      jssub (memberOr (statusOrder (PNode.status a)) 2)
            (memberOr (statusOrder (PNode.status b)) 2)
  | SortField.healthScore =>
      jssub (numOr0 (PNode.healthScore a)) (numOr0 (PNode.healthScore b))
  | SortField.storageUtilization =>
      jssub (storageUtilizationUtil a) (storageUtilizationUtil b)
  | SortField.pubkey =>
      ofZ (localeCompare E (strOr (PNode.pubkey a) "") (strOr (PNode.pubkey b) ""))
  | SortField.tier =>
      jssub (memberOr (tierOrder (optStrOr (PNode.tier a) "")) 3)
            (memberOr (tierOrder (optStrOr (PNode.tier b) "")) 3)
  | SortField.version =>
      ofZ (localeCompare E (optStrOr (PNode.version a) "") (optStrOr (PNode.version b) ""))
  | SortField.region =>
      ofZ (localeCompare E (optStrOr (PNode.region a) "") (optStrOr (PNode.region b) ""))
  | SortField.ramUsed =>
      jssub (ramUsedOf ramMap a) (ramUsedOf ramMap b)
  | SortField.ramUtilization =>
      jssub (ramUtilOf ramMap a) (ramUtilOf ramMap b)
  end.

(** The comparator handed to [sort]:
    [sortDirection === 'asc' ? comparison : -comparison]. *)
Definition compareNodes (E : Engine) (ramMap : gmap string RamData)
    (sortField : SortField.t) (sortDirection : SortDirection)
    (a b : PNode.t) : number :=
  match sortDirection with
  | asc => comparison E ramMap sortField a b
  | desc => jsneg (comparison E ramMap sortField a b)
  end.

(** ** The built-in sort

    [Array.prototype.sort] is a stable comparison sort; it is represented by
    the insertion sort that places every element before the first element
    of the already sorted rest that it is not greater than.  The language
    fixes the result of the built-in when the comparator is consistent on
    the elements: the sorted arrangement in which tied elements keep their
    input order, which is what [array_sort] returns.  For any other
    comparator the result is some arrangement of the elements, chosen by the
    engine; what V8 does then is [v8_sort] below. *)

Definition sortGt {A : Type} (comparefn : A -> A -> number) (x y : A) : bool :=
  match sortSign (comparefn x y) with Gt => true | _ => false end.

Fixpoint sort_insert {A : Type} (comparefn : A -> A -> number) (x : A) (l : list A) : list A :=
  match l with
  | [] => [x]
  | y :: l' =>
      if sortGt comparefn x y then y :: sort_insert comparefn x l' else x :: y :: l'
  end.

Definition array_sort {A : Type} (comparefn : A -> A -> number) (l : list A) : list A :=
  foldr (sort_insert comparefn) [] l.

(** *** The sort of V8 on short arrays

    V8 sorts an array of fewer than 64 elements as one run
    ([ArrayTimSortImpl] of [third_party/v8/builtins/array-sort.tq], where
    [ComputeMinRunLength] is then the length): [CountAndMakeRun] finds the
    longest ascending, or strictly descending, run at the start and
    reverses it when it descends; [BinaryInsertionSort] inserts every
    later element into the sorted part before it, at the place found by
    bisection. *)

(** [order < 0], for the order read off the comparator ([NaN] reads as 0). *)
Definition orderLt {A : Type} (comparefn : A -> A -> number) (x y : A) : bool :=
  match sortSign (comparefn x y) with Lt => true | _ => false end.

(** The number of elements after the second one that continue the run. *)
Fixpoint runRest {A : Type} (comparefn : A -> A -> number) (isDescending : bool)
    (previousElement : A) (rest : list A) : nat :=
  match rest with
  | [] => 0
  | currentElement :: rest' =>
      if Bool.eqb (orderLt comparefn currentElement previousElement) isDescending
      then S (runRest comparefn isDescending currentElement rest')
      else 0
  end.

Definition CountAndMakeRun {A : Type} (comparefn : A -> A -> number)
    (workArray : list A) : nat * list A :=
  match workArray with
  | elementHigh :: elementLow :: rest =>
      let isDescending := orderLt comparefn elementLow elementHigh in
      let runLength := (2 + runRest comparefn isDescending elementLow rest)%nat in
      (runLength,
       if isDescending
       then reverse (take runLength workArray) ++ drop runLength workArray
       else workArray)
  | _ => (length workArray, workArray)
  end.

(** The loop that bisects [left, right) for the place of [pivot]. *)
Fixpoint insertionPoint {A : Type} (fuel : nat) (comparefn : A -> A -> number)
    (pivot : A) (workArray : list A) (left right : nat) : nat :=
  match fuel with
  | O => left
  | S fuel' =>
      if (left <? right)%nat then
        let mid := (left + (right - left) / 2)%nat in
        match workArray !! mid with
        | Some x =>
            if orderLt comparefn pivot x
            then insertionPoint fuel' comparefn pivot workArray left mid
            else insertionPoint fuel' comparefn pivot workArray (mid + 1) right
        | None => left
        end
      else left
  end.

(** One round of [BinaryInsertionSort]: the element at [start] moves to its
    place among the [start] elements before it. *)
Definition insertAt {A : Type} (comparefn : A -> A -> number) (workArray : list A)
    (start : nat) : list A :=
  match workArray !! start with
  | Some pivot =>
      let left := insertionPoint (S start) comparefn pivot workArray 0 start in
      take left workArray ++ pivot :: drop left (take start workArray)
        ++ drop (S start) workArray
  | None => workArray
  end.

Definition BinaryInsertionSort {A : Type} (comparefn : A -> A -> number)
    (workArray : list A) (start : nat) : list A :=
  foldl (insertAt comparefn) workArray (seq start (length workArray - start)).

Definition v8_sort {A : Type} (comparefn : A -> A -> number) (l : list A) : list A :=
  if (length l <? 2)%nat then l
  else
    let '(runLength, workArray) := CountAndMakeRun comparefn l in
    BinaryInsertionSort comparefn workArray runLength.

(** ** De-duplication *)

(** The [filter] callback with its [seen] set threaded through. *)
Fixpoint dedupe_from (seen : gset string) (l : list PNode.t) : list PNode.t :=
  match l with
  | [] => []
  | node :: l' =>
      if decide (PNode.pubkey node ∈ seen) then dedupe_from seen l'
      else node :: dedupe_from ({[PNode.pubkey node]} ∪ seen) l'
  end.

Definition dedupe (l : list PNode.t) : list PNode.t := dedupe_from ∅ l.

(** ** Arrays in the store *)

Abbreviation ref := nat (only parsing).
Abbreviation heap := (list (list PNode.t)) (only parsing).

(** Computations that read and update the store. *)
Definition M (A : Type) : Type := heap -> A * heap.

Definition ret {A : Type} (a : A) : M A := fun h => (a, h).

Definition bind {A B : Type} (m : M A) (k : A -> M B) : M B :=
  fun h => let '(a, h') := m h in k a h'.

Notation "'do' x <- m ; k" := (bind m (fun x => k))
  (at level 10, x name, m at level 100, k at level 200).

(** The contents of an array. *)
Definition deref (r : ref) : M (list PNode.t) :=
  fun h => (default [] (h !! r), h).

(** A fresh array. *)
Definition alloc (v : list PNode.t) : M ref :=
  fun h => (length h, h ++ [v]).

(** Overwrite the contents of an existing array. *)
Definition assign (r : ref) (v : list PNode.t) : M unit :=
  fun h => (tt, <[r := v]> h).

(** [[...r]] *)
Definition spread (r : ref) : M ref :=
  do v <- deref r; alloc v.

(** [r.filter(f)]: a new array. *)
Definition Array_filter (f : PNode.t -> bool) (r : ref) : M ref :=
  do v <- deref r; alloc (List.filter f v).

(** [r.sort(comparefn)]: sorts [r] in place and returns it. *)
Definition Array_sort (comparefn : PNode.t -> PNode.t -> number) (r : ref) : M ref :=
  do v <- deref r;
  do _ <- assign r (array_sort comparefn v);
  ret r.

(** ** The filtered, sorted and de-duplicated view *)

Record ViewState : Type := {
  search : string;
  statusFilter : string;
  tierFilter : string;
  sortField : SortField.t;
  sortDirection : SortDirection;
  currentPage : Z
}.

Definition isEmpty (s : string) : bool :=
  match s with EmptyString => true | _ => false end.

Definition matchesSearch (E : Engine) (searchLower : string) (node : PNode.t) : bool :=
  let pubkey := toLowerCase E (strOr (PNode.pubkey node) "") in
  let region := toLowerCase E (optStrOr (PNode.region node) "") in
  let version := toLowerCase E (optStrOr (PNode.version node) "") in
  let ip := toLowerCase E (optStrOr (PNode.ip node) "") in
  includes pubkey searchLower || includes region searchLower
  || includes version searchLower || includes ip searchLower.

Definition matchesStatus (statusFilter : string) (node : PNode.t) : bool :=
  String.eqb (PNode.status node) statusFilter.

Definition matchesTier (tierFilter : string) (node : PNode.t) : bool :=
  match PNode.tier node with
  | Some t => String.eqb t tierFilter
  | None => false
  end.

(** The body of the [filteredAndSorted] memo, run on the array [pnodes];
    [ramMap] is the value of the [nodeRamData] memo. *)
Definition filteredAndSorted (E : Engine) (pnodes : ref)
    (ramMap : gmap string RamData) (vs : ViewState) : M ref :=
  do result <- spread pnodes;
  do result <-
    (if isEmpty (trim E (search vs)) then ret result
     else Array_filter (matchesSearch E (trim E (toLowerCase E (search vs)))) result);
  do result <-
    (if String.eqb (statusFilter vs) "all" then ret result
     else Array_filter (matchesStatus (statusFilter vs)) result);
  do result <-
    (if String.eqb (tierFilter vs) "all" then ret result
     else Array_filter (matchesTier (tierFilter vs)) result);
  do _ <- Array_sort (compareNodes E ramMap (sortField vs) (sortDirection vs)) result;
  do v <- deref result;
  alloc (dedupe v).

(** ** Pagination *)

Definition itemsPerPage : Z := 20.

(** [Math.ceil(length / itemsPerPage)] *)
Definition totalPages {A : Type} (l : list A) : Z :=
  Qceiling (inject_Z (Z.of_nat (length l)) / inject_Z itemsPerPage)%Q.

(** [l.slice(start, end)], negative indices counting from the end. *)
Definition slice {A : Type} (l : list A) (start end_ : Z) : list A :=
  let len := Z.of_nat (length l) in
  let k := if start <? 0 then Z.max (len + start) 0 else Z.min start len in
  let final := if end_ <? 0 then Z.max (len + end_) 0 else Z.min end_ len in
  take (Z.to_nat (Z.max (final - k) 0)) (drop (Z.to_nat k) l).

Definition paginatedNodes {A : Type} (l : list A) (currentPage : Z) : list A :=
  let startIndex := (currentPage - 1) * itemsPerPage in
  let endIndex := startIndex + itemsPerPage in
  slice l startIndex endIndex.

(** ** The health-score cell *)

Fixpoint zeros (n : nat) : string :=
  match n with O => EmptyString | S n' => String "0" (zeros n') end.

(** [x.toFixed(f)]: the closest decimal with [f] fraction digits, the
    larger one of two equally close. *)
Definition toFixed (E : Engine) (x : Q) (f : nat) : string :=
  if Qle_bool (inject_Z (10 ^ 21)) (Qabs x) then NumberToString E x
  else
    let n := Qfloor (Qabs x * inject_Z (10 ^ Z.of_nat f) + (1 # 2))%Q in
    let whole := pretty (n / 10 ^ Z.of_nat f) in
    let frac := pretty (n mod 10 ^ Z.of_nat f) in
    let s := if Qneg x then "-"%string else ""%string in
    match f with
    | O => (s ++ whole)%string
    | _ => (s ++ whole ++ "." ++ zeros (f - String.length frac) ++ frac)%string
    end.

(** The text of the health-score cell:
    [node.healthScore ? node.healthScore.toFixed(1) : 'N/A']. *)
Definition healthScoreCell (E : Engine) (node : PNode.t) : string :=
  match PNode.healthScore node with
  | Some q => if Qis0 q then "N/A" else toFixed E q 1
  | None => "N/A"
  end.

(** The first alternative of the storage-utilisation cell, taken when
    [node.storageUtilization !== undefined]. *)
Definition storageUtilizationCell (E : Engine) (node : PNode.t) : option string :=
  match PNode.storageUtilization node with
  | Some q => Some (toFixed E q 1 ++ "%")%string
  | None => None
  end.

(** ** Map markers *)

Record DivIcon : Type := {
  color : string;
  markerSize : number;
  pulseClass : string
}.

Definition isRecent (E : Engine) (now : Z) (node : MapNode.t) : bool :=
  let lastSeenDate := newDate E (MapNode.lastSeen node) in
  let fiveMinutesAgo := jssub (ofZ now) (jsmul (jsmul (Fin 5) (Fin 60)) (Fin 1000)) in
  String.eqb (MapNode.status node) "online" && jsgt (getTime lastSeenDate) fiveMinutesAgo.

(** [createMarkerIcon], evaluated when [Date.now()] is [now]. *)
Definition createMarkerIcon (E : Engine) (now : Z) (node : MapNode.t) : DivIcon :=
  let color :=
    if String.eqb (MapNode.status node) "offline" then "hsl(0,0%,50%)"
    else if jsge (Fin (MapNode.healthScore node)) (Fin 85) then "hsl(142,71%,45%)"
    else if jsge (Fin (MapNode.healthScore node)) (Fin 60) then "hsl(38,92%,50%)"
    else "hsl(0,84%,60%)" in
  let baseSize := Fin 20 in
  let sizeVariation := jsmul (jsdiv (Fin (MapNode.storageUtilization node)) (Fin 100)) (Fin 20) in
  {| color := color;
     markerSize := jsadd baseSize sizeVariation;
     pulseClass := if isRecent E now node then "animate-pulse" else "" |}.

(** ** Popup placement *)

Record Point : Type := L_point { px : Z; py : Z }.

Record Area : Type := { ax : Z; ay : Z; width : Z; height : Z }.

Definition filterArea (mapSize : Point) : Area :=
  {| ax := px mapSize - 280; ay := 0; width := 280; height := 350 |}.

Definition legendArea (mapSize : Point) : Area :=
  {| ax := 0; ay := py mapSize - 250; width := 280; height := 250 |}.

Definition isNearFilters (mapSize markerPoint : Point) : bool :=
  (ax (filterArea mapSize) <? px markerPoint) && (py markerPoint <? height (filterArea mapSize)).

Definition isNearLegend (mapSize markerPoint : Point) : bool :=
  (px markerPoint <? width (legendArea mapSize)) && (ay (legendArea mapSize) <? py markerPoint).

(** [popup.options.maxWidth || 300] *)
Definition popupWidthOf (maxWidth : option Z) : Z :=
  match maxWidth with
  | Some w => if w =? 0 then 300 else w
  | None => 300
  end.

(** The offset [adjustPopupPosition] gives the popup of a marker at
    [markerPoint] on a map of size [mapSize]. *)
Definition adjustPopupPosition (mapSize markerPoint : Point) (maxWidth : option Z) : Point :=
  if isNearFilters mapSize markerPoint then
    let popupWidth := popupWidthOf maxWidth in
    L_point (- popupWidth - 30) (-10)
  else if isNearLegend mapSize markerPoint then
    L_point 30 (-10)
  else
    L_point 0 (-10).

(** * Vocabulary of the properties *)

(** ** The view as a function of the list of records *)

Definition applyFilters (E : Engine) (vs : ViewState) (l : list PNode.t) : list PNode.t :=
  let l1 := if isEmpty (trim E (search vs)) then l
            else List.filter (matchesSearch E (trim E (toLowerCase E (search vs)))) l in
  let l2 := if String.eqb (statusFilter vs) "all" then l1
            else List.filter (matchesStatus (statusFilter vs)) l1 in
  if String.eqb (tierFilter vs) "all" then l2
  else List.filter (matchesTier (tierFilter vs)) l2.

Definition view (E : Engine) (ramMap : gmap string RamData) (vs : ViewState)
    (l : list PNode.t) : list PNode.t :=
  dedupe (array_sort (compareNodes E ramMap (sortField vs) (sortDirection vs))
            (applyFilters E vs l)).

(** The first record of [l] whose key is [k]. *)
Definition firstWithKey (k : string) (l : list PNode.t) : option PNode.t :=
  snd <$> list_find (λ n, PNode.pubkey n = k) l.

(** ** Positions and order of the sorted elements *)

(** Every element paired with its position in the array, counted from [k]. *)
Definition indexed_from {A : Type} (k : nat) (l : list A) : list (A * nat) :=
  zip l (seq k (length l)).

Definition indexed {A : Type} (l : list A) : list (A * nat) := indexed_from 0 l.

(** A comparator on elements, read on pairs of an element and a position. *)
Definition onFst {A : Type} (comparefn : A -> A -> number) (u v : A * nat) : number :=
  comparefn u.1 v.1.

(** [u] may stand before [v] in the sorted array: it came first in the
    input, or [v] was strictly greater. *)
Definition mayPrecede {A : Type} (comparefn : A -> A -> number) (u v : A * nat) : Prop :=
  (u.2 < v.2)%nat ∨ sortGt comparefn v.1 u.1 = true.

Definition signOf {A : Type} (comparefn : A -> A -> number) (x y : A) : Datatypes.comparison :=
  sortSign (comparefn x y).

Definition notGreater {A : Type} (comparefn : A -> A -> number) (x y : A) : Prop :=
  signOf comparefn x y ≠ Gt.

(** The comparator does not order [x] and [y]: it returns zero, or [NaN]. *)
Definition tied {A : Type} (comparefn : A -> A -> number) (x y : A) : Prop :=
  signOf comparefn x y = Eq.

Definition tiedb {A : Type} (comparefn : A -> A -> number) (x y : A) : bool :=
  match signOf comparefn x y with Eq => true | _ => false end.

(** A comparator is consistent on the elements that satisfy [P] when the
    signs it returns there are antisymmetric and "not greater" is
    transitive. *)
Record consistentOn {A : Type} (comparefn : A -> A -> number) (P : A -> Prop) : Prop := {
  sign_antisym : ∀ x y, P x → P y →
    signOf comparefn y x = CompOpp (signOf comparefn x y);
  sign_trans : ∀ x y z, P x → P y → P z →
    notGreater comparefn x y → notGreater comparefn y z → notGreater comparefn x z
}.

Arguments sign_antisym {A comparefn P} _ x y _ _.
Arguments sign_trans {A comparefn P} _ x y z _ _ _ _ _.

(** The number of elements of a list that are tied with [x]. *)
Fixpoint countTied {A : Type} (comparefn : A -> A -> number) (x : A) (l : list A) : nat :=
  match l with
  | [] => 0
  | y :: l' => ((if tiedb comparefn x y then 1 else 0) + countTied comparefn x l')%nat
  end.

(** [u] stands before [v] in every stable sorted arrangement: it is
    strictly smaller, or tied and earlier in the input. *)
Definition lexBefore {A : Type} (comparefn : A -> A -> number) (u v : A * nat) : Prop :=
  signOf comparefn u.1 v.1 = Lt ∨ (tied comparefn u.1 v.1 ∧ (u.2 < v.2)%nat).

(** An arrangement of indexed elements is sorted, and stable: tied elements
    stand in the order of their input positions. *)
Definition stableSorted {A : Type} (comparefn : A -> A -> number)
    (out : list (A * nat)) : Prop :=
  StronglySorted (notGreater (onFst comparefn)) out
  ∧ ∀ p q u v, out !! p = Some u → out !! q = Some v → (p < q)%nat →
      tied comparefn u.1 v.1 → (u.2 < v.2)%nat.

(** No two positions of [l] hold tied elements. *)
Definition noTies {A : Type} (comparefn : A -> A -> number) (l : list A) : Prop :=
  ∀ i j a b, l !! i = Some a → l !! j = Some b → i ≠ j → ¬ tied comparefn a b.

(** What the language asks of [localeCompare]: a consistent collation. *)
Record collationConsistent (E : Engine) : Prop := {
  collation_antisym : ∀ s t,
    (localeCompare E t s ?= 0) = CompOpp (localeCompare E s t ?= 0);
  collation_trans : ∀ s t u,
    localeCompare E s t <= 0 → localeCompare E t u <= 0 → localeCompare E s u <= 0
}.

Arguments collation_antisym {E} _ s t.
Arguments collation_trans {E} _ s t u _ _.

(** ** Keys of the sort fields *)

Definition ratioOf (u t : Q) : Q :=
  if jsgt (Fin t) (Fin 0) then (u / t)%Q else 0%Q.

Definition percentOf (u t : Q) : Q :=
  if jsgt (Fin t) (Fin 0) then (u / t * 100)%Q else 0%Q.

(** The rational key of a record under a numeric sort field, when it has
    one. *)
Definition numericKey (E : Engine) (ramMap : gmap string RamData)
    (f : SortField.t) (a : PNode.t) : option Q :=
  match f with
  | SortField.storageUsed =>
      Some (ratioOf (PNode.storageUsed a) (PNode.storageTotal a))
  | SortField.lastSeen =>
      match lastSeenTime E (PNode.lastSeen a) with Fin q => Some q | _ => None end
  | SortField.status =>
      match memberOr (statusOrder (PNode.status a)) 2 with Fin q => Some q | _ => None end
  | SortField.healthScore =>
      match numOr0 (PNode.healthScore a) with Fin q => Some q | _ => None end
  | SortField.storageUtilization =>
      Some (default (percentOf (PNode.storageUsed a) (PNode.storageTotal a))
              (PNode.storageUtilization a))
  | SortField.tier =>
      match memberOr (tierOrder (optStrOr (PNode.tier a) "")) 3 with
      | Fin q => Some q
      | _ => None
      end
  | SortField.ramUsed =>
      Some (match ramMap !! PNode.pubkey a with Some r => used r | None => 0%Q end)
  | SortField.ramUtilization =>
      Some (match ramMap !! PNode.pubkey a with
            | Some r => percentOf (used r) (total r)
            | None => 0%Q
            end)
  | _ => None
  end.

(** The string key of a record under a sort field compared by collation. *)
Definition stringKey (f : SortField.t) (a : PNode.t) : option string :=
  match f with
  | SortField.pubkey => Some (strOr (PNode.pubkey a) "")
  | SortField.version => Some (optStrOr (PNode.version a) "")
  | SortField.region => Some (optStrOr (PNode.region a) "")
  | _ => None
  end.

(** The [lastSeen] value of the record does not denote a time. *)
Definition unparsable (E : Engine) (a : PNode.t) : Prop :=
  lastSeenTime E (PNode.lastSeen a) = NaN.

(** The record's key can be compared: its [lastSeen] denotes a time when
    that is the sort field, and its status, or its tier, is not the name of
    an inherited member when that is the sort field. *)
Definition keyComparable (E : Engine) (f : SortField.t) (a : PNode.t) : Prop :=
  (f = SortField.lastSeen → ¬ unparsable E a)
  ∧ (f = SortField.status → inheritedName (PNode.status a) = false)
  ∧ (f = SortField.tier → inheritedName (optStrOr (PNode.tier a) "") = false).

(** The array [r] of the store [h] holds [v], it was allocated after the
    arrays of [h0], and the arrays of [h0] are as they were. *)
Definition ownsFresh (h0 : heap) (rh : ref * heap) (v : list PNode.t) : Prop :=
  rh.2 !! rh.1 = Some v ∧ (length h0 ≤ rh.1)%nat ∧ take (length h0) rh.2 = h0.

(** ** Pages *)

(** The page numbers [1 .. totalPages]. *)
Definition pageNumbers {A : Type} (l : list A) : list Z :=
  Z.of_nat <$> seq 1 (Z.to_nat (totalPages l)).

(** ** Regions of the map *)

(** The top-right rectangle of the filter panel. *)
Definition inFilterRegion (mapSize p : Point) : Prop :=
  px mapSize - 280 < px p ∧ py p < 350.

(** The bottom-left rectangle of the legend. *)
Definition inLegendRegion (mapSize p : Point) : Prop :=
  px p < 280 ∧ py mapSize - 250 < py p.

Definition leftOffset (maxWidth : option Z) : Point :=
  L_point (- popupWidthOf maxWidth - 30) (-10).

Definition rightOffset : Point := L_point 30 (-10).

Definition aboveOffset : Point := L_point 0 (-10).

(** ** A sample host and sample records *)

Module Demo.

(** Collation by the code units of the strings. *)
Definition codeUnitCompare (s t : string) : Z :=
  match String.compare s t with Lt => -1 | Eq => 0 | Gt => 1 end.

Definition lowerAscii (c : ascii) : ascii :=
  let n := nat_of_ascii c in
  if ((65 <=? n) && (n <=? 90))%nat then ascii_of_nat (n + 32) else c.

Fixpoint asciiLowerCase (s : string) : string :=
  match s with
  | EmptyString => EmptyString
  | String c s' => String (lowerAscii c) (asciiLowerCase s')
  end.

Fixpoint trimStart (s : string) : string :=
  match s with
  | String c s' => if Ascii.eqb c " " then trimStart s' else s
  | EmptyString => EmptyString
  end.

Fixpoint trimEnd (s : string) : string :=
  match s with
  | EmptyString => EmptyString
  | String c s' =>
      let r := trimEnd s' in
      if Ascii.eqb c " " && isEmpty r then EmptyString else String c r
  end.

Definition trimSpaces (s : string) : string := trimEnd (trimStart s).

(** The evaluation time of the examples: 2024-01-01T00:00:00Z. *)
Definition now : Z := 1704067200000.

Definition knownDates : list (string * Z) :=
  [ ("2023-12-31T23:50:00Z"%string, now - 600000);
    ("2023-12-31T23:55:00Z"%string, now - 300000);
    ("2023-12-31T23:58:00Z"%string, now - 120000);
    ("2024-01-01T00:00:00Z"%string, now);
    ("2024-01-01T01:00:00Z"%string, now + 3600000) ].

Definition tableParse (s : string) : option Z :=
  snd <$> List.find (λ p, String.eqb (fst p) s) knownDates.

Definition engine : Engine :=
  {| localeCompare := codeUnitCompare;
     toLowerCase := asciiLowerCase;
     trim := trimSpaces;
     DateParse := tableParse;
     NumberToString := λ q, pretty (Qfloor q) |}.

(** An online record with the given key, health score and [lastSeen]. *)
Definition node (key : string) (health : option Q) (seen : string) : PNode.t :=
  {| PNode.pubkey := key; PNode.status := "online"; PNode.healthScore := health;
     PNode.tier := None; PNode.storageUsed := 0%Q; PNode.storageTotal := 0%Q;
     PNode.storageUtilization := None; PNode.ramUsed := None; PNode.ramTotal := None;
     PNode.version := None; PNode.region := None; PNode.ip := None;
     PNode.lastSeen := LsString seen |}.

(** A record with the given storage figures. *)
Definition storageNode (u t : Q) (util : option Q) : PNode.t :=
  {| PNode.pubkey := "n"; PNode.status := "online"; PNode.healthScore := None;
     PNode.tier := None; PNode.storageUsed := u; PNode.storageTotal := t;
     PNode.storageUtilization := util; PNode.ramUsed := None; PNode.ramTotal := None;
     PNode.version := None; PNode.region := None; PNode.ip := None;
     PNode.lastSeen := LsString "2024-01-01T00:00:00Z" |}.

(** An online map node last seen at [seen]. *)
Definition mapNode (st seen : string) : MapNode.t :=
  {| MapNode.pubkey := "m"; MapNode.lat := 0%Q; MapNode.lng := 0%Q;
     MapNode.country := "FR"; MapNode.region := "EU"; MapNode.status := st;
     MapNode.healthScore := 90%Q; MapNode.uptime24h := 100%Q;
     MapNode.storageUtilization := 50%Q; MapNode.version := "1.0";
     MapNode.lastSeen := seen |}.

(** Twenty-five records with pairwise different keys. *)
Definition fleet : list PNode.t :=
  (λ i, node (pretty i) (Some (inject_Z (Z.of_nat i))) "2024-01-01T00:00:00Z") <$> seq 0 25.

(** Three records whose times are 2 min ago, unparsable, 10 min ago. *)
Definition mixedDates : list PNode.t :=
  [ node "a" None "2023-12-31T23:58:00Z"; node "b" None "not a date";
    node "c" None "2023-12-31T23:50:00Z" ].

(** A record without storage capacity that carries an explicit
    utilisation figure. *)
Definition noCapacity : PNode.t := storageNode 5%Q 0%Q (Some 50%Q).

(** A record whose health score is the number zero. *)
Definition zeroHealth : PNode.t := node "z" (Some 0%Q) "2024-01-01T00:00:00Z".


(** A small map, and a point that lies in both fixed regions of it. *)
Definition smallMap : Point := L_point 400 400.
Definition centre : Point := L_point 200 200.

(** Two records that share the key ["abc"], and a third one. *)
Definition abcHigh : PNode.t := node "abc" (Some 90%Q) "2024-01-01T00:00:00Z".
Definition abcLow : PNode.t := node "abc" (Some 50%Q) "2024-01-01T00:00:00Z".
Definition other : PNode.t := node "x" (Some 70%Q) "2024-01-01T00:00:00Z".
Definition duplicates : list PNode.t := [abcLow; other; abcHigh].

(** The initial state of the table: no filter, best health first. *)
Definition byHealth : ViewState :=
  {| search := ""; statusFilter := "all"; tierFilter := "all";
     sortField := SortField.healthScore; sortDirection := desc; currentPage := 1 |}.

End Demo.

(** * The controls of the table *)

(** ** More of the language *)

(** [a < b] *)
Definition jslt (a b : number) : bool := jsgt b a.

(** [Math.floor] *)
Definition Math_floor (v : number) : number :=
  match v with
  | Fin q => ofZ (Qfloor q)
  | _ => v
  end.

(** [Math.min] of two numbers: [NaN] when either is. *)
Definition Math_min (a b : number) : number :=
  match a, b with
  | NaN, _ | _, NaN => NaN
  | _, _ => if jslt b a then b else a
  end.

(** [l.findIndex(p)]: the first position whose element satisfies [p], or
    [-1]. *)
Definition findIndex {A : Type} (p : A -> bool) (l : list A) : Z :=
  match list_find (λ x, p x = true) l with
  | Some (i, _) => Z.of_nat i
  | None => -1
  end.

(** [l.find(p)] *)
Definition Array_find {A : Type} (p : A -> bool) (l : list A) : option A :=
  snd <$> list_find (λ x, p x = true) l.

(** ** Sorting and filtering controls *)

#[global] Instance SortField_eq_dec : EqDecision SortField.t.
Proof. solve_decision. Defined.

Definition setSearch (value : string) (vs : ViewState) : ViewState :=
  {| search := value; statusFilter := statusFilter vs; tierFilter := tierFilter vs;
     sortField := sortField vs; sortDirection := sortDirection vs;
     currentPage := currentPage vs |}.

Definition setStatusFilter (status : string) (vs : ViewState) : ViewState :=
  {| search := search vs; statusFilter := status; tierFilter := tierFilter vs;
     sortField := sortField vs; sortDirection := sortDirection vs;
     currentPage := currentPage vs |}.

Definition setTierFilter (tier : string) (vs : ViewState) : ViewState :=
  {| search := search vs; statusFilter := statusFilter vs; tierFilter := tier;
     sortField := sortField vs; sortDirection := sortDirection vs;
     currentPage := currentPage vs |}.

Definition setSortField (field : SortField.t) (vs : ViewState) : ViewState :=
  {| search := search vs; statusFilter := statusFilter vs; tierFilter := tierFilter vs;
     sortField := field; sortDirection := sortDirection vs;
     currentPage := currentPage vs |}.

Definition setSortDirection (direction : SortDirection) (vs : ViewState) : ViewState :=
  {| search := search vs; statusFilter := statusFilter vs; tierFilter := tierFilter vs;
     sortField := sortField vs; sortDirection := direction;
     currentPage := currentPage vs |}.

Definition setCurrentPage (page : Z) (vs : ViewState) : ViewState :=
  {| search := search vs; statusFilter := statusFilter vs; tierFilter := tierFilter vs;
     sortField := sortField vs; sortDirection := sortDirection vs;
     currentPage := page |}.

(** A click on a column header. *)
Definition handleSort (field : SortField.t) (vs : ViewState) : ViewState :=
  setCurrentPage 1
    (if decide (sortField vs = field)
     then setSortDirection (match sortDirection vs with asc => desc | desc => asc end) vs
     else setSortDirection desc (setSortField field vs)).

Definition handleFilterChange (vs : ViewState) : ViewState := setCurrentPage 1 vs.

Definition handleStatusFilter (status : string) (vs : ViewState) : ViewState :=
  setCurrentPage 1 (setStatusFilter status vs).

Definition handleTierFilter (tier : string) (vs : ViewState) : ViewState :=
  setCurrentPage 1 (setTierFilter tier vs).

(** [direction] is optional and defaults to ['desc']. *)
Definition handleSortChange (field : SortField.t) (direction : option SortDirection)
    (vs : ViewState) : ViewState :=
  setCurrentPage 1 (setSortDirection (default desc direction) (setSortField field vs)).

(** The [onChange] of the search box. *)
Definition Input_onChange (value : string) (vs : ViewState) : ViewState :=
  handleFilterChange (setSearch value vs).

(** ** Rank of a row *)

(** [globalRank] of a row of the page, looked up in the whole view. *)
Definition globalRank (filteredAndSorted : list PNode.t) (node : PNode.t) : Z :=
  findIndex (λ n, String.eqb (PNode.pubkey n) (PNode.pubkey node)) filteredAndSorted + 1.

(** ** The RAM cells *)

(** The percentage the RAM cells print, or nothing when they print a dash. *)
Definition ramUtilizationCell (ramMap : gmap string RamData) (node : PNode.t)
    : option number :=
  match ramMap !! PNode.pubkey node with
  | None => None
  | Some ramData =>
      if Qis0 (total ramData) then None
      else Some (jsmul (jsdiv (Fin (used ramData)) (Fin (total ramData))) (Fin 100))
  end.

(** ** Pagination controls *)

Definition PaginationPrevious_onClick (vs : ViewState) : ViewState :=
  if 1 <? currentPage vs then setCurrentPage (currentPage vs - 1) vs else vs.

Definition PaginationNext_onClick (totalPages : Z) (vs : ViewState) : ViewState :=
  if currentPage vs <? totalPages then setCurrentPage (currentPage vs + 1) vs else vs.

Definition PaginationLink_onClick (page : Z) (vs : ViewState) : ViewState :=
  setCurrentPage page vs.

Inductive PageItem : Type :=
| PaginationLink (page : Z) (isActive : bool)
| PaginationEllipsis (page : Z).

(** What the strip shows for [page]: a link, an ellipsis, or nothing. *)
Definition pageItem (currentPage totalPages page : Z) : option PageItem :=
  if (page =? 1) || (page =? totalPages)
     || ((currentPage - 1 <=? page) && (page <=? currentPage + 1))
  then Some (PaginationLink page (currentPage =? page))
  else if (page =? currentPage - 2) || (page =? currentPage + 2)
  then Some (PaginationEllipsis page)
  else None.

(** [Array.from({ length: n }, (_, i) => i + 1)] *)
Definition Array_from_length (n : Z) : list Z :=
  (λ i, Z.of_nat i + 1) <$> seq 0 (Z.to_nat n).

(** The items between the two arrows; the strip is rendered only when
    there is more than one page. *)
Definition pageStrip (currentPage totalPages : Z) : list PageItem :=
  if 1 <? totalPages
  then omap (pageItem currentPage totalPages) (Array_from_length totalPages)
  else [].

Definition isLink (item : PageItem) : bool :=
  match item with PaginationLink _ _ => true | PaginationEllipsis _ => false end.

Definition isEllipsis (item : PageItem) : bool := negb (isLink item).

(** * The rest of the map *)

(** ** Text of the popup *)

(** [s.substring(start, end)]: both ends are clamped to the string and
    swapped when out of order; [end] defaults to the length.  A string is
    its sequence of code units. *)
Definition String_substring (s : string) (start : Z) (end_ : option Z) : string :=
  let len := Z.of_nat (String.length s) in
  let finalStart := Z.min (Z.max start 0) len in
  let finalEnd := Z.min (Z.max (default len end_) 0) len in
  let from := Z.min finalStart finalEnd in
  let to := Z.max finalStart finalEnd in
  substring (Z.to_nat from) (Z.to_nat (to - from)) s.

(** [`${pubkey.substring(0, 4)}..${pubkey.substring(pubkey.length - 4)}`] *)
Definition shortPubkey (pubkey : string) : string :=
  (String_substring pubkey 0 (Some 4) ++ ".."
   ++ String_substring pubkey (Z.of_nat (String.length pubkey) - 4) None)%string.

(** A number inside a template string: an integer below [10^21] in
    magnitude prints its decimal digits. *)
Definition numberToString (E : Engine) (v : number) : string :=
  match v with
  | NaN => "NaN"
  | PInf => "Infinity"
  | NInf => "-Infinity"
  | Fin q =>
      if Qeq_bool q (inject_Z (Qfloor q)) && negb (Qle_bool (inject_Z (10 ^ 21)) (Qabs q))
      then pretty (Qfloor q)
      else NumberToString E q
  end.

(** The [formatRelativeTime] of [createPopupContent], evaluated when
    [Date.now()] is [now]. *)
Definition formatRelativeTime (E : Engine) (now : Z) (date : Date) : string :=
  let seconds := Math_floor (jsdiv (jssub (ofZ now) (getTime date)) (Fin 1000)) in
  if jslt seconds (Fin 0) then "Just now"
  else if jslt seconds (Fin 60) then (numberToString E seconds ++ "s ago")%string
  else if jslt seconds (Fin 3600)
  then (numberToString E (Math_floor (jsdiv seconds (Fin 60))) ++ "m ago")%string
  else if jslt seconds (Fin 86400)
  then (numberToString E (Math_floor (jsdiv seconds (Fin 3600))) ++ "h ago")%string
  else (numberToString E (Math_floor (jsdiv seconds (Fin 86400))) ++ "d ago")%string.

(** The "Last Seen" line of the popup of [node]. *)
Definition popupLastSeen (E : Engine) (now : Z) (node : MapNode.t) : string :=
  formatRelativeTime E now (newDate E (MapNode.lastSeen node)).

(** ** Filters and versions of the map *)

Definition matchesHealthTier (healthTierFilter : string) (n : MapNode.t) : bool :=
  if String.eqb healthTierFilter "Excellent"
  then jsge (Fin (MapNode.healthScore n)) (Fin 90)
  else if String.eqb healthTierFilter "Good"
  then jsge (Fin (MapNode.healthScore n)) (Fin 75)
       && jslt (Fin (MapNode.healthScore n)) (Fin 90)
  else if String.eqb healthTierFilter "Poor"
  then jslt (Fin (MapNode.healthScore n)) (Fin 75)
  else true.

Definition filteredNodes (showOnlineOnly : bool) (healthTierFilter versionFilter : string)
    (mapNodes : list MapNode.t) : list MapNode.t :=
  let filtered := mapNodes in
  let filtered :=
    if showOnlineOnly
    then List.filter (λ n, String.eqb (MapNode.status n) "online") filtered
    else filtered in
  let filtered :=
    if negb (String.eqb healthTierFilter "all")
    then List.filter (matchesHealthTier healthTierFilter) filtered
    else filtered in
  if negb (String.eqb versionFilter "all")
  then List.filter (λ n, String.eqb (MapNode.version n) versionFilter) filtered
  else filtered.

(** [Array.from(new Set(values))]: the distinct values, each at the place
    of its first occurrence. *)
Fixpoint Set_from (seen : gset string) (values : list string) : list string :=
  match values with
  | [] => []
  | v :: values' =>
      if decide (v ∈ seen) then Set_from seen values'
      else v :: Set_from ({[v]} ∪ seen) values'
  end.

(** The order [sort()] uses without a comparator: strings by their code
    units. *)
Definition defaultCompare (x y : string) : number :=
  match String.compare x y with
  | Lt => Fin (-1)
  | Eq => Fin 0
  | Gt => Fin 1
  end.

Definition versions (mapNodes : list MapNode.t) : list string :=
  array_sort defaultCompare (Set_from ∅ (MapNode.version <$> mapNodes)).

(** ** The filter panel *)

Record MapFilterState : Type := {
  showOnlineOnly : bool;
  healthTierFilter : string;
  versionFilter : string;
  enableClustering : bool
}.

Definition hasActiveFilters (st : MapFilterState) : bool :=
  showOnlineOnly st || negb (String.eqb (healthTierFilter st) "all")
  || negb (String.eqb (versionFilter st) "all").

Definition showExcellent (st : MapFilterState) : bool :=
  String.eqb (healthTierFilter st) "Excellent".
Definition showGood (st : MapFilterState) : bool :=
  String.eqb (healthTierFilter st) "Good".
Definition showPoor (st : MapFilterState) : bool :=
  String.eqb (healthTierFilter st) "Poor".

Definition onHealthTierFilterChange (tier : string) (st : MapFilterState) : MapFilterState :=
  {| showOnlineOnly := showOnlineOnly st; healthTierFilter := tier;
     versionFilter := versionFilter st; enableClustering := enableClustering st |}.

Definition handleHealthTierToggle (tier : string) (enabled : bool) (st : MapFilterState)
    : MapFilterState :=
  if enabled then onHealthTierFilterChange tier st
  else onHealthTierFilterChange "all" st.

(** The button that closes the panel. *)
Definition closeButton_onClick (st : MapFilterState) : MapFilterState :=
  if hasActiveFilters st
  then {| showOnlineOnly := false; healthTierFilter := "all"; versionFilter := "all";
          enableClustering := enableClustering st |}
  else st.

(** The nodes on the map under the state of the panel. *)
Definition shownNodes (st : MapFilterState) (mapNodes : list MapNode.t) : list MapNode.t :=
  filteredNodes (showOnlineOnly st) (healthTierFilter st) (versionFilter st) mapNodes.

(** ** The layers of the markers *)

(** A layer object is known by its identity, here its position among the
    objects created so far. *)
Inductive LayerObject : Type :=
| Marker (pubkey : string)
| MarkerClusterGroup (markers : list nat).

Record LeafletMap : Type := {
  objects : list LayerObject;
  onMap : gset nat
}.

(** The two refs of [MarkersLayer]. *)
Record MarkerRefs : Type := {
  clusterGroupRef : option nat;
  markersRef : list nat
}.

(** [map.removeLayer(layer)]: nothing happens when the map does not hold
    the layer. *)
Definition removeLayer (layer : nat) (m : LeafletMap) : LeafletMap :=
  {| objects := objects m; onMap := onMap m ∖ {[layer]} |}.

(** [layer.addTo(map)] *)
Definition addTo (layer : nat) (m : LeafletMap) : LeafletMap :=
  {| objects := objects m; onMap := {[layer]} ∪ onMap m |}.

(** [L.marker(...)] and [L.markerClusterGroup(...)]: a new object. *)
Definition newLayer (o : LayerObject) (m : LeafletMap) : nat * LeafletMap :=
  (length (objects m), {| objects := objects m ++ [o]; onMap := onMap m |}).

(** [clusterGroup.addLayer(marker)] *)
Definition addLayer (clusterGroup marker : nat) (m : LeafletMap) : LeafletMap :=
  {| objects :=
       match objects m !! clusterGroup with
       | Some (MarkerClusterGroup markers) =>
           <[clusterGroup := MarkerClusterGroup (markers ++ [marker])]> (objects m)
       | _ => objects m
       end;
     onMap := onMap m |}.

Definition removeMarkers (markers : list nat) (m : LeafletMap) : LeafletMap :=
  foldl (λ m marker, removeLayer marker m) m markers.

(** The callback of [nodes.forEach] when clustering: a new marker, added
    to the cluster group. *)
Definition clusterMarker (clusterGroup : nat) (m : LeafletMap) (node : MapNode.t)
    : LeafletMap :=
  let '(marker, m) := newLayer (Marker (MapNode.pubkey node)) m in
  addLayer clusterGroup marker m.

(** The callback of [nodes.forEach] without clustering: a new marker, added
    to the map and pushed on [markersRef]. *)
Definition directMarker (s : MarkerRefs * LeafletMap) (node : MapNode.t)
    : MarkerRefs * LeafletMap :=
  let '(marker, m) := newLayer (Marker (MapNode.pubkey node)) s.2 in
  ({| clusterGroupRef := clusterGroupRef s.1;
      markersRef := markersRef s.1 ++ [marker] |}, addTo marker m).

(** The body of the effect of [MarkersLayer]. *)
Definition markersEffect (nodes : list MapNode.t) (clustering : bool)
    (s : MarkerRefs * LeafletMap) : MarkerRefs * LeafletMap :=
  let '(refs, m) := s in
  let m := match clusterGroupRef refs with
           | Some clusterGroup => removeLayer clusterGroup m
           | None => m
           end in
  let m := removeMarkers (markersRef refs) m in
  if clustering then
    let '(clusterGroup, m) := newLayer (MarkerClusterGroup []) m in
    let m := foldl (clusterMarker clusterGroup) m nodes in
    ({| clusterGroupRef := Some clusterGroup; markersRef := [] |}, addTo clusterGroup m)
  else
    foldl directMarker ({| clusterGroupRef := None; markersRef := [] |}, m) nodes.

(** The function the effect returns, run before the next effect and when
    the component goes away. *)
Definition markersCleanup (s : MarkerRefs * LeafletMap) : MarkerRefs * LeafletMap :=
  let '(refs, m) := s in
  let m := match clusterGroupRef refs with
           | Some clusterGroup => removeLayer clusterGroup m
           | None => m
           end in
  (refs, removeMarkers (markersRef refs) m).

(** The layers the refs point to. *)
Definition tracked (refs : MarkerRefs) : gset nat :=
  (match clusterGroupRef refs with Some g => {[g]} | None => ∅ end)
  ∪ list_to_set (markersRef refs).

(** Every layer on the map and every layer of the refs is an object that
    has been created. *)
Definition knownLayers (s : MarkerRefs * LeafletMap) : Prop :=
  ∀ layer, layer ∈ onMap s.2 ∪ tracked s.1 → (layer < length (objects s.2))%nat.

(** The keys of the markers at [layers], in order. *)
Definition markerKeys (m : LeafletMap) (layers : list nat) : list (option string) :=
  (λ layer, match objects m !! layer with
            | Some (Marker k) => Some k
            | _ => None
            end) <$> layers.

(** * The overview page, the metric card and the tier chart *)

Definition networkHealth (totalNodes onlineNodes : Q) : string :=
  if jsgt (Fin totalNodes) (Fin 0)
     && jsge (jsdiv (Fin onlineNodes) (Fin totalNodes)) (Fin (3 # 5))
  then "healthy"
  else if jsgt (Fin totalNodes) (Fin 0)
          && jsge (jsdiv (Fin onlineNodes) (Fin totalNodes)) (Fin (2 # 5))
  then "degraded"
  else "critical".

(** The value of the "Online" card. *)
Definition onlinePercentage (totalNodes onlineNodes : Q) : number :=
  if jsgt (Fin totalNodes) (Fin 0)
  then jsmul (jsdiv (Fin onlineNodes) (Fin totalNodes)) (Fin 100)
  else Fin 0.

(** The click on a marker of the map: the selection after it. *)
Definition onNodeClick (pnodes : list PNode.t) (pubkey : string)
    (selectedNode : option PNode.t) : option PNode.t :=
  match Array_find (λ n, String.eqb (PNode.pubkey n) pubkey) pnodes with
  | Some node => Some node
  | None => selectedNode
  end.

(** The value the metric card shows after the tick number [step] of its
    animation towards [value]. *)
Definition animationTick (value : Q) (step : Z) : number :=
  let steps := 60 in
  let stepValue := jsdiv (Fin value) (ofZ steps) in
  let current := Math_min (jsmul stepValue (ofZ step)) (Fin value) in
  if steps <=? step then Fin value else current.

(** The values shown one after the other, until the interval is cleared. *)
Definition animation (value : Q) : list number :=
  animationTick value <$> Array_from_length 60.

Module NodeMetrics.
Record t : Type := mk {
  pubkey : string;
  healthScore : Q;
  uptime24h : Q;
  storageUtilization : Q;
  tier : string
}.
End NodeMetrics.

Record Distribution : Type := { Excellent : nat; Good : nat; Poor : nat }.

(** The counts of the tier chart. *)
Definition distribution (nodeMetrics : list NodeMetrics.t) : Distribution :=
  {| Excellent :=
       length (List.filter (λ m, String.eqb (NodeMetrics.tier m) "Excellent") nodeMetrics);
     Good := length (List.filter (λ m, String.eqb (NodeMetrics.tier m) "Good") nodeMetrics);
     Poor := length (List.filter (λ m, String.eqb (NodeMetrics.tier m) "Poor") nodeMetrics) |}.

(** * Vocabulary of the further properties *)

(** The record passes the search box and the two filter menus. *)
Definition passesFilters (E : Engine) (vs : ViewState) (n : PNode.t) : Prop :=
  (isEmpty (trim E (search vs)) = true
   ∨ matchesSearch E (trim E (toLowerCase E (search vs))) n = true)
  ∧ (statusFilter vs = "all"%string ∨ PNode.status n = statusFilter vs)
  ∧ (tierFilter vs = "all"%string ∨ PNode.tier n = Some (tierFilter vs)).

(** ** More sample records *)

Module Sample.

(** A record that reports both RAM figures, and one that reports the used
    RAM only. *)
Definition withRam : PNode.t :=
  {| PNode.pubkey := "r1"; PNode.status := "online"; PNode.healthScore := Some 80%Q;
     PNode.tier := Some "Good"%string; PNode.storageUsed := 0%Q; PNode.storageTotal := 0%Q;
     PNode.storageUtilization := None; PNode.ramUsed := Some 4%Q;
     PNode.ramTotal := Some 8%Q; PNode.version := None; PNode.region := None;
     PNode.ip := None; PNode.lastSeen := LsString "2024-01-01T00:00:00Z" |}.

Definition usedOnly : PNode.t :=
  {| PNode.pubkey := "r2"; PNode.status := "offline"; PNode.healthScore := Some 40%Q;
     PNode.tier := Some "Poor"%string; PNode.storageUsed := 0%Q; PNode.storageTotal := 0%Q;
     PNode.storageUtilization := None; PNode.ramUsed := Some 4%Q;
     PNode.ramTotal := None; PNode.version := None; PNode.region := None;
     PNode.ip := None; PNode.lastSeen := LsString "2024-01-01T00:00:00Z" |}.

Definition ramNodes : list PNode.t := [withRam; usedOnly].

(** The table showing the online records only. *)
Definition onlineOnly : ViewState :=
  {| search := ""; statusFilter := "online"; tierFilter := "all";
     sortField := SortField.healthScore; sortDirection := desc; currentPage := 1 |}.

Definition mapNodeAt (key : string) (lat lng : Q) : MapNode.t :=
  {| MapNode.pubkey := key; MapNode.lat := lat; MapNode.lng := lng;
     MapNode.country := "FR"; MapNode.region := "EU"; MapNode.status := "online";
     MapNode.healthScore := 90%Q; MapNode.uptime24h := 100%Q;
     MapNode.storageUtilization := 50%Q; MapNode.version := "1.0";
     MapNode.lastSeen := "2024-01-01T00:00:00Z" |}.

Definition twoNodes : list MapNode.t :=
  [mapNodeAt "north" 30%Q (-20)%Q; mapNodeAt "south" 10%Q 40%Q].

(** Four records seen at 23:58, at 23:55, at no time that parses, and at
    23:50. *)
Definition seen2358 : PNode.t := Demo.node "e0" None "2023-12-31T23:58:00Z".
Definition seen2355 : PNode.t := Demo.node "e1" None "2023-12-31T23:55:00Z".
Definition seenNever : PNode.t := Demo.node "e2" None "not a date".
Definition seen2350 : PNode.t := Demo.node "e3" None "2023-12-31T23:50:00Z".
Definition fourDates : list PNode.t := [seen2358; seen2355; seenNever; seen2350].


(** Records of the tiers "Poor", "Good" and "Excellent", and one whose tier
    is the name of an inherited member. *)
Definition tierNode (key tier : string) : PNode.t :=
  {| PNode.pubkey := key; PNode.status := "online"; PNode.healthScore := None;
     PNode.tier := Some tier; PNode.storageUsed := 0%Q; PNode.storageTotal := 0%Q;
     PNode.storageUtilization := None; PNode.ramUsed := None; PNode.ramTotal := None;
     PNode.version := None; PNode.region := None; PNode.ip := None;
     PNode.lastSeen := LsString "2024-01-01T00:00:00Z" |}.

Definition poor : PNode.t := tierNode "t0" "Poor".
Definition good : PNode.t := tierNode "t1" "Good".
Definition inheritedTier : PNode.t := tierNode "t2" "constructor".
Definition excellent : PNode.t := tierNode "t3" "Excellent".
Definition fourTiers : list PNode.t := [poor; good; inheritedTier; excellent].
Definition mixedTiers : list PNode.t := [poor; inheritedTier; excellent].

(** The table sorted by used RAM, ascending. *)
Definition byRam : ViewState :=
  {| search := ""; statusFilter := "all"; tierFilter := "all";
     sortField := SortField.ramUsed; sortDirection := asc; currentPage := 1 |}.

(** A map that holds one layer of its own, before the marker layer has
    run. *)
Definition freshMap : MarkerRefs * LeafletMap :=
  ({| clusterGroupRef := None; markersRef := [] |},
   {| objects := [Marker "other"]; onMap := {[0%nat]} |}).

End Sample.

(** * Properties *)

(** ** The sort *)

Section SortFacts.
Context {A : Type}.
Variable comparefn : A -> A -> number.

Lemma sort_insert_perm (x : A) (l : list A) :
  sort_insert comparefn x l ≡ₚ x :: l.
Proof.
  induction l as [|y l IH]; simpl; [done|].
  destruct (sortGt comparefn x y); [|done].
  rewrite IH. apply Permutation_swap.
Qed.

Lemma array_sort_perm (l : list A) : array_sort comparefn l ≡ₚ l.
Proof.
  induction l as [|x l IH]; simpl; [done|].
  rewrite sort_insert_perm. by rewrite IH.
Qed.

Lemma array_sort_length (l : list A) :
  length (array_sort comparefn l) = length l.
Proof. by rewrite array_sort_perm. Qed.

Lemma array_sort_elem_of (x : A) (l : list A) :
  x ∈ array_sort comparefn l ↔ x ∈ l.
Proof. by rewrite array_sort_perm. Qed.

(** A comparator that looks at the image under [f] only sorts the images
    the same way. *)
Lemma sort_insert_map {B : Type} (f : B -> A) (x : B) (l : list B) :
  f <$> sort_insert (fun u v => comparefn (f u) (f v)) x l
  = sort_insert comparefn (f x) (f <$> l).
Proof.
  induction l as [|y l IH]; simpl; [done|].
  unfold sortGt.
  destruct (sortSign (comparefn (f x) (f y))); simpl; try done.
  f_equal. exact IH.
Qed.

Lemma array_sort_map {B : Type} (f : B -> A) (l : list B) :
  f <$> array_sort (fun u v => comparefn (f u) (f v)) l
  = array_sort comparefn (f <$> l).
Proof.
  induction l as [|x l IH]; simpl; [done|].
  by rewrite sort_insert_map, IH.
Qed.

End SortFacts.

(** *** Stability *)

Section Stability.
Context {A : Type}.
Variable comparefn : A -> A -> number.

Lemma indexed_from_cons (k : nat) (x : A) (l : list A) :
  indexed_from k (x :: l) = (x, k) :: indexed_from (S k) l.
Proof. done. Qed.

Lemma indexed_from_lookup (k : nat) (l : list A) (i : nat) (x : A) :
  l !! i = Some x → indexed_from k l !! i = Some (x, (k + i)%nat).
Proof.
  revert k i. induction l as [|y l IH]; intros k [|i] Hi; try done.
  - injection Hi as ->. by rewrite Nat.add_0_r.
  - rewrite indexed_from_cons. simpl in *. rewrite (IH (S k) i Hi).
    do 2 f_equal. lia.
Qed.

Lemma indexed_from_tag (k : nat) (l : list A) (u : A * nat) :
  u ∈ indexed_from k l → (k ≤ u.2)%nat.
Proof.
  revert k. induction l as [|y l IH]; intros k.
  - by intros ?%elem_of_nil.
  - rewrite indexed_from_cons, elem_of_cons. intros [->|Hu]; simpl; [lia|].
    apply IH in Hu. lia.
Qed.

Lemma indexed_from_fst (k : nat) (l : list A) : (indexed_from k l).*1 = l.
Proof.
  revert k. induction l as [|y l IH]; intros k; [done|].
  rewrite indexed_from_cons. simpl. by rewrite IH.
Qed.

Lemma sort_insert_mayPrecede (u : A * nat) (s : list (A * nat)) :
  StronglySorted (mayPrecede comparefn) s →
  (∀ v, v ∈ s → (u.2 < v.2)%nat) →
  StronglySorted (mayPrecede comparefn) (sort_insert (onFst comparefn) u s).
Proof.
  induction s as [|y s IH]; intros Hs Htag; simpl.
  - repeat constructor.
  - apply StronglySorted_inv in Hs as [Hs Hy].
    destruct (sortGt (onFst comparefn) u y) eqn:Hgt.
    + constructor.
      * apply IH; [done|]. intros v Hv. apply Htag. by right.
      * rewrite Forall_forall. intros v Hv.
        rewrite sort_insert_perm, elem_of_cons in Hv.
        destruct Hv as [->|Hv].
        -- by right.
        -- rewrite Forall_forall in Hy. by apply Hy.
    + constructor; [by constructor|].
      rewrite Forall_forall. intros v Hv. left. by apply Htag.
Qed.

Lemma array_sort_mayPrecede (k : nat) (l : list A) :
  StronglySorted (mayPrecede comparefn)
    (array_sort (onFst comparefn) (indexed_from k l)).
Proof.
  revert k. induction l as [|x l IH]; intros k.
  - constructor.
  - rewrite indexed_from_cons. simpl. apply sort_insert_mayPrecede; [apply IH|].
    intros v Hv. rewrite array_sort_elem_of in Hv.
    apply indexed_from_tag in Hv. simpl. lia.
Qed.

Lemma StronglySorted_lookup {B : Type} (R : relation B) (s : list B)
    (p q : nat) (u v : B) :
  StronglySorted R s → s !! p = Some u → s !! q = Some v → (p < q)%nat → R u v.
Proof.
  intros Hs. revert p q. induction Hs as [|y s Hs IH Hy]; intros p q Hp Hq Hpq.
  - by rewrite lookup_nil in Hp.
  - destruct q as [|q]; [lia|]. simpl in Hq.
    destruct p as [|p]; simplify_eq/=.
    + rewrite Forall_forall in Hy. apply Hy. by eapply list_elem_of_lookup_2.
    + eapply IH; eauto. lia.
Qed.

(** Two elements that the comparator does not order strictly keep their
    input order. *)
Lemma array_sort_keeps_order (l : list A) (i j : nat) (a b : A) :
  l !! i = Some a → l !! j = Some b → (i < j)%nat →
  sortGt comparefn a b = false →
  ∃ p q, array_sort (onFst comparefn) (indexed l) !! p = Some (a, i)
       ∧ array_sort (onFst comparefn) (indexed l) !! q = Some (b, j)
       ∧ (p < q)%nat.
Proof.
  intros Hi Hj Hij Hgt.
  set (out := array_sort (onFst comparefn) (indexed l)).
  assert (Ha : (a, i) ∈ out).
  { apply array_sort_elem_of. eapply list_elem_of_lookup_2.
    by apply (indexed_from_lookup 0). }
  assert (Hb : (b, j) ∈ out).
  { apply array_sort_elem_of. eapply list_elem_of_lookup_2.
    by apply (indexed_from_lookup 0). }
  apply list_elem_of_lookup in Ha as [p Hp].
  apply list_elem_of_lookup in Hb as [q Hq].
  exists p, q. split_and!; [done..|].
  destruct (decide (p < q)%nat) as [|Hge]; [done|].
  destruct (decide (p = q)) as [->|Hne]; [simplify_eq; lia|].
  assert (Hqp : (q < p)%nat) by lia.
  pose proof (StronglySorted_lookup (mayPrecede comparefn) out q p _ _
                (array_sort_mayPrecede 0 l) Hq Hp Hqp) as [Hlt|Hgt'].
  - simpl in Hlt. lia.
  - simpl in Hgt'. congruence.
Qed.

End Stability.

(** *** Consistent comparators *)

Section Consistency.
Context {A : Type}.
Variable comparefn : A -> A -> number.
Variable P : A -> Prop.
Hypothesis Hc : consistentOn comparefn P.

Lemma tied_refl (x : A) : P x → tied comparefn x x.
Proof.
  intros Hx. unfold tied. pose proof (sign_antisym Hc x x Hx Hx) as H.
  destruct (signOf comparefn x x); simpl in H; congruence.
Qed.

Lemma tied_notGreater (x y : A) : tied comparefn x y → notGreater comparefn x y.
Proof. unfold tied, notGreater. congruence. Qed.

Lemma tied_sym (x y : A) : P x → P y → tied comparefn x y → tied comparefn y x.
Proof.
  unfold tied. intros Hx Hy H. rewrite (sign_antisym Hc x y Hx Hy), H. done.
Qed.

Lemma notGreater_antisym (x y : A) :
  P x → P y → notGreater comparefn x y → notGreater comparefn y x →
  tied comparefn x y.
Proof.
  unfold notGreater, tied. intros Hx Hy H1 H2.
  rewrite (sign_antisym Hc x y Hx Hy) in H2.
  destruct (signOf comparefn x y); simpl in *; congruence.
Qed.

Lemma tied_trans (x y z : A) :
  P x → P y → P z → tied comparefn x y → tied comparefn y z → tied comparefn x z.
Proof.
  intros Hx Hy Hz Hxy Hyz. apply notGreater_antisym; [done..| |].
  - eapply (sign_trans Hc x y z); eauto using tied_notGreater.
  - eapply (sign_trans Hc z y x); eauto using tied_notGreater, tied_sym.
Qed.

Lemma tiedb_tied (x y : A) : tiedb comparefn x y = true ↔ tied comparefn x y.
Proof. unfold tiedb, tied. destruct (signOf comparefn x y); split; congruence. Qed.

Lemma sortGt_notGreater (x y : A) :
  sortGt comparefn x y = false ↔ notGreater comparefn x y.
Proof.
  unfold sortGt, notGreater, signOf.
  destruct (sortSign (comparefn x y)); split; congruence.
Qed.

Lemma sortGt_greater (x y : A) :
  P x → P y → sortGt comparefn x y = true → notGreater comparefn y x.
Proof.
  unfold sortGt, notGreater. intros Hx Hy H.
  rewrite (sign_antisym Hc x y Hx Hy). unfold signOf.
  destruct (sortSign (comparefn x y)); simpl; congruence.
Qed.

Lemma sort_insert_sorted (x : A) (s : list A) :
  P x → Forall P s → StronglySorted (notGreater comparefn) s →
  StronglySorted (notGreater comparefn) (sort_insert comparefn x s).
Proof.
  intros Hx. induction s as [|y s IH]; intros HP Hs; simpl.
  - repeat constructor.
  - apply Forall_cons in HP as [Hy HP].
    apply StronglySorted_inv in Hs as [Hs Hys].
    destruct (sortGt comparefn x y) eqn:Hgt.
    + constructor; [by apply IH|].
      rewrite Forall_forall. intros v Hv.
      rewrite sort_insert_perm, elem_of_cons in Hv. destruct Hv as [->|Hv].
      * by apply sortGt_greater.
      * rewrite Forall_forall in Hys. by apply Hys.
    + apply sortGt_notGreater in Hgt.
      constructor; [by constructor|].
      constructor; [done|].
      rewrite Forall_forall in Hys, HP. rewrite Forall_forall. intros v Hv.
      eapply (sign_trans Hc x y v); eauto.
Qed.

Lemma array_sort_sorted (l : list A) :
  Forall P l → StronglySorted (notGreater comparefn) (array_sort comparefn l).
Proof.
  induction l as [|x l IH]; intros HP; simpl; [constructor|].
  apply Forall_cons in HP as [Hx HP].
  apply sort_insert_sorted; [done| |by apply IH].
  rewrite Forall_forall in HP. rewrite Forall_forall.
  intros v Hv. apply HP. by apply array_sort_elem_of in Hv.
Qed.

Lemma countTied_perm (x : A) (s t : list A) :
  s ≡ₚ t → countTied comparefn x s = countTied comparefn x t.
Proof. induction 1; simpl; lia. Qed.

Lemma countTied_pos (x : A) (l : list A) :
  (0 < countTied comparefn x l)%nat → ∃ z, z ∈ l ∧ tied comparefn x z.
Proof.
  induction l as [|y l IH]; simpl; [lia|].
  destruct (tiedb comparefn x y) eqn:Hxy.
  - intros _. exists y. split; [by left|]. by apply tiedb_tied.
  - intros H. destruct IH as (z & Hz & Ht); [lia|].
    exists z. split; [by right|done].
Qed.

Lemma tiedb_congr (x a b : A) :
  P x → P a → P b → tied comparefn a b → tiedb comparefn x a = tiedb comparefn x b.
Proof.
  intros Hx Ha Hb Hab.
  destruct (tiedb comparefn x a) eqn:H1, (tiedb comparefn x b) eqn:H2; try done.
  - apply tiedb_tied in H1.
    assert (tied comparefn x b) as ?%tiedb_tied by eauto using tied_trans.
    congruence.
  - apply tiedb_tied in H2.
    assert (tied comparefn x a) as ?%tiedb_tied by eauto using tied_trans, tied_sym.
    congruence.
Qed.

Lemma head_notGreater (a : A) (s : list A) (z : A) :
  P a → StronglySorted (notGreater comparefn) (a :: s) → z ∈ a :: s →
  notGreater comparefn a z.
Proof.
  intros Ha [_ Hs]%StronglySorted_inv [->|Hz]%elem_of_cons.
  - by apply tied_notGreater, tied_refl.
  - rewrite Forall_forall in Hs. by apply Hs.
Qed.

(** Two sorted arrangements of the same elements carry tied elements at
    every position. *)
Lemma sorted_tied_positionwise (s t : list A) :
  Forall P s → Forall P t →
  StronglySorted (notGreater comparefn) s → StronglySorted (notGreater comparefn) t →
  (∀ x, P x → countTied comparefn x s = countTied comparefn x t) →
  Forall2 (tied comparefn) s t.
Proof.
  revert t. induction s as [|a s IH]; intros [|b t] HPs HPt Hs Ht Hcount.
  - constructor.
  - apply Forall_cons in HPt as [Hb _].
    specialize (Hcount b Hb). simpl in Hcount.
    rewrite (proj2 (tiedb_tied b b) (tied_refl b Hb)) in Hcount. lia.
  - apply Forall_cons in HPs as [Ha _].
    specialize (Hcount a Ha). simpl in Hcount.
    rewrite (proj2 (tiedb_tied a a) (tied_refl a Ha)) in Hcount. lia.
  - pose proof HPs as HPs'. pose proof HPt as HPt'.
    apply Forall_cons in HPs as [Ha HPs]. apply Forall_cons in HPt as [Hb HPt].
    rewrite Forall_forall in HPs', HPt'.
    assert (Hab : tied comparefn a b).
    { apply notGreater_antisym; [done..| |].
      - destruct (countTied_pos b (a :: s)) as (w & Hw & Hbw).
        { rewrite (Hcount b Hb). simpl.
          rewrite (proj2 (tiedb_tied b b) (tied_refl b Hb)). lia. }
        eapply (sign_trans Hc a w b); eauto using head_notGreater,
          tied_notGreater, tied_sym.
      - destruct (countTied_pos a (b :: t)) as (z & Hz & Haz).
        { rewrite <- (Hcount a Ha). simpl.
          rewrite (proj2 (tiedb_tied a a) (tied_refl a Ha)). lia. }
        eapply (sign_trans Hc b z a); eauto using head_notGreater,
          tied_notGreater, tied_sym. }
    constructor; [done|].
    apply StronglySorted_inv in Hs as [Hs _].
    apply StronglySorted_inv in Ht as [Ht _].
    apply IH; [done..|].
    intros x Hx. specialize (Hcount x Hx). simpl in Hcount.
    rewrite (tiedb_congr x a b) in Hcount by done. lia.
Qed.

End Consistency.

(** *** The sorted array is the only stable sorted arrangement

    For a consistent comparator every sort that returns a sorted and stable
    arrangement of the input returns the array computed here. *)

Lemma StronglySorted_of_lookup {B : Type} (R : relation B) (s : list B) :
  (∀ p q u v, s !! p = Some u → s !! q = Some v → (p < q)%nat → R u v) →
  StronglySorted R s.
Proof.
  induction s as [|x s IH]; intros H; constructor.
  - apply IH. intros p q u v Hp Hq Hpq. apply (H (S p) (S q)); [done..|lia].
  - rewrite Forall_forall. intros v [q Hq]%list_elem_of_lookup.
    apply (H 0%nat (S q)); [done..|lia].
Qed.

Lemma indexed_from_elem_of {A : Type} (k : nat) (l : list A) (u : A * nat) :
  u ∈ indexed_from k l → u.1 ∈ l.
Proof.
  intros Hu. rewrite <- (indexed_from_fst k l). by apply list_elem_of_fmap_2.
Qed.

Section Canonical.
Context {A : Type}.
Variable comparefn : A -> A -> number.
Variable P : A -> Prop.
Hypothesis Hc : consistentOn comparefn P.

Lemma consistentOn_onFst : consistentOn (onFst comparefn) (λ u, P u.1).
Proof.
  split.
  - intros x y Hx Hy. apply (sign_antisym Hc x.1 y.1 Hx Hy).
  - intros x y z Hx Hy Hz. apply (sign_trans Hc x.1 y.1 z.1 Hx Hy Hz).
Qed.

Lemma stableSorted_lex (out : list (A * nat)) :
  stableSorted comparefn out → StronglySorted (lexBefore comparefn) out.
Proof.
  intros [Hsorted Hstable]. apply StronglySorted_of_lookup.
  intros p q u v Hp Hq Hpq.
  pose proof (StronglySorted_lookup _ out p q u v Hsorted Hp Hq Hpq) as Hle.
  unfold notGreater, signOf, onFst in Hle. unfold lexBefore, tied, signOf.
  destruct (sortSign (comparefn u.1 v.1)) eqn:Hs; [right|by left|done].
  split; [done|]. by eapply (Hstable p q u v).
Qed.

Lemma array_sort_stableSorted (l : list A) :
  Forall P l → stableSorted comparefn (array_sort (onFst comparefn) (indexed l)).
Proof.
  intros HP.
  assert (HP' : Forall (λ u : A * nat, P u.1) (indexed l)).
  { rewrite Forall_forall in HP. rewrite Forall_forall.
    intros u Hu. by apply HP, (indexed_from_elem_of 0). }
  split.
  - by apply (array_sort_sorted _ _ consistentOn_onFst).
  - intros p q u v Hp Hq Hpq Htied.
    pose proof (StronglySorted_lookup _ _ p q u v
                  (array_sort_mayPrecede comparefn 0 l) Hp Hq Hpq) as [Hlt|Hgt];
      [done|].
    assert (Hu : P u.1).
    { rewrite Forall_forall in HP'. apply HP'.
      eapply array_sort_elem_of, list_elem_of_lookup_2, Hp. }
    assert (Hv : P v.1).
    { rewrite Forall_forall in HP'. apply HP'.
      eapply array_sort_elem_of, list_elem_of_lookup_2, Hq. }
    apply (tied_sym _ _ Hc) in Htied; [|done..].
    unfold sortGt in Hgt. unfold tied, signOf in Htied. by rewrite Htied in Hgt.
Qed.

Lemma lexBefore_asym (u v : A * nat) :
  P u.1 → P v.1 → lexBefore comparefn u v → lexBefore comparefn v u → False.
Proof.
  intros Hu Hv [Hlt|[Ht Hi]] [Hlt'|[Ht' Hi']].
  - rewrite (sign_antisym Hc u.1 v.1 Hu Hv), Hlt in Hlt'. done.
  - apply (tied_sym _ _ Hc) in Ht'; [|done..]. unfold tied in Ht'. congruence.
  - apply (tied_sym _ _ Hc) in Ht; [|done..]. unfold tied in Ht. congruence.
  - lia.
Qed.

Lemma array_sort_canonical (l : list A) (out : list (A * nat)) :
  Forall P l → out ≡ₚ indexed l → stableSorted comparefn out →
  out = array_sort (onFst comparefn) (indexed l).
Proof.
  intros HP Hperm Hout.
  assert (HPin : ∀ u, u ∈ indexed l → P u.1).
  { rewrite Forall_forall in HP. intros u Hu.
    by apply HP, (indexed_from_elem_of 0). }
  apply (StronglySorted_unique_strong (lexBefore comparefn)).
  - intros x1 x2 Hx1 Hx2 H12 H21. exfalso.
    apply array_sort_elem_of in Hx2. rewrite Hperm in Hx1.
    by apply (lexBefore_asym x1 x2); [apply HPin|apply HPin|..].
  - by apply stableSorted_lex.
  - by apply stableSorted_lex, array_sort_stableSorted.
  - by rewrite Hperm, array_sort_perm.
Qed.

End Canonical.

(** *** Descending order against the reverse of ascending order *)

Lemma sortSign_jsneg (v : number) : sortSign (jsneg v) = CompOpp (sortSign v).
Proof.
  destruct v as [q| | |]; try done.
  cbn [jsneg sortSign]. rewrite <- (Qcompare_antisym 0 q).
  destruct (Qcompare_spec (- q) 0), (Qcompare_spec 0 q); try done; exfalso; lra.
Qed.

Lemma Qcompare_sub (p q : Q) : (p - q ?= 0)%Q = (p ?= q)%Q.
Proof.
  destruct (Qcompare_spec (p - q) 0), (Qcompare_spec p q); try done; exfalso; lra.
Qed.

Lemma sortSign_ofZ (z : Z) : sortSign (ofZ z) = (z ?= 0).
Proof. unfold ofZ, sortSign, Qcompare. simpl. by rewrite Z.mul_1_r. Qed.

Section Descending.
Context {A : Type}.
Variables up down : A -> A -> number.
Variable P : A -> Prop.
Hypothesis Hdown : ∀ x y, sortSign (down x y) = CompOpp (sortSign (up x y)).
Hypothesis Hup : consistentOn up P.

Lemma signOf_down (x y : A) : signOf down x y = CompOpp (signOf up x y).
Proof. apply Hdown. Qed.

Lemma notGreater_down (x y : A) :
  P x → P y → notGreater down x y ↔ notGreater up y x.
Proof.
  intros Hx Hy. unfold notGreater.
  rewrite signOf_down, (sign_antisym Hup x y Hx Hy). done.
Qed.

Lemma tied_down (x y : A) : tied down x y ↔ tied up x y.
Proof.
  unfold tied. rewrite signOf_down.
  destruct (signOf up x y); simpl; split; congruence.
Qed.

Lemma consistentOn_down : consistentOn down P.
Proof.
  split.
  - intros x y Hx Hy. rewrite !signOf_down.
    by rewrite (sign_antisym Hup x y Hx Hy).
  - intros x y z Hx Hy Hz Hxy Hyz.
    apply notGreater_down in Hxy, Hyz; try done.
    apply notGreater_down; try done.
    by apply (sign_trans Hup z y x).
Qed.

Lemma reverse_sorted_down (s : list A) :
  Forall P s → StronglySorted (notGreater up) s →
  StronglySorted (notGreater down) (reverse s).
Proof.
  induction s as [|a s IH]; intros HP Hs; [constructor|].
  apply Forall_cons in HP as [Ha HP].
  apply StronglySorted_inv in Hs as [Hs Has].
  rewrite reverse_cons. apply StronglySorted_app_2.
  - intros x1 x2 Hx1 ->%list_elem_of_singleton.
    rewrite elem_of_reverse in Hx1.
    rewrite Forall_forall in HP, Has.
    apply notGreater_down; [by apply HP|done|by apply Has].
  - by apply IH.
  - repeat constructor.
Qed.

(** The descending result and the reversed ascending result carry tied
    elements at every position. *)
Lemma descending_reverse_tied (l : list A) :
  Forall P l →
  Forall2 (tied up) (array_sort down l) (reverse (array_sort up l)).
Proof.
  intros HP.
  assert (HPup : Forall P (array_sort up l)) by by rewrite array_sort_perm.
  assert (HPdown : Forall P (array_sort down l)) by by rewrite array_sort_perm.
  eapply Forall2_impl.
  - apply (sorted_tied_positionwise down P consistentOn_down).
    + done.
    + by rewrite reverse_Permutation.
    + by apply (array_sort_sorted down P consistentOn_down).
    + apply reverse_sorted_down; [done|].
      by apply (array_sort_sorted up P Hup).
    + intros x _. apply countTied_perm.
      by rewrite reverse_Permutation, !array_sort_perm.
  - intros x y. apply tied_down.
Qed.

End Descending.

Lemma noTies_tied_eq {A : Type} (comparefn : A -> A -> number) (l s t : list A) :
  noTies comparefn l → s ≡ₚ l → t ≡ₚ l → Forall2 (tied comparefn) s t → s = t.
Proof.
  intros Hno Hs Ht H.
  assert (Hin : Forall (λ x, x ∈ l) s ∧ Forall (λ x, x ∈ l) t).
  { split; rewrite Forall_forall; intros x Hx; [by rewrite <- Hs|by rewrite <- Ht]. }
  destruct Hin as [Hins Hint]. clear Hs Ht.
  induction H as [|x y s t Hxy H IH]; [done|].
  apply Forall_cons in Hins as [Hx Hins]. apply Forall_cons in Hint as [Hy Hint].
  f_equal; [|by apply IH].
  apply list_elem_of_lookup in Hx as [i Hi].
  apply list_elem_of_lookup in Hy as [j Hj].
  destruct (decide (i = j)) as [->|Hne]; [congruence|].
  by destruct (Hno i j x y Hi Hj Hne).
Qed.

(** *** The comparator of the table *)

Lemma consistentOn_Qkey {A : Type} (c : A -> A -> number) (P : A -> Prop) (k : A -> Q) :
  (∀ x y, P x → P y → signOf c x y = (k x ?= k y)%Q) → consistentOn c P.
Proof.
  intros Hk. split.
  - intros x y Hx Hy. rewrite !Hk by done. symmetry. apply Qcompare_antisym.
  - intros x y z Hx Hy Hz. unfold notGreater. rewrite !Hk by done.
    rewrite <- !Qle_alt. apply Qle_trans.
Qed.

Lemma consistentOn_collation {A : Type} (E : Engine) (c : A -> A -> number)
    (P : A -> Prop) (k : A -> string) :
  collationConsistent E →
  (∀ x y, P x → P y → signOf c x y = (localeCompare E (k x) (k y) ?= 0)) →
  consistentOn c P.
Proof.
  intros HE Hk. split.
  - intros x y Hx Hy. rewrite !Hk by done. apply (collation_antisym HE).
  - intros x y z Hx Hy Hz. unfold notGreater. rewrite !Hk by done.
    rewrite !Z.compare_le_iff. apply (collation_trans HE).
Qed.

Lemma jsgt_pos (t : Q) : jsgt (Fin t) (Fin 0) = true ↔ (0 < t)%Q.
Proof.
  simpl. rewrite negb_true_iff, <- not_true_iff_false, Qle_bool_iff.
  split; [apply Qnot_le_lt|apply Qlt_not_le].
Qed.

Lemma jsdiv_pos (u t : Q) :
  jsgt (Fin t) (Fin 0) = true → jsdiv (Fin u) (Fin t) = Fin (u / t)%Q.
Proof.
  intros Ht%jsgt_pos. unfold jsdiv, Qis0.
  destruct (Qeq_bool t 0) eqn:H0; [|done].
  apply Qeq_bool_iff in H0. lra.
Qed.

Lemma percent_pos (u t : Q) :
  (if jsgt (Fin t) (Fin 0) then jsmul (jsdiv (Fin u) (Fin t)) (Fin 100) else Fin 0)
  = Fin (percentOf u t).
Proof.
  unfold percentOf.
  destruct (jsgt (Fin t) (Fin 0)) eqn:H; [|done]. by rewrite (jsdiv_pos _ _ H).
Qed.

Lemma nullish_Fin (o : option Q) (d : Q) : nullish o (Fin d) = Fin (default d o).
Proof. by destruct o. Qed.

Section Comparator.
Variable E : Engine.
Variable ramMap : gmap string RamData.

Lemma storageUsedUtil_ratio (a : PNode.t) :
  storageUsedUtil a = Fin (ratioOf (PNode.storageUsed a) (PNode.storageTotal a)).
Proof.
  unfold storageUsedUtil, ratioOf.
  destruct (jsgt (Fin (PNode.storageTotal a)) (Fin 0)) eqn:H; [|done].
  by apply jsdiv_pos.
Qed.

Lemma storageUtilizationUtil_key (a : PNode.t) :
  storageUtilizationUtil a
  = Fin (default (percentOf (PNode.storageUsed a) (PNode.storageTotal a))
           (PNode.storageUtilization a)).
Proof. unfold storageUtilizationUtil. by rewrite percent_pos, nullish_Fin. Qed.

Lemma comparison_numericKey (f : SortField.t) (a b : PNode.t) (p q : Q) :
  numericKey E ramMap f a = Some p → numericKey E ramMap f b = Some q →
  comparison E ramMap f a b = Fin (p - q)%Q.
Proof.
  destruct f; simpl; intros Ha Hb; simplify_eq; try done.
  - by rewrite !storageUsedUtil_ratio.
  - unfold lastSeenTry. simpl.
    destruct (lastSeenTime E (PNode.lastSeen a)),
      (lastSeenTime E (PNode.lastSeen b)); by simplify_eq.
  - destruct (memberOr (statusOrder (PNode.status a)) 2),
      (memberOr (statusOrder (PNode.status b)) 2); by simplify_eq.
  - destruct (numOr0 (PNode.healthScore a)),
      (numOr0 (PNode.healthScore b)); by simplify_eq.
  - by rewrite !storageUtilizationUtil_key.
  - destruct (memberOr (tierOrder (optStrOr (PNode.tier a) "")) 3),
      (memberOr (tierOrder (optStrOr (PNode.tier b) "")) 3); by simplify_eq.
  - unfold ramUsedOf. by destruct (ramMap !! _), (ramMap !! _).
  - unfold ramUtilOf.
    destruct (ramMap !! PNode.pubkey a), (ramMap !! PNode.pubkey b);
      by rewrite ?percent_pos.
Qed.

Lemma comparison_stringKey (f : SortField.t) (a b : PNode.t) (s t : string) :
  stringKey f a = Some s → stringKey f b = Some t →
  comparison E ramMap f a b = ofZ (localeCompare E s t).
Proof. destruct f; simpl; intros Ha Hb; by simplify_eq. Qed.

Lemma statusOrder_own (s : string) :
  inheritedName s = false → ∃ q, memberOr (statusOrder s) 2 = Fin q.
Proof.
  intros Hs. unfold statusOrder. rewrite Hs.
  destruct (String.eqb s "online"); [by eexists|].
  destruct (String.eqb s "offline"); by eexists.
Qed.

Lemma tierOrder_own (s : string) :
  inheritedName s = false → ∃ q, memberOr (tierOrder s) 3 = Fin q.
Proof.
  intros Hs. unfold tierOrder. rewrite Hs.
  destruct (String.eqb s "Excellent"); [by eexists|].
  destruct (String.eqb s "Good"); [by eexists|].
  destruct (String.eqb s "Poor"); by eexists.
Qed.

Lemma key_cases (f : SortField.t) :
  (∀ a, keyComparable E f a → is_Some (numericKey E ramMap f a))
  ∨ (∀ a, is_Some (stringKey f a)).
Proof.
  destruct f;
    first [ right; intros a; simpl; by eapply mk_is_Some
          | left; intros a (Hseen & Hstatus & Htier); simpl ];
    try by eapply mk_is_Some.
  - specialize (Hseen eq_refl).
    unfold unparsable, lastSeenTime, getTime, newDate in *.
    destruct (PNode.lastSeen a) as [[[t|]]|s]; [by eapply mk_is_Some|done|].
    destruct (DateParse E s); [by eapply mk_is_Some|done].
  - destruct (statusOrder_own _ (Hstatus eq_refl)) as [q ->]. by eapply mk_is_Some.
  - unfold numOr0. destruct (PNode.healthScore a) as [q|]; [|by eapply mk_is_Some].
    destruct (Qis0 q); by eapply mk_is_Some.
  - destruct (tierOrder_own _ (Htier eq_refl)) as [q ->]. by eapply mk_is_Some.
Qed.

(** On records whose key can be compared the ascending comparator is
    consistent. *)
Lemma compareNodes_consistent (f : SortField.t) :
  collationConsistent E →
  consistentOn (compareNodes E ramMap f asc) (keyComparable E f).
Proof.
  intros HE. destruct (key_cases f) as [Hnum|Hstr].
  - apply (consistentOn_Qkey _ _ (λ a, default 0%Q (numericKey E ramMap f a))).
    intros x y [p Hp]%Hnum [q Hq]%Hnum. unfold signOf. simpl.
    rewrite (comparison_numericKey f x y p q Hp Hq), Hp, Hq. simpl.
    apply Qcompare_sub.
  - apply (consistentOn_collation E _ _ (λ a, default ""%string (stringKey f a)));
      [done|].
    intros x y _ _. destruct (Hstr x) as [s Hs], (Hstr y) as [t Ht].
    unfold signOf. simpl.
    rewrite (comparison_stringKey f x y s t Hs Ht), Hs, Ht. simpl.
    apply sortSign_ofZ.
Qed.

Lemma compareNodes_desc (f : SortField.t) (x y : PNode.t) :
  sortSign (compareNodes E ramMap f desc x y)
  = CompOpp (sortSign (compareNodes E ramMap f asc x y)).
Proof. apply sortSign_jsneg. Qed.

End Comparator.

(** *** The sample host is consistent *)

Lemma string_compare_le_trans (s t u : string) :
  String.compare s t ≠ Gt → String.compare t u ≠ Gt → String.compare s u ≠ Gt.
Proof.
  revert t u. induction s as [|a s IH]; intros [|b t] [|c u]; simpl; try done.
  unfold Ascii.compare.
  destruct (N.compare_spec (N_of_ascii a) (N_of_ascii b)) as [Hab|Hab|Hab],
    (N.compare_spec (N_of_ascii b) (N_of_ascii c)) as [Hbc|Hbc|Hbc],
    (N.compare_spec (N_of_ascii a) (N_of_ascii c)) as [Hac|Hac|Hac];
    try done; try lia.
  apply IH.
Qed.

Lemma codeUnitCompare_sign (s t : string) :
  (Demo.codeUnitCompare s t ?= 0) = String.compare s t.
Proof. unfold Demo.codeUnitCompare. by destruct (String.compare s t). Qed.

Lemma demo_collation : collationConsistent Demo.engine.
Proof.
  split; simpl.
  - intros s t. rewrite !codeUnitCompare_sign. apply String.compare_antisym.
  - intros s t u. rewrite <- !Z.compare_le_iff, !codeUnitCompare_sign.
    apply string_compare_le_trans.
Qed.

(** ** De-duplication *)

Lemma firstWithKey_cons (k : string) (n : PNode.t) (l : list PNode.t) :
  firstWithKey k (n :: l)
  = if decide (PNode.pubkey n = k) then Some n else firstWithKey k l.
Proof.
  unfold firstWithKey. simpl. destruct (decide (PNode.pubkey n = k)); [done|].
  by destruct (list_find _ l) as [[i x]|].
Qed.

Lemma firstWithKey_Some (k : string) (l : list PNode.t) (x : PNode.t) :
  firstWithKey k l = Some x ↔
  ∃ i, l !! i = Some x ∧ PNode.pubkey x = k
       ∧ ∀ j y, l !! j = Some y → (j < i)%nat → PNode.pubkey y ≠ k.
Proof.
  unfold firstWithKey. split.
  - destruct (list_find _ l) as [[i y]|] eqn:Hf; [|done].
    intros [= <-]. apply list_find_Some in Hf. by exists i.
  - intros (i & Hi & Hk & Hmin).
    assert (list_find (λ n, PNode.pubkey n = k) l = Some (i, x)) as ->; [|done].
    by apply list_find_Some.
Qed.

Lemma firstWithKey_is_Some (k : string) (l : list PNode.t) (x : PNode.t) :
  x ∈ l → PNode.pubkey x = k → is_Some (firstWithKey k l).
Proof.
  intros Hx Hk. unfold firstWithKey.
  destruct (list_find (λ n, PNode.pubkey n = k) l) as [p|] eqn:Hf; [by eexists|].
  apply list_find_None in Hf. rewrite Forall_forall in Hf. by destruct (Hf x Hx).
Qed.

Lemma dedupe_from_sublist (seen : gset string) (l : list PNode.t) :
  dedupe_from seen l `sublist_of` l.
Proof.
  revert seen. induction l as [|n l IH]; intros seen; simpl; [constructor|].
  destruct (decide (PNode.pubkey n ∈ seen)).
  - by apply sublist_cons.
  - by apply sublist_skip.
Qed.

Lemma dedupe_from_unseen (seen : gset string) (l : list PNode.t) (n : PNode.t) :
  n ∈ dedupe_from seen l → PNode.pubkey n ∉ seen.
Proof.
  revert seen. induction l as [|m l IH]; intros seen; simpl.
  - by intros ?%elem_of_nil.
  - destruct (decide (PNode.pubkey m ∈ seen)); [apply IH|].
    intros [->|Hn]%elem_of_cons; [done|].
    apply IH in Hn. set_solver.
Qed.

Lemma dedupe_from_NoDup (seen : gset string) (l : list PNode.t) :
  NoDup (PNode.pubkey <$> dedupe_from seen l).
Proof.
  revert seen. induction l as [|m l IH]; intros seen; simpl; [constructor|].
  destruct (decide (PNode.pubkey m ∈ seen)) as [Hm|Hm]; [apply IH|].
  simpl. constructor; [|apply IH].
  intros (x & Hk & Hx)%list_elem_of_fmap.
  apply dedupe_from_unseen in Hx. set_solver.
Qed.

Lemma dedupe_from_first (seen : gset string) (l : list PNode.t) (k : string) :
  firstWithKey k (dedupe_from seen l)
  = if decide (k ∈ seen) then None else firstWithKey k l.
Proof.
  revert seen. induction l as [|m l IH]; intros seen; simpl.
  - by destruct (decide (k ∈ seen)).
  - destruct (decide (PNode.pubkey m ∈ seen)) as [Hm|Hm].
    + rewrite IH, firstWithKey_cons.
      destruct (decide (k ∈ seen)); [done|].
      destruct (decide (PNode.pubkey m = k)); [congruence|done].
    + rewrite !firstWithKey_cons, IH.
      destruct (decide (PNode.pubkey m = k)) as [<-|Hne].
      * by destruct (decide (PNode.pubkey m ∈ seen)).
      * destruct (decide (k ∈ {[PNode.pubkey m]} ∪ seen)) as [H1|H1],
          (decide (k ∈ seen)) as [H2|H2]; try done.
        -- apply elem_of_union in H1 as [H1%elem_of_singleton|H1]; congruence.
        -- destruct H1. apply elem_of_union. by right.
Qed.

Lemma dedupe_NoDup_id (seen : gset string) (l : list PNode.t) :
  NoDup (PNode.pubkey <$> l) → (∀ n, n ∈ l → PNode.pubkey n ∉ seen) →
  dedupe_from seen l = l.
Proof.
  revert seen. induction l as [|m l IH]; intros seen Hnd Hseen; simpl; [done|].
  simpl in Hnd. apply NoDup_cons in Hnd as [Hm Hnd].
  destruct (decide (PNode.pubkey m ∈ seen)) as [Hin|_].
  - destruct (Hseen m); [by left|done].
  - f_equal. apply IH; [done|].
    intros n Hn. apply not_elem_of_union. split.
    + intros Heq%elem_of_singleton. apply Hm. rewrite <- Heq.
      by apply list_elem_of_fmap_2.
    + apply Hseen. by right.
Qed.

(** *** Sorting by health score *)

Lemma healthScore_consistent (E : Engine) (ramMap : gmap string RamData) :
  consistentOn (compareNodes E ramMap SortField.healthScore asc) (λ _, True).
Proof.
  apply (consistentOn_Qkey _ _
           (λ a, default 0%Q (numericKey E ramMap SortField.healthScore a))).
  intros x y _ _.
  assert (Hk : ∀ a, is_Some (numericKey E ramMap SortField.healthScore a)).
  { intros a. simpl. unfold numOr0. destruct (PNode.healthScore a) as [q|];
      [destruct (Qis0 q)|]; by eexists. }
  destruct (Hk x) as [p Hp], (Hk y) as [q Hq]. unfold signOf, compareNodes.
  rewrite (comparison_numericKey E ramMap _ x y p q Hp Hq), Hp, Hq.
  apply Qcompare_sub.
Qed.

Lemma healthScore_higher (E : Engine) (ramMap : gmap string RamData) (a b : PNode.t) :
  jsgt (numOr0 (PNode.healthScore a)) (numOr0 (PNode.healthScore b)) = true →
  signOf (compareNodes E ramMap SortField.healthScore desc) a b = Lt.
Proof.
  unfold signOf. rewrite compareNodes_desc. simpl.
  assert (Hfin : ∀ o, ∃ q, numOr0 o = Fin q).
  { intros [q|]; simpl; [destruct (Qis0 q)|]; by eexists. }
  destruct (Hfin (PNode.healthScore a)) as [p ->].
  destruct (Hfin (PNode.healthScore b)) as [q ->].
  simpl. rewrite negb_true_iff, <- not_true_iff_false, Qle_bool_iff.
  intros Hlt. rewrite Qcompare_sub.
  destruct (Qcompare_spec p q); try done; exfalso; lra.
Qed.

(** C1. [dedupe] keeps, for every key, the first record of its input with
    that key and nothing else: every key finds in the result the record it
    found first in the input, no key occurs twice in the result, and the
    result is a subsequence of the input, so not longer.  In particular,
    when exactly two records [a] and [b] of a list share the key ["abc"] and
    [a] has the higher health score, then after sorting by health score in
    descending order [a] is the first of the two and it is the record that
    [dedupe] keeps. *)
Theorem dedupe_keeps_first (l : list PNode.t) :
  (∀ k, firstWithKey k (dedupe l) = firstWithKey k l)
  ∧ NoDup (PNode.pubkey <$> dedupe l)
  ∧ dedupe l `sublist_of` l
  ∧ (length (dedupe l) ≤ length l)%nat
  ∧ ∀ (E : Engine) (ramMap : gmap string RamData) (a b : PNode.t),
      a ∈ l → b ∈ l →
      PNode.pubkey a = "abc"%string → PNode.pubkey b = "abc"%string →
      (∀ n, n ∈ l → PNode.pubkey n = "abc"%string → n = a ∨ n = b) →
      jsgt (numOr0 (PNode.healthScore a)) (numOr0 (PNode.healthScore b)) = true →
      let sorted := array_sort (compareNodes E ramMap SortField.healthScore desc) l in
      firstWithKey "abc" sorted = Some a
      ∧ firstWithKey "abc" (dedupe sorted) = Some a
      ∧ b ∉ dedupe sorted.
Proof.
  split_and!.
  - intros k. unfold dedupe. rewrite dedupe_from_first.
    destruct (decide (k ∈ (∅ : gset string))); set_solver.
  - apply dedupe_from_NoDup.
  - apply dedupe_from_sublist.
  - apply sublist_length, dedupe_from_sublist.
  - intros E ramMap a b Ha Hb Hka Hkb Honly Hgt sorted.
    assert (Hfirst : firstWithKey "abc" sorted = Some a).
    { destruct (firstWithKey_is_Some "abc" sorted a) as [x Hx];
        [by apply array_sort_elem_of|done|].
      rewrite Hx. f_equal.
      pose proof Hx as (i & Hi & Hkx & Hmin)%firstWithKey_Some.
      destruct (Honly x) as [->| ->]; [|done|done|].
      { apply array_sort_elem_of with (comparefn :=
          compareNodes E ramMap SortField.healthScore desc).
        by eapply list_elem_of_lookup_2. }
      exfalso.
      assert (Ha' : a ∈ sorted) by by apply array_sort_elem_of.
      apply list_elem_of_lookup in Ha' as [j Hj].
      pose proof (healthScore_higher E ramMap a b Hgt) as Hlt.
      destruct (decide (j < i)%nat) as [Hji|Hji]; [by destruct (Hmin j a Hj Hji)|].
      destruct (decide (j = i)) as [->|Hne].
      { assert (a = b) as -> by congruence.
        rewrite (tied_refl _ _ (consistentOn_down _ _ _
                   (compareNodes_desc E ramMap SortField.healthScore)
                   (healthScore_consistent E ramMap)) b I) in Hlt. done. }
      assert (Hsorted : StronglySorted
        (notGreater (compareNodes E ramMap SortField.healthScore desc)) sorted).
      { apply (array_sort_sorted _ (λ _, True)).
        - apply (consistentOn_down _ _ _
                   (compareNodes_desc E ramMap SortField.healthScore)
                   (healthScore_consistent E ramMap)).
        - by apply Forall_true. }
      assert (Hle : notGreater (compareNodes E ramMap SortField.healthScore desc) b a).
      { eapply (StronglySorted_lookup _ sorted i j); eauto. lia. }
      unfold notGreater in Hle.
      rewrite (sign_antisym (consistentOn_down _ _ _
                 (compareNodes_desc E ramMap SortField.healthScore)
                 (healthScore_consistent E ramMap)) a b I I), Hlt in Hle.
      done. }
    assert (Hded : firstWithKey "abc" (dedupe sorted) = Some a).
    { unfold dedupe. rewrite dedupe_from_first.
      destruct (decide ("abc"%string ∈ (∅ : gset string))); [set_solver|done]. }
    split_and!; [done..|].
    intros Hbd.
    pose proof (dedupe_from_NoDup ∅ sorted) as Hnd. fold (dedupe sorted) in Hnd.
    apply firstWithKey_Some in Hded as (i & Hi & _ & _).
    apply list_elem_of_lookup in Hbd as [j Hj].
    assert (i = j) as ->.
    { eapply (NoDup_lookup _ i j "abc"%string Hnd);
        rewrite list_lookup_fmap; [rewrite Hi|rewrite Hj]; simpl; congruence. }
    assert (a = b) as -> by congruence.
    pose proof (healthScore_higher E ramMap b b Hgt) as Hlt.
    rewrite (tied_refl _ _ (consistentOn_down _ _ _
               (compareNodes_desc E ramMap SortField.healthScore)
               (healthScore_consistent E ramMap)) b I) in Hlt. done.
Qed.

Lemma dedupe_keeps_first_witness :
  firstWithKey "abc"
    (array_sort (compareNodes Demo.engine ∅ SortField.healthScore desc) Demo.duplicates)
  = Some Demo.abcHigh
  ∧ firstWithKey "abc"
      (dedupe (array_sort (compareNodes Demo.engine ∅ SortField.healthScore desc)
                 Demo.duplicates))
    = Some Demo.abcHigh
  ∧ Demo.abcLow ∉
      dedupe (array_sort (compareNodes Demo.engine ∅ SortField.healthScore desc)
                Demo.duplicates).
Proof.
  apply (proj2 (proj2 (proj2 (proj2 (dedupe_keeps_first Demo.duplicates))))
           Demo.engine ∅ Demo.abcHigh Demo.abcLow).
  - do 2 apply list_elem_of_further. apply list_elem_of_here.
  - apply list_elem_of_here.
  - reflexivity.
  - reflexivity.
  - intros n Hn Hk. unfold Demo.duplicates in Hn.
    apply elem_of_cons in Hn as [->|Hn]; [by right|].
    apply elem_of_cons in Hn as [->|Hn]; [discriminate Hk|].
    apply elem_of_cons in Hn as [->|Hn]; [by left|].
    by apply elem_of_nil in Hn.
  - vm_compute. reflexivity.
Defined.

(** ** Pagination *)

Lemma totalPages_div {A : Type} (l : list A) :
  totalPages l = (Z.of_nat (length l) + 19) / 20.
Proof.
  unfold totalPages, itemsPerPage, Qceiling, Qfloor. simpl.
  rewrite Z.mul_1_r. generalize (Z.of_nat (length l)). intros n.
  Z.to_euclidean_division_equations. lia.
Qed.

Lemma paginatedNodes_length {A : Type} (l : list A) (p : Z) :
  (length (paginatedNodes l p) ≤ 20)%nat.
Proof.
  unfold paginatedNodes, slice, itemsPerPage. rewrite length_take.
  destruct (Z.ltb_spec ((p - 1) * 20) 0), (Z.ltb_spec ((p - 1) * 20 + 20) 0); lia.
Qed.

(** From page one on, a page is the next twenty elements. *)
Lemma paginatedNodes_chunk {A : Type} (l : list A) (i : nat) :
  paginatedNodes l (Z.of_nat (S i)) = take 20 (drop (20 * i) l).
Proof.
  unfold paginatedNodes, slice, itemsPerPage.
  destruct (Z.ltb_spec ((Z.of_nat (S i) - 1) * 20) 0) as [Hneg|_]; [lia|].
  destruct (Z.ltb_spec ((Z.of_nat (S i) - 1) * 20 + 20) 0) as [Hneg|_]; [lia|].
  destruct (decide (length l ≤ 20 * i)%nat) as [Hge|Hlt].
  - rewrite (drop_ge l (20 * i)) by done.
    rewrite drop_ge by lia. by rewrite !take_nil.
  - replace (Z.to_nat (Z.min ((Z.of_nat (S i) - 1) * 20) (Z.of_nat (length l))))
      with (20 * i)%nat by lia.
    destruct (decide (length l - 20 * i ≤ 20)%nat) as [Hshort|Hlong].
    + rewrite !take_ge; [done|rewrite length_drop; lia..].
    + f_equal. lia.
Qed.

Lemma chunks_concat {A : Type} (n : nat) (l : list A) :
  (length l ≤ 20 * n)%nat →
  concat ((λ i, take 20 (drop (20 * i) l)) <$> seq 0 n) = l.
Proof.
  revert l. induction n as [|n IH]; intros l Hlen.
  - destruct l; [done|simpl in Hlen; lia].
  - cbn [seq fmap list_fmap concat]. rewrite <- fmap_S_seq, <- list_fmap_compose.
    transitivity (take 20 l ++ drop 20 l); [|apply take_drop].
    f_equal.
    etransitivity; [|apply (IH (drop 20 l)); rewrite length_drop; lia].
    f_equal. apply list_fmap_ext. intros _ i _. simpl.
    rewrite drop_drop. do 2 f_equal. lia.
Qed.

Lemma pages_concat {A : Type} (l : list A) :
  concat (paginatedNodes l <$> pageNumbers l) = l.
Proof.
  unfold pageNumbers. rewrite <- list_fmap_compose.
  rewrite <- (fmap_S_seq 0), <- list_fmap_compose.
  etransitivity; [|apply (chunks_concat (Z.to_nat (totalPages l)) l)].
  - f_equal. apply list_fmap_ext. intros _ i _. simpl. apply paginatedNodes_chunk.
  - rewrite totalPages_div. generalize (length l). intros n.
    Z.to_euclidean_division_equations. lia.
Qed.

(** C2. For the de-duplicated collection of any list of records and any page
    number, the page has at most twenty items; the number of pages is the
    length divided by twenty and rounded up, zero for the empty collection;
    the pages [1 .. totalPages] put one after the other are the collection
    itself; and twenty-five records with pairwise different keys give two
    pages, of twenty and of five items. *)
Theorem paginate_pages (l : list PNode.t) :
  (∀ p, (length (paginatedNodes (dedupe l) p) ≤ Z.to_nat itemsPerPage)%nat)
  ∧ totalPages (dedupe l) = (Z.of_nat (length (dedupe l)) + 19) / 20
  ∧ itemsPerPage * (totalPages (dedupe l) - 1) < Z.of_nat (length (dedupe l))
      <= itemsPerPage * totalPages (dedupe l)
  ∧ (dedupe l = [] → totalPages (dedupe l) = 0)
  ∧ concat (paginatedNodes (dedupe l) <$> pageNumbers (dedupe l)) = dedupe l
  ∧ (NoDup (PNode.pubkey <$> l) → length l = 25%nat →
     dedupe l = l
     ∧ totalPages (dedupe l) = 2
     ∧ length (paginatedNodes (dedupe l) 1) = 20%nat
     ∧ length (paginatedNodes (dedupe l) 2) = 5%nat).
Proof.
  split_and!.
  - intros p. apply paginatedNodes_length.
  - apply totalPages_div.
  - rewrite totalPages_div. unfold itemsPerPage.
    generalize (Z.of_nat (length (dedupe l))). intros n.
    Z.to_euclidean_division_equations. lia.
  - rewrite totalPages_div. unfold itemsPerPage.
    generalize (Z.of_nat (length (dedupe l))). intros n.
    Z.to_euclidean_division_equations. lia.
  - intros ->. reflexivity.
  - apply pages_concat.
  - intros Hnd Hlen.
    assert (Hid : dedupe l = l).
    { apply dedupe_NoDup_id; [done|]. intros n _. apply not_elem_of_empty. }
    rewrite Hid. split_and!; [done| | |].
    + rewrite totalPages_div, Hlen. reflexivity.
    + change 1 with (Z.of_nat 1). rewrite paginatedNodes_chunk.
      rewrite length_take, length_drop. lia.
    + change 2 with (Z.of_nat 2). rewrite paginatedNodes_chunk.
      rewrite length_take, length_drop. lia.
Qed.

Lemma paginate_pages_witness :
  dedupe Demo.fleet = Demo.fleet
  ∧ totalPages (dedupe Demo.fleet) = 2
  ∧ length (paginatedNodes (dedupe Demo.fleet) 1) = 20%nat
  ∧ length (paginatedNodes (dedupe Demo.fleet) 2) = 5%nat.
Proof.
  apply (proj2 (proj2 (proj2 (proj2 (proj2 (paginate_pages Demo.fleet)))))).
  - refine (bool_decide_unpack _ _). vm_compute. exact I.
  - reflexivity.
Defined.

(** ** Stability of the sort of the table *)

(** A sample list whose keys can all be compared. *)
Lemma duplicates_comparable (f : SortField.t) :
  Forall (keyComparable Demo.engine f) Demo.duplicates.
Proof.
  repeat first [apply List.Forall_nil | apply List.Forall_cons];
    (split_and!; intros _; vm_compute; [discriminate|reflexivity..]).
Qed.

(** C3, as the code has it. When every key of the list can be compared and
    the collation is consistent, the sort is stable, for every sort field
    and direction.  The records are paired with their input positions, the
    comparator of the table reading the record only, so that sorting the
    pairs sorts the records.  The result is sorted, two records that the
    comparator does not order stand in it in the order of their input
    positions, and it is the only arrangement of the input that is sorted
    and stable, whatever sort computes it. *)
Theorem sort_stable (E : Engine) (ramMap : gmap string RamData)
    (f : SortField.t) (d : SortDirection) (l : list PNode.t) :
  collationConsistent E → Forall (keyComparable E f) l →
  (array_sort (onFst (compareNodes E ramMap f d)) (indexed l)).*1
  = array_sort (compareNodes E ramMap f d) l
  ∧ stableSorted (compareNodes E ramMap f d)
      (array_sort (onFst (compareNodes E ramMap f d)) (indexed l))
  ∧ (∀ (i j : nat) (a b : PNode.t),
      l !! i = Some a → l !! j = Some b → (i < j)%nat →
      tied (compareNodes E ramMap f d) a b →
      ∃ p q,
        array_sort (onFst (compareNodes E ramMap f d)) (indexed l) !! p = Some (a, i)
        ∧ array_sort (onFst (compareNodes E ramMap f d)) (indexed l) !! q = Some (b, j)
        ∧ (p < q)%nat)
  ∧ (∀ out, out ≡ₚ indexed l → stableSorted (compareNodes E ramMap f d) out →
       out = array_sort (onFst (compareNodes E ramMap f d)) (indexed l)).
Proof.
  intros HE HP.
  assert (consistentOn (compareNodes E ramMap f d) (keyComparable E f)) as Hc.
  { destruct d; [by apply compareNodes_consistent|].
    apply (consistentOn_down (compareNodes E ramMap f asc)).
    - apply compareNodes_desc.
    - by apply compareNodes_consistent. }
  split_and!.
  - unfold onFst. rewrite (array_sort_map (compareNodes E ramMap f d) fst).
    unfold indexed. by rewrite indexed_from_fst.
  - by apply (array_sort_stableSorted _ (keyComparable E f)).
  - intros i j a b Hi Hj Hij Htied.
    apply array_sort_keeps_order; [done..|].
    unfold sortGt. unfold tied, signOf in Htied. by rewrite Htied.
  - intros out Hperm Hout.
    by apply (array_sort_canonical _ (keyComparable E f)).
Qed.

Lemma sort_stable_witness :
  ∃ p q,
    array_sort (onFst (compareNodes Demo.engine ∅ SortField.status desc))
      (indexed Demo.duplicates) !! p = Some (Demo.abcLow, 0%nat)
    ∧ array_sort (onFst (compareNodes Demo.engine ∅ SortField.status desc))
        (indexed Demo.duplicates) !! q = Some (Demo.abcHigh, 2%nat)
    ∧ (p < q)%nat.
Proof.
  apply (proj1 (proj2 (proj2 (sort_stable Demo.engine ∅ SortField.status desc
                                 Demo.duplicates demo_collation
                                 (duplicates_comparable SortField.status))))
           0%nat 2%nat Demo.abcLow Demo.abcHigh).
  - reflexivity.
  - reflexivity.
  - lia.
  - vm_compute. reflexivity.
Defined.

(** C3, as stated, fails when a key cannot be compared.  Of four records
    seen at 23:58, at 23:55, at no time that parses and at 23:50, sorted by
    [lastSeen], the third and the fourth are not ordered by the comparator,
    which returns [NaN] for them; the sort of V8 returns the fourth before
    the third.  The same happens under the [tier] field to records of the
    tiers "Poor", "Good", "constructor" and "Excellent". *)
Lemma sort_stable_counterexample :
  Sample.fourDates !! 2%nat = Some Sample.seenNever
  ∧ Sample.fourDates !! 3%nat = Some Sample.seen2350
  ∧ tied (compareNodes Demo.engine ∅ SortField.lastSeen asc)
      Sample.seenNever Sample.seen2350
  ∧ v8_sort (compareNodes Demo.engine ∅ SortField.lastSeen asc) Sample.fourDates
    = [Sample.seen2350; Sample.seen2355; Sample.seen2358; Sample.seenNever]
  ∧ Sample.fourTiers !! 2%nat = Some Sample.inheritedTier
  ∧ Sample.fourTiers !! 3%nat = Some Sample.excellent
  ∧ tied (compareNodes Demo.engine ∅ SortField.tier asc)
      Sample.inheritedTier Sample.excellent
  ∧ v8_sort (compareNodes Demo.engine ∅ SortField.tier asc) Sample.fourTiers
    = [Sample.excellent; Sample.good; Sample.poor; Sample.inheritedTier].
Proof. split_and!; vm_compute; reflexivity. Qed.

(** ** Descending against ascending *)

Lemma unparsable_tied (E : Engine) (ramMap : gmap string RamData) (a b : PNode.t) :
  unparsable E a ∨ unparsable E b →
  comparison E ramMap SortField.lastSeen a b = NaN.
Proof.
  unfold unparsable. simpl. unfold lastSeenTry. simpl.
  intros [-> | ->]; [done|].
  by destruct (lastSeenTime E (PNode.lastSeen a)).
Qed.

Lemma inheritedName_status (s : string) :
  inheritedName s = true → memberOr (statusOrder s) 2 = NaN.
Proof.
  intros Hs. unfold statusOrder.
  destruct (String.eqb_spec s "online") as [->|_]; [done|].
  destruct (String.eqb_spec s "offline") as [->|_]; [done|].
  by rewrite Hs.
Qed.

Lemma inheritedName_tier (s : string) :
  inheritedName s = true → memberOr (tierOrder s) 3 = NaN.
Proof.
  intros Hs. unfold tierOrder.
  destruct (String.eqb_spec s "Excellent") as [->|_]; [done|].
  destruct (String.eqb_spec s "Good") as [->|_]; [done|].
  destruct (String.eqb_spec s "Poor") as [->|_]; [done|].
  by rewrite Hs.
Qed.

(** A record whose key cannot be compared is tied with every record. *)
Lemma incomparable_tied (E : Engine) (ramMap : gmap string RamData)
    (f : SortField.t) (a b : PNode.t) :
  ¬ keyComparable E f a → tied (compareNodes E ramMap f asc) a b.
Proof.
  intros Hnot. unfold tied, signOf, compareNodes.
  destruct (decide (f = SortField.lastSeen)) as [->|Hseen].
  { destruct (lastSeenTime E (PNode.lastSeen a)) eqn:Ha;
      try (destruct Hnot; split_and!; [intros _; unfold unparsable; congruence|done..]).
    rewrite unparsable_tied; [done|by left]. }
  destruct (decide (f = SortField.status)) as [->|Hstatus].
  { destruct (inheritedName (PNode.status a)) eqn:Ha;
      [|destruct Hnot; by split_and!].
    simpl. by rewrite (inheritedName_status _ Ha). }
  destruct (decide (f = SortField.tier)) as [->|Htier].
  { destruct (inheritedName (optStrOr (PNode.tier a) "")) eqn:Ha;
      [|destruct Hnot; by split_and!].
    simpl. by rewrite (inheritedName_tier _ Ha). }
  destruct Hnot. by split_and!.
Qed.

Lemma keyComparable_dec (E : Engine) (f : SortField.t) (a : PNode.t) :
  keyComparable E f a ∨ ¬ keyComparable E f a.
Proof.
  unfold keyComparable, unparsable.
  destruct (decide (f = SortField.lastSeen)) as [->|Hseen].
  { destruct (lastSeenTime E (PNode.lastSeen a)) eqn:Ha;
      try (left; split_and!; [intros _; congruence|done..]).
    right. intros (H & _). by apply H. }
  destruct (decide (f = SortField.status)) as [->|Hstatus].
  { destruct (inheritedName (PNode.status a)) eqn:Ha.
    - right. intros (_ & H & _). by specialize (H eq_refl).
    - left. by split_and!. }
  destruct (decide (f = SortField.tier)) as [->|Htier].
  { destruct (inheritedName (optStrOr (PNode.tier a) "")) eqn:Ha.
    - right. intros (_ & _ & H). by specialize (H eq_refl).
    - left. by split_and!. }
  left. by split_and!.
Qed.

Lemma noTies_comparable (E : Engine) (ramMap : gmap string RamData)
    (f : SortField.t) (l : list PNode.t) :
  noTies (compareNodes E ramMap f asc) l → (2 ≤ length l)%nat →
  Forall (keyComparable E f) l.
Proof.
  intros Hno Hlen. rewrite Forall_forall. intros a Ha.
  destruct (keyComparable_dec E f a) as [Hyes|Hnot]; [done|exfalso].
  apply list_elem_of_lookup in Ha as [i Hi].
  assert (∃ j b, l !! j = Some b ∧ i ≠ j) as (j & b & Hj & Hne).
  { destruct i as [|i].
    - destruct (lookup_lt_is_Some_2 l 1) as [b Hb]; [lia|]. by exists 1%nat, b.
    - destruct (lookup_lt_is_Some_2 l 0) as [b Hb]; [lia|]. by exists 0%nat, b. }
  apply (Hno i j a b Hi Hj Hne). by apply incomparable_tied.
Qed.

(** C4, as the code has it. With a consistent collation: when the comparator
    of a sort field yields no ties on a list, the descending result is the
    exact reverse of the ascending result; and when every key of the list
    can be compared (under the [lastSeen] field: every [lastSeen] denotes a
    time; under the [status] and [tier] fields: no value is the name of an
    inherited member), the descending result and the reversed ascending
    result hold tied records at every position, so they differ in the order
    of tied records only. *)
Theorem desc_reverses_asc (E : Engine) (ramMap : gmap string RamData)
    (f : SortField.t) (l : list PNode.t) :
  collationConsistent E →
  (noTies (compareNodes E ramMap f asc) l →
   array_sort (compareNodes E ramMap f desc) l
   = reverse (array_sort (compareNodes E ramMap f asc) l))
  ∧ (Forall (keyComparable E f) l →
     Forall2 (tied (compareNodes E ramMap f asc))
       (array_sort (compareNodes E ramMap f desc) l)
       (reverse (array_sort (compareNodes E ramMap f asc) l))).
Proof.
  intros HE.
  assert (Htied : Forall (keyComparable E f) l →
    Forall2 (tied (compareNodes E ramMap f asc))
      (array_sort (compareNodes E ramMap f desc) l)
      (reverse (array_sort (compareNodes E ramMap f asc) l))).
  { apply descending_reverse_tied.
    - apply compareNodes_desc.
    - by apply compareNodes_consistent. }
  split; [|done].
  intros Hno.
  destruct (decide (2 ≤ length l)%nat) as [Hlen|Hlen].
  - apply (noTies_tied_eq (compareNodes E ramMap f asc) l); [done| | |].
    + apply array_sort_perm.
    + by rewrite reverse_Permutation, array_sort_perm.
    + apply Htied. by eapply noTies_comparable.
  - destruct l as [|x [|y l]]; [done|done|simpl in Hlen; lia].
Qed.

Lemma desc_reverses_asc_witness :
  array_sort (compareNodes Demo.engine ∅ SortField.healthScore desc) Demo.duplicates
  = reverse (array_sort (compareNodes Demo.engine ∅ SortField.healthScore asc)
               Demo.duplicates).
Proof.
  apply (proj1 (desc_reverses_asc Demo.engine ∅ SortField.healthScore
                  Demo.duplicates demo_collation)).
  intros i j a b Hi Hj Hne.
  destruct i as [|[|[|i]]]; destruct j as [|[|[|j]]]; try done;
    simpl in Hi, Hj; injection Hi as <-; injection Hj as <-;
    vm_compute; discriminate.
Defined.

(** C4, as stated, fails on records whose key cannot be compared.  Of
    three records seen two minutes ago, at an unparsable time and ten
    minutes ago, both directions leave the array as it is, in the sort of
    V8 too, so the descending result is not the reverse of the ascending
    one although the first and the last record are not tied.  The same
    happens under the [tier] field to records of the tiers "Poor",
    "constructor" and "Excellent". *)
Lemma desc_reverses_asc_counterexample :
  array_sort (compareNodes Demo.engine ∅ SortField.lastSeen asc) Demo.mixedDates
  = Demo.mixedDates
  ∧ array_sort (compareNodes Demo.engine ∅ SortField.lastSeen desc) Demo.mixedDates
    = Demo.mixedDates
  ∧ ¬ Forall2 (tied (compareNodes Demo.engine ∅ SortField.lastSeen asc))
        (array_sort (compareNodes Demo.engine ∅ SortField.lastSeen desc) Demo.mixedDates)
        (reverse (array_sort (compareNodes Demo.engine ∅ SortField.lastSeen asc)
                    Demo.mixedDates))
  ∧ v8_sort (compareNodes Demo.engine ∅ SortField.lastSeen asc) Demo.mixedDates
    = Demo.mixedDates
  ∧ v8_sort (compareNodes Demo.engine ∅ SortField.lastSeen desc) Demo.mixedDates
    = Demo.mixedDates
  ∧ array_sort (compareNodes Demo.engine ∅ SortField.tier asc) Sample.mixedTiers
    = Sample.mixedTiers
  ∧ array_sort (compareNodes Demo.engine ∅ SortField.tier desc) Sample.mixedTiers
    = Sample.mixedTiers
  ∧ v8_sort (compareNodes Demo.engine ∅ SortField.tier asc) Sample.mixedTiers
    = Sample.mixedTiers
  ∧ v8_sort (compareNodes Demo.engine ∅ SortField.tier desc) Sample.mixedTiers
    = Sample.mixedTiers
  ∧ ¬ Forall2 (tied (compareNodes Demo.engine ∅ SortField.tier asc))
        (array_sort (compareNodes Demo.engine ∅ SortField.tier desc) Sample.mixedTiers)
        (reverse (array_sort (compareNodes Demo.engine ∅ SortField.tier asc)
                    Sample.mixedTiers)).
Proof.
  assert (Hasc : array_sort (compareNodes Demo.engine ∅ SortField.lastSeen asc)
                   Demo.mixedDates = Demo.mixedDates) by (vm_compute; reflexivity).
  assert (Hdesc : array_sort (compareNodes Demo.engine ∅ SortField.lastSeen desc)
                    Demo.mixedDates = Demo.mixedDates) by (vm_compute; reflexivity).
  assert (Tasc : array_sort (compareNodes Demo.engine ∅ SortField.tier asc)
                   Sample.mixedTiers = Sample.mixedTiers) by (vm_compute; reflexivity).
  assert (Tdesc : array_sort (compareNodes Demo.engine ∅ SortField.tier desc)
                    Sample.mixedTiers = Sample.mixedTiers) by (vm_compute; reflexivity).
  split_and!; try done; try (vm_compute; reflexivity).
  - rewrite Hasc, Hdesc. intros H.
    apply Forall2_cons_1 in H as [H _]. vm_compute in H. discriminate H.
  - rewrite Tasc, Tdesc. intros H.
    apply Forall2_cons_1 in H as [H _]. vm_compute in H. discriminate H.
Qed.

(** ** Keys of the storage columns *)

Lemma ratioOf_zero (u t : Q) : (t == 0)%Q → ratioOf u t = 0%Q.
Proof.
  intros Ht. unfold ratioOf. destruct (jsgt (Fin t) (Fin 0)) eqn:H; [|done].
  apply jsgt_pos in H. lra.
Qed.

Lemma percentOf_zero (u t : Q) : (t == 0)%Q → percentOf u t = 0%Q.
Proof.
  intros Ht. unfold percentOf. destruct (jsgt (Fin t) (Fin 0)) eqn:H; [|done].
  apply jsgt_pos in H. lra.
Qed.

(** C5, as the code has it. Under the [storageUsed] field the comparison is
    the difference of the utilisation ratios [storageUsed / storageTotal],
    the ratio being [0] when [storageTotal] is not positive; a record with
    [storageTotal = 0] has the key [0], a number that is neither [NaN] nor
    an infinity, and two such records compare as [0].  Under the
    [storageUtilization] field the key is the explicit figure when the
    record carries one; otherwise it is the ratio times 100, which is [0]
    for a record with [storageTotal = 0], and two such records compare as
    [0] there too. *)
Theorem storage_sort_keys (E : Engine) (ramMap : gmap string RamData) (a b : PNode.t) :
  comparison E ramMap SortField.storageUsed a b
    = jssub (storageUsedUtil a) (storageUsedUtil b)
  ∧ ((0 < PNode.storageTotal a)%Q →
     storageUsedUtil a = Fin (PNode.storageUsed a / PNode.storageTotal a)%Q)
  ∧ ((PNode.storageTotal a <= 0)%Q → storageUsedUtil a = Fin 0)
  ∧ ((PNode.storageTotal a == 0)%Q →
     storageUsedUtil a = Fin 0 ∧ isFinite (storageUsedUtil a) = true)
  ∧ ((PNode.storageTotal a == 0)%Q → (PNode.storageTotal b == 0)%Q →
     comparison E ramMap SortField.storageUsed a b = Fin 0)
  ∧ comparison E ramMap SortField.storageUtilization a b
    = jssub (storageUtilizationUtil a) (storageUtilizationUtil b)
  ∧ (∀ q, PNode.storageUtilization a = Some q → storageUtilizationUtil a = Fin q)
  ∧ ((PNode.storageTotal a == 0)%Q → PNode.storageUtilization a = None →
     storageUtilizationUtil a = Fin 0 ∧ isFinite (storageUtilizationUtil a) = true)
  ∧ ((PNode.storageTotal a == 0)%Q → PNode.storageUtilization a = None →
     (PNode.storageTotal b == 0)%Q → PNode.storageUtilization b = None →
     comparison E ramMap SortField.storageUtilization a b = Fin 0).
Proof.
  assert (∀ n, (PNode.storageTotal n == 0)%Q → storageUsedUtil n = Fin 0) as Hused.
  { intros n Ht. by rewrite storageUsedUtil_ratio, ratioOf_zero. }
  assert (∀ n, (PNode.storageTotal n == 0)%Q → PNode.storageUtilization n = None →
               storageUtilizationUtil n = Fin 0) as Hutil.
  { intros n Ht Hnone. by rewrite storageUtilizationUtil_key, Hnone, percentOf_zero. }
  split_and!.
  - reflexivity.
  - intros Ht%jsgt_pos. unfold storageUsedUtil. rewrite Ht. by apply jsdiv_pos.
  - intros Ht. rewrite storageUsedUtil_ratio. unfold ratioOf.
    destruct (jsgt (Fin (PNode.storageTotal a)) (Fin 0)) eqn:H; [|done].
    apply jsgt_pos in H. lra.
  - intros Ht. by rewrite (Hused a Ht).
  - intros Ha Hb. simpl. by rewrite (Hused a Ha), (Hused b Hb).
  - reflexivity.
  - intros q Hq. by rewrite storageUtilizationUtil_key, Hq.
  - intros Ht Hnone. by rewrite (Hutil a Ht Hnone).
  - intros Ha Hna Hb Hnb. simpl. by rewrite (Hutil a Ha Hna), (Hutil b Hb Hnb).
Qed.

Lemma storage_sort_keys_witness :
  storageUsedUtil (Demo.storageNode 5%Q 0%Q None) = Fin 0
  ∧ storageUtilizationUtil (Demo.storageNode 5%Q 0%Q None) = Fin 0
  ∧ storageUsedUtil (Demo.storageNode 5%Q 10%Q None) = Fin (5 / 10)%Q
  ∧ comparison Demo.engine ∅ SortField.storageUsed
      (Demo.storageNode 5%Q 0%Q None) (Demo.storageNode 7%Q 0%Q None) = Fin 0.
Proof.
  pose proof (storage_sort_keys Demo.engine ∅ (Demo.storageNode 5%Q 0%Q None)
                (Demo.storageNode 7%Q 0%Q None))
    as (_ & _ & _ & Hzero & Hcmp & _ & _ & Hutil & _).
  pose proof (storage_sort_keys Demo.engine ∅ (Demo.storageNode 5%Q 10%Q None)
                (Demo.storageNode 5%Q 0%Q None))
    as (_ & Hratio & _).
  split_and!.
  - apply Hzero. reflexivity.
  - apply Hutil; reflexivity.
  - apply Hratio. reflexivity.
  - apply Hcmp; reflexivity.
Defined.

(** C5, as stated, fails under the [storageUtilization] field: a record with
    [storageTotal = 0] that carries the explicit figure 50 sorts with key
    50, not 0. *)
Lemma storage_sort_keys_counterexample :
  (PNode.storageTotal Demo.noCapacity == 0)%Q
  ∧ storageUtilizationUtil Demo.noCapacity = Fin 50
  ∧ sortSign (comparison Demo.engine ∅ SortField.storageUtilization
                Demo.noCapacity (Demo.storageNode 5%Q 0%Q None)) = Gt.
Proof. split_and!; [reflexivity|reflexivity|vm_compute; reflexivity]. Qed.

(** ** Unparsable dates *)

(** When at least one of two records has an unparsable [lastSeen], the
    [try] block of the comparator ends normally (nothing is raised, the
    [catch] branch is not taken) with the value [NaN]; the comparator
    returns [NaN] in both directions, which the sort reads as zero. *)
Lemma lastSeen_unparsable_neutral (E : Engine) (ramMap : gmap string RamData)
    (d : SortDirection) (a b : PNode.t) :
  unparsable E a ∨ unparsable E b →
  lastSeenTry E a b = Normal NaN
  ∧ compareNodes E ramMap SortField.lastSeen d a b = NaN
  ∧ tied (compareNodes E ramMap SortField.lastSeen d) a b.
Proof.
  intros Hun.
  assert (Hcmp : comparison E ramMap SortField.lastSeen a b = NaN)
    by by apply unparsable_tied.
  assert (Hd : compareNodes E ramMap SortField.lastSeen d a b = NaN).
  { unfold compareNodes. rewrite Hcmp. by destruct d. }
  split_and!.
  - unfold lastSeenTry. f_equal. exact Hcmp.
  - exact Hd.
  - unfold tied, signOf. by rewrite Hd.
Qed.


(** ** The health-score cell *)

(** C7 at the failing input: a record whose health score is present and
    equal to zero is shown as ["N/A"], exactly like a record without a
    health score, although [toFixed] would print ["0.0"]; the storage
    utilisation cell, which tests for [undefined], prints a zero. *)
Theorem healthScore_zero_cell (E : Engine) :
  healthScoreCell E Demo.zeroHealth = "N/A"%string
  ∧ healthScoreCell E (Demo.node "z" None "2024-01-01T00:00:00Z") = "N/A"%string
  ∧ toFixed E 0%Q 1 = "0.0"%string
  ∧ storageUtilizationCell E (Demo.storageNode 0%Q 10%Q (Some 0%Q)) = Some "0.0%"%string
  ∧ numOr0 (PNode.healthScore Demo.zeroHealth) = Fin 0.
Proof. split_and!; reflexivity. Qed.

(** ** The "recent" flag of a marker *)

Lemma jsgt_times (t now : Z) :
  jsgt (ofZ t) (jssub (ofZ now) (jsmul (jsmul (Fin 5) (Fin 60)) (Fin 1000))) = true
  ↔ now - 300000 < t.
Proof.
  unfold ofZ. cbn [jsmul jssub jsgt].
  rewrite negb_true_iff, <- not_true_iff_false, Qle_bool_iff.
  unfold Qle. simpl. lia.
Qed.

(** C8, as the code has it. A map node is flagged "recent" at an evaluation
    time exactly when its status is online and its [lastSeen] denotes a time
    later than five minutes before the evaluation time; times ahead of the
    evaluation time count as recent, the time exactly five minutes before
    does not.  An online node seen ten minutes before the evaluation time
    is not flagged, one seen two minutes before is. *)
Theorem recent_iff (E : Engine) (now : Z) (node : MapNode.t) :
  (isRecent E now node = true ↔
   MapNode.status node = "online"%string
   ∧ ∃ t, DateParse E (MapNode.lastSeen node) = Some t ∧ now - 5 * 60 * 1000 < t)
  ∧ (MapNode.status node = "online"%string →
     DateParse E (MapNode.lastSeen node) = Some (now - 10 * 60 * 1000) →
     isRecent E now node = false)
  ∧ (MapNode.status node = "online"%string →
     DateParse E (MapNode.lastSeen node) = Some (now - 2 * 60 * 1000) →
     isRecent E now node = true)
  ∧ (pulseClass (createMarkerIcon E now node) = "animate-pulse"%string ↔
     isRecent E now node = true).
Proof.
  assert (Hiff : isRecent E now node = true ↔
    MapNode.status node = "online"%string
    ∧ ∃ t, DateParse E (MapNode.lastSeen node) = Some t ∧ now - 5 * 60 * 1000 < t).
  { unfold isRecent, newDate, getTime.
    rewrite andb_true_iff, String.eqb_eq.
    destruct (DateParse E (MapNode.lastSeen node)) as [t|].
    - rewrite jsgt_times. split.
      + intros [Hs Ht]. split; [done|]. exists t. split; [done|lia].
      + intros [Hs (t' & [= <-] & Ht)]. split; [done|lia].
    - split; [by intros [_ ?]|by intros [_ (? & ? & _)]]. }
  split_and!.
  - exact Hiff.
  - intros Hs Ht. apply not_true_iff_false. rewrite Hiff.
    intros [_ (t & Ht' & Hlt)]. rewrite Ht in Ht'. injection Ht' as <-. lia.
  - intros Hs Ht. apply Hiff. split; [done|]. eexists. split; [done|lia].
  - simpl. by destruct (isRecent E now node).
Qed.

Lemma recent_iff_witness :
  isRecent Demo.engine Demo.now (Demo.mapNode "online" "2023-12-31T23:50:00Z") = false
  ∧ isRecent Demo.engine Demo.now (Demo.mapNode "online" "2023-12-31T23:58:00Z") = true.
Proof.
  split.
  - apply (proj1 (proj2 (recent_iff Demo.engine Demo.now
                           (Demo.mapNode "online" "2023-12-31T23:50:00Z"))));
      reflexivity.
  - apply (proj1 (proj2 (proj2 (recent_iff Demo.engine Demo.now
                                  (Demo.mapNode "online" "2023-12-31T23:58:00Z")))));
      reflexivity.
Defined.

(** C8, as stated, fails for a time ahead of the evaluation time: an online
    node whose [lastSeen] is one hour after the evaluation time does not lie
    within the last five minutes, and is flagged. *)
Lemma recent_iff_counterexample :
  DateParse Demo.engine "2024-01-01T01:00:00Z" = Some (Demo.now + 3600000)
  ∧ ¬ (Demo.now - 300000 <= Demo.now + 3600000 <= Demo.now)
  ∧ isRecent Demo.engine Demo.now (Demo.mapNode "online" "2024-01-01T01:00:00Z") = true.
Proof. split_and!; [reflexivity|unfold Demo.now; lia|reflexivity]. Qed.

(** ** Placement of the popup *)

Lemma isNearFilters_spec (mapSize p : Point) :
  isNearFilters mapSize p = true ↔ inFilterRegion mapSize p.
Proof.
  unfold isNearFilters, inFilterRegion, filterArea. simpl.
  rewrite andb_true_iff, !Z.ltb_lt. done.
Qed.

Lemma isNearLegend_spec (mapSize p : Point) :
  isNearLegend mapSize p = true ↔ inLegendRegion mapSize p.
Proof.
  unfold isNearLegend, inLegendRegion, legendArea. simpl.
  rewrite andb_true_iff, !Z.ltb_lt. done.
Qed.

(** C9, as the code has it. The decision is piecewise over the two fixed
    regions, the filter panel first: a point in the filter-panel rectangle
    gets the left offset; a point in the legend rectangle that is not in
    the filter-panel rectangle gets the right offset; any other point gets
    the offset above the point.  The two rectangles share no point when the
    map is at least 560 wide or at least 600 high. *)
Theorem popup_offset (mapSize p : Point) (maxWidth : option Z) :
  (inFilterRegion mapSize p →
   adjustPopupPosition mapSize p maxWidth = leftOffset maxWidth)
  ∧ (inLegendRegion mapSize p → ¬ inFilterRegion mapSize p →
     adjustPopupPosition mapSize p maxWidth = rightOffset)
  ∧ (¬ inFilterRegion mapSize p → ¬ inLegendRegion mapSize p →
     adjustPopupPosition mapSize p maxWidth = aboveOffset)
  ∧ (560 <= px mapSize ∨ 600 <= py mapSize →
     inLegendRegion mapSize p → ¬ inFilterRegion mapSize p).
Proof.
  unfold adjustPopupPosition. split_and!.
  - intros Hf%isNearFilters_spec. by rewrite Hf.
  - intros Hl%isNearLegend_spec Hf.
    destruct (isNearFilters mapSize p) eqn:Hnf.
    + by apply isNearFilters_spec in Hnf.
    + by rewrite Hl.
  - intros Hf Hl.
    destruct (isNearFilters mapSize p) eqn:Hnf.
    + by apply isNearFilters_spec in Hnf.
    + destruct (isNearLegend mapSize p) eqn:Hnl; [|done].
      by apply isNearLegend_spec in Hnl.
  - unfold inLegendRegion, inFilterRegion. lia.
Qed.

Lemma popup_offset_witness :
  adjustPopupPosition (L_point 1200 800) (L_point 1100 100) None = leftOffset None
  ∧ adjustPopupPosition (L_point 1200 800) (L_point 100 700) None = rightOffset
  ∧ adjustPopupPosition (L_point 1200 800) (L_point 600 400) None = aboveOffset.
Proof.
  split_and!.
  - apply (proj1 (popup_offset (L_point 1200 800) (L_point 1100 100) None)).
    unfold inFilterRegion. simpl. lia.
  - apply (proj1 (proj2 (popup_offset (L_point 1200 800) (L_point 100 700) None)));
      unfold inLegendRegion, inFilterRegion; simpl; lia.
  - apply (proj1 (proj2 (proj2 (popup_offset (L_point 1200 800) (L_point 600 400) None))));
      unfold inLegendRegion, inFilterRegion; simpl; lia.
Defined.

(** C9, as stated, fails where the two rectangles overlap: on a map of 400
    by 400 the point (200, 200) lies in the legend rectangle, and in the
    filter-panel rectangle too, and gets the left offset, not the right
    one. *)
Lemma popup_offset_counterexample :
  inLegendRegion Demo.smallMap Demo.centre
  ∧ adjustPopupPosition Demo.smallMap Demo.centre None = L_point (-330) (-10)
  ∧ adjustPopupPosition Demo.smallMap Demo.centre None ≠ rightOffset.
Proof.
  split_and!; [unfold inLegendRegion; simpl; lia|reflexivity|discriminate].
Qed.

(** ** The input array is left as it was *)

Lemma spread_fresh (h0 : heap) (pnodes : ref) (l : list PNode.t) :
  h0 !! pnodes = Some l → ownsFresh h0 (spread pnodes h0) l.
Proof.
  intros Hl. unfold spread, bind, deref, alloc, ownsFresh. rewrite Hl. simpl.
  split_and!.
  - by rewrite lookup_app_r, Nat.sub_diag.
  - done.
  - by rewrite take_app_length.
Qed.

Lemma filter_fresh (h0 : heap) (rh : ref * heap) (v : list PNode.t)
    (skip : bool) (f : PNode.t → bool) :
  ownsFresh h0 rh v →
  ownsFresh h0 ((if skip then ret rh.1 else Array_filter f rh.1) rh.2)
    (if skip then v else List.filter f v).
Proof.
  destruct rh as [r h]. intros (Hr & Hle & Hold). simpl in *.
  destruct skip; [done|].
  unfold Array_filter, bind, deref, alloc, ownsFresh. rewrite Hr. simpl.
  assert (Hlen : (length h0 ≤ length h)%nat).
  { rewrite <- Hold at 1. rewrite length_take. lia. }
  split_and!.
  - by rewrite lookup_app_r, Nat.sub_diag.
  - done.
  - by rewrite take_app_le.
Qed.

Lemma sort_fresh (h0 : heap) (rh : ref * heap) (v : list PNode.t)
    (comparefn : PNode.t → PNode.t → number) :
  ownsFresh h0 rh v →
  ownsFresh h0 (Array_sort comparefn rh.1 rh.2) (array_sort comparefn v).
Proof.
  destruct rh as [r h]. intros (Hr & Hle & Hold). simpl in *.
  unfold Array_sort, bind, deref, assign, ret, ownsFresh. rewrite Hr. simpl.
  split_and!.
  - apply list_lookup_insert_eq. by eapply lookup_lt_Some.
  - done.
  - by rewrite take_insert_ge.
Qed.

Lemma dedupe_fresh (h0 : heap) (rh : ref * heap) (v : list PNode.t) :
  ownsFresh h0 rh v →
  ownsFresh h0 ((do w <- deref rh.1; alloc (dedupe w)) rh.2) (dedupe v).
Proof.
  destruct rh as [r h]. intros (Hr & Hle & Hold). simpl in *.
  unfold bind, deref, alloc, ownsFresh. rewrite Hr. simpl.
  assert (Hlen : (length h0 ≤ length h)%nat).
  { rewrite <- Hold at 1. rewrite length_take. lia. }
  split_and!.
  - by rewrite lookup_app_r, Nat.sub_diag.
  - done.
  - by rewrite take_app_le.
Qed.

Lemma ownsFresh_frame (h0 : heap) (rh : ref * heap) (v : list PNode.t)
    (r0 : ref) (v0 : list PNode.t) :
  ownsFresh h0 rh v → h0 !! r0 = Some v0 → rh.2 !! r0 = Some v0.
Proof.
  intros (_ & _ & Hold) H0. rewrite <- Hold in H0.
  by apply lookup_take_Some in H0 as [? _].
Qed.

Lemma filteredAndSorted_owns (E : Engine) (h : heap) (pnodes : ref)
    (l : list PNode.t) (ramMap : gmap string RamData) (vs : ViewState) :
  h !! pnodes = Some l →
  ownsFresh h (filteredAndSorted E pnodes ramMap vs h) (view E ramMap vs l).
Proof.
  intros Hl. unfold filteredAndSorted, view, applyFilters.
  pose proof (spread_fresh h pnodes l Hl) as H1.
  unfold bind at 1. destruct (spread pnodes h) as [r1 h1].
  pose proof (filter_fresh h (r1, h1) _ (isEmpty (trim E (search vs)))
    (matchesSearch E (trim E (toLowerCase E (search vs)))) H1) as H2.
  simpl in H2. unfold bind at 1.
  destruct ((if isEmpty (trim E (search vs)) then ret r1 else _) h1) as [r2 h2].
  pose proof (filter_fresh h (r2, h2) _ (String.eqb (statusFilter vs) "all")
    (matchesStatus (statusFilter vs)) H2) as H3.
  simpl in H3. unfold bind at 1.
  destruct ((if String.eqb (statusFilter vs) "all" then ret r2 else _) h2) as [r3 h3].
  pose proof (filter_fresh h (r3, h3) _ (String.eqb (tierFilter vs) "all")
    (matchesTier (tierFilter vs)) H3) as H4.
  simpl in H4. unfold bind at 1.
  destruct ((if String.eqb (tierFilter vs) "all" then ret r3 else _) h3) as [r4 h4].
  pose proof (sort_fresh h (r4, h4) _
    (compareNodes E ramMap (sortField vs) (sortDirection vs)) H4) as H5.
  simpl in H5. unfold bind at 1.
  destruct (Array_sort _ r4 h4) as [r5 h5] eqn:Hsort.
  assert (r5 = r4) as ->.
  { unfold Array_sort, bind, deref, assign, ret in Hsort. by injection Hsort. }
  exact (dedupe_fresh h (r4, h5) _ H5).
Qed.

(** C10. Computing the view leaves the caller's array unchanged: when the
    array [pnodes] holds the records [l] before [filteredAndSorted] runs, it
    holds the same records in the same order afterwards; so does every
    other array that existed before; and the array returned is a new one,
    which holds the filtered, sorted and de-duplicated records. *)
Theorem filteredAndSorted_frame (E : Engine) (h : heap) (pnodes : ref)
    (l : list PNode.t) (ramMap : gmap string RamData) (vs : ViewState) :
  h !! pnodes = Some l →
  (filteredAndSorted E pnodes ramMap vs h).2 !! pnodes = Some l
  ∧ (∀ r0 v0, h !! r0 = Some v0 →
       (filteredAndSorted E pnodes ramMap vs h).2 !! r0 = Some v0)
  ∧ (filteredAndSorted E pnodes ramMap vs h).1 ≠ pnodes
  ∧ (filteredAndSorted E pnodes ramMap vs h).2
      !! (filteredAndSorted E pnodes ramMap vs h).1
    = Some (view E ramMap vs l).
Proof.
  intros Hl.
  pose proof (filteredAndSorted_owns E h pnodes l ramMap vs Hl) as Howns.
  split_and!.
  - by eapply ownsFresh_frame.
  - intros r0 v0 H0. by eapply ownsFresh_frame.
  - destruct Howns as (_ & Hle & _).
    apply lookup_lt_Some in Hl. lia.
  - by destruct Howns as (Hr & _).
Qed.

Lemma filteredAndSorted_frame_witness :
  (filteredAndSorted Demo.engine 0%nat (nodeRamData Demo.duplicates) Demo.byHealth
     [Demo.duplicates]).2 !! 0%nat = Some Demo.duplicates
  ∧ (filteredAndSorted Demo.engine 0%nat (nodeRamData Demo.duplicates) Demo.byHealth
       [Demo.duplicates]).2
      !! (filteredAndSorted Demo.engine 0%nat (nodeRamData Demo.duplicates) Demo.byHealth
            [Demo.duplicates]).1
    = Some [Demo.abcHigh; Demo.other].
Proof.
  pose proof (filteredAndSorted_frame Demo.engine [Demo.duplicates] 0%nat
                Demo.duplicates (nodeRamData Demo.duplicates) Demo.byHealth eq_refl)
    as (Hsame & _ & _ & Hview).
  split; [exact Hsame|]. rewrite Hview. vm_compute. reflexivity.
Defined.

(** * Further properties *)

(** * The table: rank, filters, recomputation *)

Lemma findIndex_lookup (l : list PNode.t) (j : nat) (node : PNode.t) :
  NoDup (PNode.pubkey <$> l) → l !! j = Some node →
  findIndex (λ n, String.eqb (PNode.pubkey n) (PNode.pubkey node)) l = Z.of_nat j.
Proof.
  intros Hnd Hj. unfold findIndex.
  assert (list_find (λ x, String.eqb (PNode.pubkey x) (PNode.pubkey node) = true) l
          = Some (j, node)) as ->; [|done].
  apply list_find_Some. split_and!; [done|apply String.eqb_refl|].
  intros i y Hi Hlt Heq. apply String.eqb_eq in Heq.
  assert (i = j); [|lia].
  apply (NoDup_lookup _ i j (PNode.pubkey node) Hnd).
  - by rewrite list_lookup_fmap, Hi, <- Heq.
  - by rewrite list_lookup_fmap, Hj.
Qed.

Lemma view_NoDup (E : Engine) (ramMap : gmap string RamData) (vs : ViewState)
    (l : list PNode.t) :
  NoDup (PNode.pubkey <$> view E ramMap vs l).
Proof. apply dedupe_from_NoDup. Qed.

(** X1. The rank printed in a row is the row's position in the whole view,
    counted from one: on page [p], the row at offset [i] has rank
    [(p - 1) * 20 + i + 1], so the ranks run on from page to page. *)
Theorem globalRank_of_row (E : Engine) (ramMap : gmap string RamData) (vs : ViewState)
    (l : list PNode.t) (p : Z) (i : nat) (node : PNode.t) :
  1 ≤ p →
  paginatedNodes (view E ramMap vs l) p !! i = Some node →
  globalRank (view E ramMap vs l) node = (p - 1) * 20 + Z.of_nat i + 1.
Proof.
  intros Hp Hrow. unfold globalRank.
  replace p with (Z.of_nat (S (Z.to_nat (p - 1)))) in Hrow by lia.
  rewrite paginatedNodes_chunk in Hrow.
  apply lookup_take_Some in Hrow as [Hrow _]. rewrite lookup_drop in Hrow.
  rewrite (findIndex_lookup _ _ _ (view_NoDup E ramMap vs l) Hrow). lia.
Qed.

Lemma globalRank_of_row_witness :
  paginatedNodes (view Demo.engine ∅ Demo.byHealth Demo.fleet) 2 !! 3%nat
  = Some (Demo.node "1" (Some 1%Q) "2024-01-01T00:00:00Z")
  ∧ globalRank (view Demo.engine ∅ Demo.byHealth Demo.fleet)
      (Demo.node "1" (Some 1%Q) "2024-01-01T00:00:00Z") = 24.
Proof.
  assert (paginatedNodes (view Demo.engine ∅ Demo.byHealth Demo.fleet) 2 !! 3%nat
          = Some (Demo.node "1" (Some 1%Q) "2024-01-01T00:00:00Z")) as Hrow
    by (vm_compute; reflexivity).
  split; [exact Hrow|].
  apply (globalRank_of_row Demo.engine ∅ Demo.byHealth Demo.fleet 2 3 _ ltac:(lia) Hrow).
Defined.

Lemma List_filter_elem_of {A : Type} (p : A -> bool) (l : list A) (x : A) :
  x ∈ List.filter p l ↔ x ∈ l ∧ p x = true.
Proof. rewrite !list_elem_of_In. apply filter_In. Qed.

Lemma List_filter_sublist {A : Type} (p : A -> bool) (l : list A) :
  List.filter p l `sublist_of` l.
Proof.
  induction l as [|x l IH]; simpl; [constructor|].
  destruct (p x); [by apply sublist_skip|by apply sublist_cons].
Qed.

Lemma List_filter_all {A : Type} (p : A -> bool) (l : list A) :
  (∀ x, x ∈ l → p x = true) → List.filter p l = l.
Proof.
  induction l as [|x l IH]; intros Hall; simpl; [done|].
  rewrite (Hall x) by left. f_equal. apply IH. intros y Hy. apply Hall. by right.
Qed.

Lemma matchesStatus_eq (s : string) (n : PNode.t) :
  matchesStatus s n = true ↔ PNode.status n = s.
Proof. unfold matchesStatus. apply String.eqb_eq. Qed.

Lemma matchesTier_eq (s : string) (n : PNode.t) :
  matchesTier s n = true ↔ PNode.tier n = Some s.
Proof.
  unfold matchesTier. destruct (PNode.tier n) as [t|]; [|done].
  rewrite String.eqb_eq. split; congruence.
Qed.

Lemma applyFilters_elem_of (E : Engine) (vs : ViewState) (l : list PNode.t) (n : PNode.t) :
  n ∈ applyFilters E vs l ↔ n ∈ l ∧ passesFilters E vs n.
Proof.
  unfold applyFilters, passesFilters.
  destruct (isEmpty (trim E (search vs))) eqn:Hs,
    (String.eqb (statusFilter vs) "all") eqn:Hst,
    (String.eqb (tierFilter vs) "all") eqn:Ht;
    rewrite ?List_filter_elem_of, ?matchesStatus_eq, ?matchesTier_eq;
    first [apply String.eqb_eq in Hst | apply String.eqb_neq in Hst];
    first [apply String.eqb_eq in Ht | apply String.eqb_neq in Ht];
    intuition congruence.
Qed.

Lemma applyFilters_sublist (E : Engine) (vs : ViewState) (l : list PNode.t) :
  applyFilters E vs l `sublist_of` l.
Proof.
  unfold applyFilters.
  destruct (isEmpty _), (String.eqb (statusFilter vs) _), (String.eqb (tierFilter vs) _);
    repeat (etrans; [apply List_filter_sublist|]); done.
Qed.

Lemma applyFilters_all (E : Engine) (vs : ViewState) (l : list PNode.t) :
  (∀ n, n ∈ l → passesFilters E vs n) → applyFilters E vs l = l.
Proof.
  intros Hall. unfold applyFilters.
  assert (isEmpty (trim E (search vs)) = false →
          List.filter (matchesSearch E (trim E (toLowerCase E (search vs)))) l = l) as H1.
  { intros Hs. apply List_filter_all. intros n Hn.
    destruct (Hall n Hn) as ([Hs'|Hm] & _); [congruence|done]. }
  assert (String.eqb (statusFilter vs) "all" = false →
          List.filter (matchesStatus (statusFilter vs)) l = l) as H2.
  { intros Hs%String.eqb_neq. apply List_filter_all. intros n Hn.
    destruct (Hall n Hn) as (_ & [Hs'|Hm] & _); [done|by apply matchesStatus_eq]. }
  assert (String.eqb (tierFilter vs) "all" = false →
          List.filter (matchesTier (tierFilter vs)) l = l) as H3.
  { intros Hs%String.eqb_neq. apply List_filter_all. intros n Hn.
    destruct (Hall n Hn) as (_ & _ & [Hs'|Hm]); [done|by apply matchesTier_eq]. }
  destruct (isEmpty _), (String.eqb (statusFilter vs) _), (String.eqb (tierFilter vs) _);
    rewrite ?H1, ?H2, ?H3 by done; done.
Qed.

Lemma view_elem_of (E : Engine) (ramMap : gmap string RamData) (vs : ViewState)
    (l : list PNode.t) (n : PNode.t) :
  n ∈ view E ramMap vs l → n ∈ l ∧ passesFilters E vs n.
Proof.
  unfold view, dedupe. intros Hn.
  apply (λ H, elem_of_sublist _ _ _ H (dedupe_from_sublist _ _)) in Hn.
  apply array_sort_elem_of in Hn. by apply applyFilters_elem_of.
Qed.

Lemma view_key (E : Engine) (ramMap : gmap string RamData) (vs : ViewState)
    (l : list PNode.t) (n : PNode.t) :
  n ∈ l → passesFilters E vs n →
  ∃ m, m ∈ view E ramMap vs l ∧ PNode.pubkey m = PNode.pubkey n.
Proof.
  intros Hn Hp. unfold view, dedupe.
  set (s := array_sort _ _).
  assert (n ∈ s) as Hs by (apply array_sort_elem_of; by apply applyFilters_elem_of).
  destruct (firstWithKey_is_Some (PNode.pubkey n) s n Hs eq_refl) as [m Hm].
  exists m.
  assert (firstWithKey (PNode.pubkey n) (dedupe_from ∅ s) = Some m) as Hd.
  { rewrite dedupe_from_first.
    destruct (decide (PNode.pubkey n ∈ (∅ : gset string))) as [Hin|_]; [set_solver|done]. }
  apply firstWithKey_Some in Hd as (i & Hi & Hk & _).
  split; [by eapply list_elem_of_lookup_2|done].
Qed.

Lemma NoDup_keys_sublist (l k : list PNode.t) :
  l `sublist_of` k → NoDup (PNode.pubkey <$> k) → NoDup (PNode.pubkey <$> l).
Proof.
  intros Hsub Hnd. apply (sublist_NoDup _ _ Hnd). by apply fmap_sublist.
Qed.

Lemma view_unique_keys (E : Engine) (ramMap : gmap string RamData) (vs : ViewState)
    (l : list PNode.t) :
  NoDup (PNode.pubkey <$> l) →
  view E ramMap vs l
  = array_sort (compareNodes E ramMap (sortField vs) (sortDirection vs))
      (applyFilters E vs l).
Proof.
  intros Hnd. unfold view, dedupe. apply dedupe_NoDup_id; [|set_solver].
  rewrite (array_sort_perm _ (applyFilters E vs l)).
  eapply NoDup_keys_sublist; [apply applyFilters_sublist|done].
Qed.

(** X2. The array the table shows holds records of the input only, each
    of which passes the search box and both filter menus; every record of
    the input that passes them is represented in it by a record with the
    same key; no two of its records share a key; and when the keys of the
    input are unique it holds exactly the records that pass. *)
Theorem filteredAndSorted_filters (E : Engine) (h : heap) (pnodes : ref)
    (l : list PNode.t) (ramMap : gmap string RamData) (vs : ViewState) :
  h !! pnodes = Some l →
  ∃ v, (filteredAndSorted E pnodes ramMap vs h).2
         !! (filteredAndSorted E pnodes ramMap vs h).1 = Some v
    ∧ (∀ n, n ∈ v → n ∈ l ∧ passesFilters E vs n)
    ∧ (∀ n, n ∈ l → passesFilters E vs n →
         ∃ m, m ∈ v ∧ PNode.pubkey m = PNode.pubkey n)
    ∧ NoDup (PNode.pubkey <$> v)
    ∧ (NoDup (PNode.pubkey <$> l) → ∀ n, n ∈ v ↔ n ∈ l ∧ passesFilters E vs n).
Proof.
  intros Hl. exists (view E ramMap vs l).
  destruct (filteredAndSorted_owns E h pnodes l ramMap vs Hl) as (Hv & _).
  split_and!; [done|apply view_elem_of|apply view_key|apply view_NoDup|].
  intros Hnd n. rewrite view_unique_keys by done.
  rewrite array_sort_elem_of. apply applyFilters_elem_of.
Qed.

Lemma filteredAndSorted_filters_witness :
  ∃ v, (filteredAndSorted Demo.engine 0%nat (nodeRamData Sample.ramNodes)
          Sample.onlineOnly [Sample.ramNodes]).2
         !! (filteredAndSorted Demo.engine 0%nat (nodeRamData Sample.ramNodes)
               Sample.onlineOnly [Sample.ramNodes]).1 = Some v
    ∧ (∀ n, n ∈ v → n ∈ Sample.ramNodes ∧ passesFilters Demo.engine Sample.onlineOnly n)
    ∧ NoDup (PNode.pubkey <$> v).
Proof.
  destruct (filteredAndSorted_filters Demo.engine [Sample.ramNodes] 0%nat
              Sample.ramNodes (nodeRamData Sample.ramNodes) Sample.onlineOnly eq_refl)
    as (v & Hv & Hsound & _ & Hnd & _).
  exists v. split_and!; [exact Hv|exact Hsound|exact Hnd].
Defined.

(** ** Computing the view again *)

Lemma array_sort_sorted_id {A : Type} (comparefn : A -> A -> number) (s : list A) :
  StronglySorted (notGreater comparefn) s → array_sort comparefn s = s.
Proof.
  induction 1 as [|x s Hs IH Hx]; [done|].
  change (array_sort comparefn (x :: s)) with (sort_insert comparefn x (array_sort comparefn s)).
  rewrite IH. destruct s as [|y s']; [done|]. simpl.
  apply Forall_cons in Hx as [Hxy _].
  unfold sortGt. unfold notGreater, signOf in Hxy.
  by destruct (sortSign (comparefn x y)).
Qed.

Lemma StronglySorted_sublist {A : Type} (R : relation A) (l k : list A) :
  l `sublist_of` k → StronglySorted R k → StronglySorted R l.
Proof.
  induction 1 as [|x l k Hsub IH|x l k Hsub IH]; intros Hk; [done|..].
  - apply StronglySorted_inv in Hk as [Hk Hx]. constructor; [by apply IH|].
    rewrite Forall_forall in Hx. rewrite Forall_forall. intros y Hy.
    apply Hx. by eapply elem_of_sublist.
  - apply StronglySorted_inv in Hk as [Hk _]. by apply IH.
Qed.

Lemma compareNodes_consistent_dir (E : Engine) (ramMap : gmap string RamData)
    (f : SortField.t) (d : SortDirection) :
  collationConsistent E →
  consistentOn (compareNodes E ramMap f d) (keyComparable E f).
Proof.
  intros HE. destruct d; [by apply compareNodes_consistent|].
  apply (consistentOn_down (compareNodes E ramMap f asc)).
  - apply compareNodes_desc.
  - by apply compareNodes_consistent.
Qed.

Lemma view_sorted (E : Engine) (ramMap : gmap string RamData) (vs : ViewState)
    (l : list PNode.t) :
  collationConsistent E → Forall (keyComparable E (sortField vs)) l →
  StronglySorted (notGreater (compareNodes E ramMap (sortField vs) (sortDirection vs)))
    (view E ramMap vs l).
Proof.
  intros HE Hl. unfold view, dedupe.
  eapply StronglySorted_sublist; [apply dedupe_from_sublist|].
  apply (array_sort_sorted _ (keyComparable E (sortField vs)));
    [by apply compareNodes_consistent_dir|].
  rewrite Forall_forall in Hl. rewrite Forall_forall. intros n Hn.
  apply Hl. by apply applyFilters_elem_of in Hn as [Hn _].
Qed.

(** The view is a fixed point of the computation. *)
Lemma view_recomputed (E : Engine) (ramMap : gmap string RamData) (vs : ViewState)
    (l : list PNode.t) :
  collationConsistent E → Forall (keyComparable E (sortField vs)) l →
  view E ramMap vs (view E ramMap vs l) = view E ramMap vs l.
Proof.
  intros HE Hl.
  pose proof (view_sorted E ramMap vs l HE Hl) as Hsorted.
  pose proof (view_NoDup E ramMap vs l) as Hnd.
  assert (applyFilters E vs (view E ramMap vs l) = view E ramMap vs l) as Hf.
  { apply applyFilters_all. intros n Hn. by apply view_elem_of in Hn as [_ Hn]. }
  unfold view at 1. rewrite Hf, (array_sort_sorted_id _ _ Hsorted).
  apply dedupe_NoDup_id; [done|set_solver].
Qed.

(** ** The map of RAM figures *)

Lemma nodeRamData_snoc (l : list PNode.t) (n : PNode.t) :
  nodeRamData (l ++ [n])
  = match PNode.ramUsed n, PNode.ramTotal n with
    | Some u, Some t => <[PNode.pubkey n := {| used := u; total := t |}]> (nodeRamData l)
    | _, _ => nodeRamData l
    end.
Proof. unfold nodeRamData. by rewrite foldl_app. Qed.

Lemma nodeRamData_lookup (pnodes : list PNode.t) (k : string) (u t : Q) :
  nodeRamData pnodes !! k = Some {| used := u; total := t |}
  ↔ ∃ i n, pnodes !! i = Some n ∧ PNode.pubkey n = k
       ∧ PNode.ramUsed n = Some u ∧ PNode.ramTotal n = Some t
       ∧ ∀ j m, pnodes !! j = Some m → (i < j)%nat → PNode.pubkey m = k →
           PNode.ramUsed m = None ∨ PNode.ramTotal m = None.
Proof.
  induction pnodes as [|n l IH] using rev_ind.
  - change (nodeRamData []) with (∅ : gmap string RamData).
    split; [by rewrite lookup_empty|]. by intros (i & m & Hi & _).
  - rewrite nodeRamData_snoc. split.
    + intros Hlook.
      assert (nodeRamData l !! k = Some {| used := u; total := t |} →
              (PNode.pubkey n = k → PNode.ramUsed n = None ∨ PNode.ramTotal n = None) →
              ∃ i m, (l ++ [n]) !! i = Some m ∧ PNode.pubkey m = k
                ∧ PNode.ramUsed m = Some u ∧ PNode.ramTotal m = Some t
                ∧ ∀ j m', (l ++ [n]) !! j = Some m' → (i < j)%nat →
                    PNode.pubkey m' = k →
                    PNode.ramUsed m' = None ∨ PNode.ramTotal m' = None) as Hold.
      { intros (i & m & Hi & Hk & Hu & Ht & Hlast)%IH Hn.
        exists i, m. split_and!; [by apply lookup_app_l_Some|done..|].
        intros j m' Hj Hij Hk'.
        apply lookup_app_Some in Hj as [Hj|[Hlen Hj]]; [by eapply Hlast|].
        apply list_lookup_singleton_Some in Hj as [_ <-]. by apply Hn. }
      destruct (PNode.ramUsed n) as [u'|] eqn:Hu', (PNode.ramTotal n) as [t'|] eqn:Ht';
        try (apply Hold; [done|by auto]).
      destruct (decide (PNode.pubkey n = k)) as [Hk|Hk].
      * rewrite Hk, lookup_insert_eq in Hlook. injection Hlook as -> ->.
        exists (length l), n. split_and!; [by apply list_lookup_middle|done..|].
        intros j m' Hj Hij _. apply lookup_lt_Some in Hj.
        rewrite length_app in Hj. simpl in Hj. lia.
      * rewrite lookup_insert_ne in Hlook by done. apply Hold; [done|]. by intros ?.
    + intros (i & m & Hi & Hk & Hu & Ht & Hlast).
      apply lookup_app_Some in Hi as [Hi|[Hlen Hi]].
      * assert (nodeRamData l !! k = Some {| used := u; total := t |}) as Hl.
        { apply IH. exists i, m. split_and!; [done..|].
          intros j m' Hj Hij Hk'. apply (Hlast j m'); [|done..].
          by apply lookup_app_l_Some. }
        assert ((l ++ [n]) !! length l = Some n) as Hn by by apply list_lookup_middle.
        apply lookup_lt_Some in Hi.
        destruct (PNode.ramUsed n) as [u'|] eqn:Hu', (PNode.ramTotal n) as [t'|] eqn:Ht';
          try done.
        destruct (decide (PNode.pubkey n = k)) as [Hkn|Hkn].
        -- destruct (Hlast _ _ Hn Hi Hkn); congruence.
        -- by rewrite lookup_insert_ne.
      * apply list_lookup_singleton_Some in Hi as [_ <-].
        rewrite Hu, Ht, Hk. by rewrite lookup_insert_eq.
Qed.

(** X4. The RAM figures the table keeps under a key are those of the last
    record of the input that has this key and both of [ramUsed] and
    [ramTotal]; a record that lacks one of the two changes nothing. *)
Theorem nodeRamData_last (pnodes : list PNode.t) (k : string) (u t : Q) :
  nodeRamData pnodes !! k = Some {| used := u; total := t |}
  ↔ ∃ i n, pnodes !! i = Some n ∧ PNode.pubkey n = k
       ∧ PNode.ramUsed n = Some u ∧ PNode.ramTotal n = Some t
       ∧ ∀ j m, pnodes !! j = Some m → (i < j)%nat → PNode.pubkey m = k →
           PNode.ramUsed m = None ∨ PNode.ramTotal m = None.
Proof. apply nodeRamData_lookup. Qed.

(** X5. When the keys of the input are unique, sorting by RAM reads for
    every record its own [ramUsed], and zero when the record lacks
    [ramUsed] or [ramTotal]: a record that reports its used RAM but not its
    total sorts as if it used none. *)
Theorem ramUsed_key (pnodes : list PNode.t) (n : PNode.t) :
  NoDup (PNode.pubkey <$> pnodes) → n ∈ pnodes →
  ramUsedOf (nodeRamData pnodes) n
  = match PNode.ramUsed n, PNode.ramTotal n with
    | Some u, Some _ => Fin u
    | _, _ => Fin 0
    end.
Proof.
  intros Hnd [i Hi]%list_elem_of_lookup_1. unfold ramUsedOf.
  assert (∀ j m, pnodes !! j = Some m → PNode.pubkey m = PNode.pubkey n → j = i) as Hsame.
  { intros j m Hj Hk. apply (NoDup_lookup _ j i (PNode.pubkey n) Hnd).
    - by rewrite list_lookup_fmap, Hj, <- Hk.
    - by rewrite list_lookup_fmap, Hi. }
  destruct (nodeRamData pnodes !! PNode.pubkey n) as [[u t]|] eqn:Hlook.
  - apply nodeRamData_lookup in Hlook as (j & m & Hj & Hk & Hu & Ht & _).
    assert (j = i) as -> by by eapply Hsame.
    assert (m = n) as -> by congruence. by rewrite Hu, Ht.
  - destruct (PNode.ramUsed n) as [u|] eqn:Hu, (PNode.ramTotal n) as [t|] eqn:Ht;
      try done.
    assert (nodeRamData pnodes !! PNode.pubkey n = Some {| used := u; total := t |})
      as Hsome; [|congruence].
    apply nodeRamData_lookup. exists i, n. split_and!; [done..|].
    intros j m Hj Hij Hk. apply Hsame in Hj; [lia|done].
Qed.

Lemma ramUsed_key_witness :
  ramUsedOf (nodeRamData Sample.ramNodes) Sample.withRam = Fin 4
  ∧ ramUsedOf (nodeRamData Sample.ramNodes) Sample.usedOnly = Fin 0.
Proof.
  assert (NoDup (PNode.pubkey <$> Sample.ramNodes)) as Hnd.
  { refine (bool_decide_unpack _ _). vm_compute. exact I. }
  split.
  - apply (ramUsed_key Sample.ramNodes Sample.withRam Hnd). by left.
  - apply (ramUsed_key Sample.ramNodes Sample.usedOnly Hnd). right. by left.
Defined.

(** ** Computing the view from the view *)

Lemma sort_insert_ext {A : Type} (c c' : A -> A -> number) (x : A) (s : list A) :
  (∀ y, y ∈ s → c x y = c' x y) → sort_insert c x s = sort_insert c' x s.
Proof.
  induction s as [|y s IH]; intros Hext; simpl; [done|].
  unfold sortGt. rewrite (Hext y) by left.
  destruct (sortSign (c' x y)); try done.
  f_equal. apply IH. intros z Hz. apply Hext. by right.
Qed.

Lemma array_sort_ext {A : Type} (c c' : A -> A -> number) (l : list A) :
  (∀ x y, x ∈ l → y ∈ l → c x y = c' x y) → array_sort c l = array_sort c' l.
Proof.
  induction l as [|x l IH]; intros Hext; [done|].
  change (array_sort c (x :: l)) with (sort_insert c x (array_sort c l)).
  change (array_sort c' (x :: l)) with (sort_insert c' x (array_sort c' l)).
  rewrite <- IH.
  - apply sort_insert_ext. intros y Hy%array_sort_elem_of.
    apply Hext; [by left|by right].
  - intros y z Hy Hz. apply Hext; by right.
Qed.

Lemma nodeRamData_own (pnodes : list PNode.t) (n : PNode.t) :
  NoDup (PNode.pubkey <$> pnodes) → n ∈ pnodes →
  nodeRamData pnodes !! PNode.pubkey n
  = match PNode.ramUsed n, PNode.ramTotal n with
    | Some u, Some t => Some {| used := u; total := t |}
    | _, _ => None
    end.
Proof.
  intros Hnd [i Hi]%list_elem_of_lookup_1.
  assert (∀ j m, pnodes !! j = Some m → PNode.pubkey m = PNode.pubkey n → j = i) as Hsame.
  { intros j m Hj Hk. apply (NoDup_lookup _ j i (PNode.pubkey n) Hnd).
    - by rewrite list_lookup_fmap, Hj, <- Hk.
    - by rewrite list_lookup_fmap, Hi. }
  destruct (nodeRamData pnodes !! PNode.pubkey n) as [[u t]|] eqn:Hlook.
  - apply nodeRamData_lookup in Hlook as (j & m & Hj & Hk & Hu & Ht & _).
    assert (j = i) as -> by by eapply Hsame.
    assert (m = n) as -> by congruence. by rewrite Hu, Ht.
  - destruct (PNode.ramUsed n) as [u|] eqn:Hu, (PNode.ramTotal n) as [t|] eqn:Ht;
      try done.
    assert (nodeRamData pnodes !! PNode.pubkey n = Some {| used := u; total := t |})
      as Hsome; [|congruence].
    apply nodeRamData_lookup. exists i, n. split_and!; [done..|].
    intros j m Hj Hij Hk. apply Hsame in Hj; [lia|done].
Qed.

(** The comparator reads the map of RAM figures at the keys of the two
    records only, and under the two RAM fields only. *)
Lemma compareNodes_ramMap (E : Engine) (m m' : gmap string RamData)
    (f : SortField.t) (d : SortDirection) (a b : PNode.t) :
  (f = SortField.ramUsed ∨ f = SortField.ramUtilization →
   m !! PNode.pubkey a = m' !! PNode.pubkey a
   ∧ m !! PNode.pubkey b = m' !! PNode.pubkey b) →
  compareNodes E m f d a b = compareNodes E m' f d a b.
Proof.
  intros Hram.
  assert (comparison E m f a b = comparison E m' f a b) as Hcmp.
  { destruct f; try reflexivity.
    - destruct Hram as [Ha Hb]; [by left|].
      simpl. unfold ramUsedOf. by rewrite Ha, Hb.
    - destruct Hram as [Ha Hb]; [by right|].
      simpl. unfold ramUtilOf. by rewrite Ha, Hb. }
  unfold compareNodes. by rewrite Hcmp.
Qed.

Lemma view_of_view (E : Engine) (vs : ViewState) (l : list PNode.t) :
  collationConsistent E → Forall (keyComparable E (sortField vs)) l →
  (sortField vs = SortField.ramUsed ∨ sortField vs = SortField.ramUtilization →
   NoDup (PNode.pubkey <$> l)) →
  view E (nodeRamData (view E (nodeRamData l) vs l)) vs (view E (nodeRamData l) vs l)
  = view E (nodeRamData l) vs l.
Proof.
  intros HE Hkeys Hram.
  set (v := view E (nodeRamData l) vs l).
  transitivity (view E (nodeRamData l) vs v); [|by apply view_recomputed].
  unfold view. f_equal. apply array_sort_ext.
  intros x y [Hx _]%applyFilters_elem_of [Hy _]%applyFilters_elem_of.
  apply compareNodes_ramMap. intros Hf. specialize (Hram Hf).
  pose proof (view_NoDup E (nodeRamData l) vs l) as Hnd.
  split.
  - rewrite (nodeRamData_own v x Hnd Hx).
    by rewrite (nodeRamData_own l x Hram (proj1 (view_elem_of _ _ _ _ _ Hx))).
  - rewrite (nodeRamData_own v y Hnd Hy).
    by rewrite (nodeRamData_own l y Hram (proj1 (view_elem_of _ _ _ _ _ Hy))).
Qed.

(** X3. Running the computation of the table on the array it has returned,
    with the map of RAM figures made from that array, returns an array
    with the same records in the same order, when the keys of the records
    can be compared, the collation is consistent and, if the table is
    sorted by one of the two RAM fields, no two records of the input share
    a key. *)
Theorem filteredAndSorted_again (E : Engine) (h : heap) (pnodes : ref)
    (l : list PNode.t) (vs : ViewState) :
  h !! pnodes = Some l →
  collationConsistent E → Forall (keyComparable E (sortField vs)) l →
  (sortField vs = SortField.ramUsed ∨ sortField vs = SortField.ramUtilization →
   NoDup (PNode.pubkey <$> l)) →
  ∃ v,
    (filteredAndSorted E pnodes (nodeRamData l) vs h).2
      !! (filteredAndSorted E pnodes (nodeRamData l) vs h).1 = Some v
    ∧ (filteredAndSorted E (filteredAndSorted E pnodes (nodeRamData l) vs h).1
         (nodeRamData v) vs (filteredAndSorted E pnodes (nodeRamData l) vs h).2).2
        !! (filteredAndSorted E (filteredAndSorted E pnodes (nodeRamData l) vs h).1
              (nodeRamData v) vs (filteredAndSorted E pnodes (nodeRamData l) vs h).2).1
      = Some v.
Proof.
  intros Hl HE Hkeys Hram. exists (view E (nodeRamData l) vs l).
  destruct (filteredAndSorted_owns E h pnodes l (nodeRamData l) vs Hl) as (Hv & _).
  split; [exact Hv|].
  destruct (filteredAndSorted_owns E _ _ _
              (nodeRamData (view E (nodeRamData l) vs l)) vs Hv) as (Hv' & _).
  rewrite Hv'. f_equal. by apply view_of_view.
Qed.

Lemma filteredAndSorted_again_witness :
  ∃ v,
    (filteredAndSorted Demo.engine 0%nat (nodeRamData Sample.ramNodes) Sample.byRam
       [Sample.ramNodes]).2
      !! (filteredAndSorted Demo.engine 0%nat (nodeRamData Sample.ramNodes) Sample.byRam
            [Sample.ramNodes]).1 = Some v
    ∧ (filteredAndSorted Demo.engine
         (filteredAndSorted Demo.engine 0%nat (nodeRamData Sample.ramNodes) Sample.byRam
            [Sample.ramNodes]).1
         (nodeRamData v) Sample.byRam
         (filteredAndSorted Demo.engine 0%nat (nodeRamData Sample.ramNodes) Sample.byRam
            [Sample.ramNodes]).2).2
        !! (filteredAndSorted Demo.engine
              (filteredAndSorted Demo.engine 0%nat (nodeRamData Sample.ramNodes)
                 Sample.byRam [Sample.ramNodes]).1
              (nodeRamData v) Sample.byRam
              (filteredAndSorted Demo.engine 0%nat (nodeRamData Sample.ramNodes)
                 Sample.byRam [Sample.ramNodes]).2).1
      = Some v.
Proof.
  apply (filteredAndSorted_again Demo.engine [Sample.ramNodes] 0%nat Sample.ramNodes
           Sample.byRam eq_refl demo_collation).
  - repeat first [apply List.Forall_nil | apply List.Forall_cons];
      (split_and!; intros Hf; vm_compute in Hf; discriminate Hf).
  - intros _. refine (bool_decide_unpack _ _). vm_compute. exact I.
Defined.

(** ** Controls *)

Lemma paginatedNodes_first {A : Type} (l : list A) :
  paginatedNodes l 1 = take 20 l.
Proof. exact (paginatedNodes_chunk l 0). Qed.

(** X6. Typing in the search box, picking a status or a tier, picking an
    entry of the sort menu and clicking a column header all lead to page
    one: the table then shows the first twenty records of the view under
    the new settings, hence at least one record whenever that view has
    any. *)
Theorem controls_show_first_page (E : Engine) (ramMap : gmap string RamData)
    (l : list PNode.t) (vs : ViewState) (value status tier : string)
    (field : SortField.t) (direction : option SortDirection) :
  Forall (λ vs', paginatedNodes (view E ramMap vs' l) (currentPage vs')
                 = take 20 (view E ramMap vs' l)
                 ∧ (view E ramMap vs' l ≠ [] →
                    paginatedNodes (view E ramMap vs' l) (currentPage vs') ≠ []))
    [ Input_onChange value vs; handleStatusFilter status vs; handleTierFilter tier vs;
      handleSortChange field direction vs; handleSort field vs ].
Proof.
  assert (∀ v : list PNode.t,
            paginatedNodes v 1 = take 20 v ∧ (v ≠ [] → paginatedNodes v 1 ≠ []))
    as Hfirst.
  { intros v. rewrite paginatedNodes_first. split; [done|]. by destruct v. }
  repeat first [apply List.Forall_nil | apply List.Forall_cons]; apply Hfirst.
Qed.

(** X7. A click on the header of the column the table is sorted by flips
    the direction and keeps the column; a click on another header sorts by
    that column, descending; so two clicks on the same header end
    ascending when the column was not the sort column before, and restore
    the direction when it was.  The search text and the filters stay as
    they are. *)
Theorem handleSort_twice (field : SortField.t) (vs : ViewState) :
  sortField (handleSort field vs) = field
  ∧ (sortField vs = field → sortDirection (handleSort field vs) ≠ sortDirection vs)
  ∧ (sortField vs ≠ field → sortDirection (handleSort field vs) = desc)
  ∧ handleSort field (handleSort field vs)
    = setCurrentPage 1
        (if decide (sortField vs = field) then vs
         else setSortDirection asc (setSortField field vs))
  ∧ search (handleSort field vs) = search vs
  ∧ statusFilter (handleSort field vs) = statusFilter vs
  ∧ tierFilter (handleSort field vs) = tierFilter vs.
Proof.
  unfold handleSort.
  destruct (decide (sortField vs = field)) as [Heq|Hne]; simpl.
  - rewrite decide_True by done. destruct vs as [? ? ? ? [] ?]; simpl in *; done.
  - rewrite decide_True by done. done.
Qed.

(** X8. When no RAM total is negative, sorting by "RAM Util %" orders the
    rows by the percentage their cell shows, a row that shows a dash
    (no RAM figures, or a total of zero) counting as zero. *)
Theorem ramUtilization_key_is_cell (ramMap : gmap string RamData) (node : PNode.t) :
  (∀ ramData, ramMap !! PNode.pubkey node = Some ramData → (0 <= total ramData)%Q) →
  ramUtilOf ramMap node = default (Fin 0) (ramUtilizationCell ramMap node).
Proof.
  intros Hpos. unfold ramUtilOf, ramUtilizationCell.
  destruct (ramMap !! PNode.pubkey node) as [r|] eqn:Hr; [|done].
  specialize (Hpos r eq_refl). unfold Qis0.
  destruct (Qeq_bool (total r) 0) eqn:H0.
  - apply Qeq_bool_iff in H0.
    assert (jsgt (Fin (total r)) (Fin 0) = false) as ->; [|done].
    apply not_true_iff_false. rewrite jsgt_pos. lra.
  - apply Qeq_bool_neq in H0.
    assert (jsgt (Fin (total r)) (Fin 0) = true) as ->; [|done].
    apply jsgt_pos. lra.
Qed.

Lemma ramUtilization_key_is_cell_witness :
  ramUtilOf (nodeRamData Sample.ramNodes) Sample.withRam
  = default (Fin 0) (ramUtilizationCell (nodeRamData Sample.ramNodes) Sample.withRam)
  ∧ ramUtilizationCell (nodeRamData Sample.ramNodes) Sample.withRam = Some (Fin (400 # 8))
  ∧ ramUtilizationCell (nodeRamData Sample.ramNodes) Sample.usedOnly = None.
Proof.
  split; [|split; vm_compute; reflexivity].
  apply (ramUtilization_key_is_cell (nodeRamData Sample.ramNodes) Sample.withRam).
  intros ramData Hlook. vm_compute in Hlook. injection Hlook as <-. vm_compute.
  discriminate.
Defined.

(** ** Pagination controls *)

Lemma Array_from_length_elem_of (n page : Z) :
  page ∈ Array_from_length n ↔ 1 ≤ page ≤ n.
Proof.
  unfold Array_from_length. rewrite list_elem_of_fmap. split.
  - intros (i & -> & Hi). apply elem_of_seq in Hi. lia.
  - intros Hp. exists (Z.to_nat (page - 1)). split; [lia|].
    apply elem_of_seq. lia.
Qed.

Lemma Array_from_length_NoDup (n : Z) : NoDup (Array_from_length n).
Proof.
  unfold Array_from_length. apply NoDup_fmap_2; [|apply NoDup_seq].
  intros i j Hij. lia.
Qed.

Lemma pageStrip_elem_of (cur T : Z) (item : PageItem) :
  item ∈ pageStrip cur T
  ↔ 1 < T ∧ ∃ page, 1 ≤ page ≤ T ∧ pageItem cur T page = Some item.
Proof.
  unfold pageStrip. destruct (Z.ltb_spec 1 T) as [HT|HT].
  - rewrite list_elem_of_omap. split.
    + intros (page & Hp%Array_from_length_elem_of & Hitem). eauto.
    + intros (_ & page & Hp%Array_from_length_elem_of & Hitem). eauto.
  - split; [by intros ?%elem_of_nil|lia].
Qed.

Lemma page_nonempty {A : Type} (v : list A) (page : Z) :
  1 ≤ page ≤ totalPages v → paginatedNodes v page ≠ [].
Proof.
  rewrite totalPages_div. intros Hp.
  replace page with (Z.of_nat (S (Z.to_nat (page - 1)))) by lia.
  rewrite paginatedNodes_chunk. intros Hnil.
  apply (f_equal length) in Hnil. rewrite length_take, length_drop in Hnil.
  change (length (@nil A)) with 0%nat in Hnil.
  assert (20 * (page - 1) < Z.of_nat (length v)) by
    (Z.to_euclidean_division_equations; lia).
  lia.
Qed.

Lemma pageItem_link (cur T page page' : Z) (active : bool) :
  pageItem cur T page = Some (PaginationLink page' active)
  ↔ page' = page ∧ active = (cur =? page)
    ∧ (page = 1 ∨ page = T ∨ cur - 1 ≤ page ≤ cur + 1).
Proof.
  unfold pageItem.
  destruct (Z.eqb_spec page 1), (Z.eqb_spec page T), (Z.leb_spec (cur - 1) page),
    (Z.leb_spec page (cur + 1)), (Z.eqb_spec page (cur - 2)),
    (Z.eqb_spec page (cur + 2)); simpl;
    (split; [intros [= <- <-]; split_and!; (done || lia || auto)
            |intros (-> & -> & Hc); (done || lia)]).
Qed.

Lemma pageItem_ellipsis (cur T page page' : Z) :
  pageItem cur T page = Some (PaginationEllipsis page')
  ↔ page' = page ∧ page ≠ 1 ∧ page ≠ T ∧ (page = cur - 2 ∨ page = cur + 2).
Proof.
  unfold pageItem.
  destruct (Z.eqb_spec page 1), (Z.eqb_spec page T), (Z.leb_spec (cur - 1) page),
    (Z.leb_spec page (cur + 1)), (Z.eqb_spec page (cur - 2)),
    (Z.eqb_spec page (cur + 2)); simpl;
    (split; [intros [= <-]; split_and!; (done || lia || auto)
            |intros (-> & Hc); (done || lia)]).
Qed.

(** X9. From a page between one and the number of pages, the two arrows
    and every link of the strip lead to a page in the same range, which
    shows at least one record; an arrow does nothing at its end of the
    range, and elsewhere the two arrows undo each other. *)
Theorem pagination_stays_in_range {A : Type} (v : list A) (vs : ViewState) :
  1 ≤ currentPage vs ≤ totalPages v →
  Forall (λ vs', 1 ≤ currentPage vs' ≤ totalPages v
                 ∧ paginatedNodes v (currentPage vs') ≠ [])
    [ PaginationPrevious_onClick vs; PaginationNext_onClick (totalPages v) vs ]
  ∧ (∀ page active,
       PaginationLink page active ∈ pageStrip (currentPage vs) (totalPages v) →
       1 ≤ currentPage (PaginationLink_onClick page vs) ≤ totalPages v
       ∧ paginatedNodes v (currentPage (PaginationLink_onClick page vs)) ≠ [])
  ∧ (currentPage vs = 1 → PaginationPrevious_onClick vs = vs)
  ∧ (currentPage vs = totalPages v → PaginationNext_onClick (totalPages v) vs = vs)
  ∧ (1 < currentPage vs →
       PaginationNext_onClick (totalPages v) (PaginationPrevious_onClick vs) = vs)
  ∧ (currentPage vs < totalPages v →
       PaginationPrevious_onClick (PaginationNext_onClick (totalPages v) vs) = vs).
Proof.
  intros Hcur. unfold PaginationPrevious_onClick, PaginationNext_onClick.
  split_and!.
  - repeat first [apply List.Forall_nil | apply List.Forall_cons].
    + destruct (Z.ltb_spec 1 (currentPage vs)); simpl;
        (split; [lia|apply page_nonempty; lia]).
    + destruct (Z.ltb_spec (currentPage vs) (totalPages v)); simpl;
        (split; [lia|apply page_nonempty; lia]).
  - intros page active (_ & page' & Hp & Hitem)%pageStrip_elem_of.
    apply pageItem_link in Hitem as (-> & _). simpl.
    split; [lia|by apply page_nonempty].
  - intros H1. destruct (Z.ltb_spec 1 (currentPage vs)); [lia|done].
  - intros H1. destruct (Z.ltb_spec (currentPage vs) (totalPages v)); [lia|done].
  - intros H1. destruct (Z.ltb_spec 1 (currentPage vs)); [|lia]. simpl.
    destruct (Z.ltb_spec (currentPage vs - 1) (totalPages v)); [|lia].
    destruct vs; unfold setCurrentPage; simpl in *. f_equal. lia.
  - intros H1. destruct (Z.ltb_spec (currentPage vs) (totalPages v)); [|lia]. simpl.
    destruct (Z.ltb_spec 1 (currentPage vs + 1)); [|lia].
    destruct vs; unfold setCurrentPage; simpl in *. f_equal. lia.
Qed.

Lemma pagination_stays_in_range_witness :
  currentPage (PaginationNext_onClick (totalPages Demo.fleet) Demo.byHealth) = 2
  ∧ PaginationPrevious_onClick
      (PaginationNext_onClick (totalPages Demo.fleet) Demo.byHealth) = Demo.byHealth
  ∧ PaginationPrevious_onClick Demo.byHealth = Demo.byHealth.
Proof.
  assert (1 ≤ currentPage Demo.byHealth ≤ totalPages Demo.fleet) as Hcur
    by (vm_compute; split; discriminate).
  destruct (pagination_stays_in_range Demo.fleet Demo.byHealth Hcur)
    as (_ & _ & Hfirst & _ & _ & Hundo).
  split_and!; [vm_compute; reflexivity| |].
  - apply Hundo. vm_compute. reflexivity.
  - apply Hfirst. reflexivity.
Defined.

Lemma omap_links (cur T : Z) (pages : list Z) :
  List.filter isLink (omap (pageItem cur T) pages)
  = (λ page, PaginationLink page (cur =? page))
      <$> List.filter (λ page, (page =? 1) || (page =? T)
                               || ((cur - 1 <=? page) && (page <=? cur + 1))) pages.
Proof.
  induction pages as [|page pages IH]; [done|]. simpl. unfold pageItem at 1.
  destruct ((page =? 1) || (page =? T) || ((cur - 1 <=? page) && (page <=? cur + 1)));
    simpl; [f_equal; exact IH|].
  destruct ((page =? cur - 2) || (page =? cur + 2)); simpl; exact IH.
Qed.

Lemma omap_ellipses (cur T : Z) (pages : list Z) :
  List.filter isEllipsis (omap (pageItem cur T) pages)
  = PaginationEllipsis
      <$> List.filter (λ page, negb ((page =? 1) || (page =? T)
                                     || ((cur - 1 <=? page) && (page <=? cur + 1)))
                               && ((page =? cur - 2) || (page =? cur + 2))) pages.
Proof.
  induction pages as [|page pages IH]; [done|]. simpl. unfold pageItem at 1.
  destruct ((page =? 1) || (page =? T) || ((cur - 1 <=? page) && (page <=? cur + 1)));
    simpl; [exact IH|].
  destruct ((page =? cur - 2) || (page =? cur + 2)); simpl; [f_equal; exact IH|exact IH].
Qed.

Lemma filter_length_bound (p : Z -> bool) (pages among : list Z) :
  NoDup pages → (∀ page, p page = true → page ∈ among) →
  (length (List.filter p pages) ≤ length among)%nat.
Proof.
  intros Hnd Hin. apply submseteq_length, NoDup_submseteq.
  - eapply sublist_NoDup; [done|apply List_filter_sublist].
  - intros page [_ Hp]%List_filter_elem_of. by apply Hin.
Qed.

(** X10. However many pages there are, the strip between the arrows shows
    at most five page links and at most two ellipses.  With the current
    page between one and the number of pages, the first page, the last page
    and the current page are linked, the current page is the only link
    marked active, and a page that is neither linked nor stands for an
    ellipsis is at least three pages away from the current one. *)
Theorem pageStrip_bounded (cur T : Z) :
  (length (List.filter isLink (pageStrip cur T)) ≤ 5)%nat
  ∧ (length (List.filter isEllipsis (pageStrip cur T)) ≤ 2)%nat
  ∧ (1 < T → 1 ≤ cur ≤ T →
     PaginationLink 1 (cur =? 1) ∈ pageStrip cur T
     ∧ PaginationLink T (cur =? T) ∈ pageStrip cur T
     ∧ PaginationLink cur true ∈ pageStrip cur T
     ∧ (∀ page, PaginationLink page true ∈ pageStrip cur T → page = cur)
     ∧ (∀ page, 1 ≤ page ≤ T →
          (∀ active, PaginationLink page active ∉ pageStrip cur T) →
          PaginationEllipsis page ∉ pageStrip cur T →
          3 ≤ Z.abs (page - cur))).
Proof.
  split_and!.
  - unfold pageStrip. destruct (1 <? T); [|simpl; lia].
    rewrite omap_links, length_fmap.
    apply (filter_length_bound _ _ [1; T; cur - 1; cur; cur + 1]);
      [apply Array_from_length_NoDup|].
    intros page Hp. rewrite !elem_of_cons. lia.
  - unfold pageStrip. destruct (1 <? T); [|simpl; lia].
    rewrite omap_ellipses, length_fmap.
    apply (filter_length_bound _ _ [cur - 2; cur + 2]);
      [apply Array_from_length_NoDup|].
    intros page Hp. rewrite !elem_of_cons. lia.
  - intros HT Hcur. split_and!.
    + apply pageStrip_elem_of. split; [done|]. exists 1. split; [lia|].
      apply pageItem_link. auto.
    + apply pageStrip_elem_of. split; [done|]. exists T. split; [lia|].
      apply pageItem_link. auto.
    + apply pageStrip_elem_of. split; [done|]. exists cur. split; [lia|].
      apply pageItem_link. split_and!; [done|by rewrite Z.eqb_refl|lia].
    + intros page (_ & page' & _ & Hitem)%pageStrip_elem_of.
      apply pageItem_link in Hitem as (-> & Hact & _). symmetry in Hact.
      by apply Z.eqb_eq in Hact.
    + intros page Hp Hno Hnoe.
      destruct (decide (3 ≤ Z.abs (page - cur))) as [|Hnear]; [done|exfalso].
      destruct (decide (page = 1 ∨ page = T ∨ cur - 1 ≤ page ≤ cur + 1)) as [Hl|Hnl].
      * apply (Hno (cur =? page)). apply pageStrip_elem_of. split; [done|].
        exists page. split; [done|]. by apply pageItem_link.
      * apply Hnoe. apply pageStrip_elem_of. split; [done|].
        exists page. split; [done|]. apply pageItem_ellipsis. lia.
Qed.

(** * The map *)

(** ** Size and colour of a marker *)

Lemma Qle_bool_false (x y : Q) : Qle_bool x y = false ↔ (y < x)%Q.
Proof.
  rewrite <- not_true_iff_false, Qle_bool_iff.
  split; [apply Qnot_le_lt|apply Qlt_not_le].
Qed.

Lemma jsge_Fin (x y : Q) : jsge (Fin x) (Fin y) = Qle_bool y x.
Proof. unfold jsge, jsgt. apply negb_involutive. Qed.

Lemma jslt_Fin (x y : Q) : jslt (Fin x) (Fin y) = negb (Qle_bool y x).
Proof. done. Qed.

(** X11. The diameter of a marker is [20 + storageUtilization / 5] pixels:
    from 20 to 40 for a utilisation between 0 and 100, and not clamped
    outside, so a utilisation above 100 gives a marker wider than 40 and a
    negative one a marker narrower than 20. *)
Theorem markerSize_linear (E : Engine) (now : Z) (node : MapNode.t) :
  ∃ q, markerSize (createMarkerIcon E now node) = Fin q
    ∧ (q == 20 + MapNode.storageUtilization node / 5)%Q
    ∧ ((0 <= MapNode.storageUtilization node <= 100)%Q → (20 <= q <= 40)%Q)
    ∧ ((100 < MapNode.storageUtilization node)%Q → (40 < q)%Q)
    ∧ ((MapNode.storageUtilization node < 0)%Q → (q < 20)%Q).
Proof.
  eexists. split; [reflexivity|].
  generalize (MapNode.storageUtilization node). intros u.
  assert (20 - - (u / 100 * 20) == 20 + u * (1 # 5))%Q as Heq by (field; done).
  split_and!; [by field|intros ?|intros ?|intros ?]; rewrite Heq; lra.
Qed.

(** X12. An offline node is drawn grey whatever its health score.  For the
    other nodes the colours do not follow the tiers of the filter panel:
    every node the "Excellent" filter keeps is drawn green and every node
    drawn red is kept by the "Poor" filter, but a node with a score from 85
    up to 90 is drawn green although the "Good" filter keeps it, and a node
    with a score from 60 up to 75 is drawn amber although the "Poor" filter
    keeps it. *)
Theorem marker_colour_and_tier (E : Engine) (now : Z) (node : MapNode.t) :
  (MapNode.status node = "offline"%string →
   color (createMarkerIcon E now node) = "hsl(0,0%,50%)"%string)
  ∧ (MapNode.status node ≠ "offline"%string →
     (matchesHealthTier "Excellent" node = true →
      color (createMarkerIcon E now node) = "hsl(142,71%,45%)"%string)
     ∧ (color (createMarkerIcon E now node) = "hsl(0,84%,60%)"%string →
        matchesHealthTier "Poor" node = true)
     ∧ ((85 <= MapNode.healthScore node < 90)%Q →
        color (createMarkerIcon E now node) = "hsl(142,71%,45%)"%string
        ∧ matchesHealthTier "Good" node = true)
     ∧ ((60 <= MapNode.healthScore node < 75)%Q →
        color (createMarkerIcon E now node) = "hsl(38,92%,50%)"%string
        ∧ matchesHealthTier "Poor" node = true)).
Proof.
  unfold createMarkerIcon, matchesHealthTier. simpl color.
  change (String.eqb "Excellent" "Excellent") with true.
  change (String.eqb "Good" "Excellent") with false.
  change (String.eqb "Good" "Good") with true.
  change (String.eqb "Poor" "Excellent") with false.
  change (String.eqb "Poor" "Good") with false.
  change (String.eqb "Poor" "Poor") with true.
  cbv iota. rewrite !jsge_Fin, !jslt_Fin.
  generalize (MapNode.healthScore node). intros s.
  split.
  - intros ->. done.
  - intros Hs%String.eqb_neq. rewrite Hs.
    destruct (Qle_bool 85 s) eqn:H85, (Qle_bool 60 s) eqn:H60,
      (Qle_bool 90 s) eqn:H90, (Qle_bool 75 s) eqn:H75;
      rewrite ?Qle_bool_iff, ?Qle_bool_false in *;
      (split_and!; [intros ?|intros ?|intros ?|intros ?]);
      try done; try (exfalso; lra); try (split; done).
Qed.

(** ** The age shown in the popup *)

Lemma Qfloor_div (a : Z) (d : positive) :
  Qfloor (inject_Z a / inject_Z (Zpos d)) = a / Zpos d.
Proof. by rewrite <- Qmake_Qdiv. Qed.

Lemma floor_div_ofZ (a : Z) (d : positive) :
  Math_floor (jsdiv (ofZ a) (ofZ (Zpos d))) = ofZ (a / Zpos d).
Proof.
  unfold ofZ, jsdiv, Math_floor.
  assert (Qis0 (inject_Z (Z.pos d)) = false) as ->.
  { apply not_true_iff_false. unfold Qis0. rewrite Qeq_bool_iff. by intros ?. }
  unfold ofZ. by rewrite Qfloor_div.
Qed.

Lemma jslt_ofZ (a b : Z) : jslt (ofZ a) (ofZ b) = (a <? b).
Proof.
  unfold jslt, jsgt, ofZ, Qle_bool. simpl. rewrite !Z.mul_1_r.
  destruct (Z.leb_spec b a), (Z.ltb_spec a b); (done || lia).
Qed.

Lemma jssub_ofZ (a b : Z) : ∃ q, jssub (ofZ a) (ofZ b) = Fin q ∧ (q == inject_Z (a - b))%Q.
Proof.
  eexists. split; [reflexivity|]. unfold Z.sub.
  rewrite inject_Z_plus, inject_Z_opp. reflexivity.
Qed.

Lemma numberToString_ofZ (E : Engine) (z : Z) :
  Z.abs z < 10 ^ 21 → numberToString E (ofZ z) = pretty z.
Proof.
  intros Hz. unfold numberToString, ofZ. rewrite Qfloor_Z.
  assert (Qeq_bool (inject_Z z) (inject_Z z) = true) as -> by by apply Qeq_bool_iff.
  assert (Qle_bool (inject_Z (10 ^ 21)) (Qabs (inject_Z z)) = false) as ->; [|done].
  apply Qle_bool_false.
  assert (Qabs (inject_Z z) = inject_Z (Z.abs z)) as -> by done.
  by rewrite <- Zlt_Qlt.
Qed.

Lemma seconds_floor (now t : Z) :
  Math_floor (jsdiv (jssub (ofZ now) (getTime (MkDate (Some t)))) (Fin 1000))
  = ofZ ((now - t) / 1000).
Proof.
  simpl getTime. destruct (jssub_ofZ now t) as (q & -> & Hq).
  unfold jsdiv, Math_floor. simpl Qis0. cbv iota. f_equal.
  rewrite Hq. apply (Qfloor_div (now - t) 1000).
Qed.

(** X13. For a date [s] whole seconds before now (rounded down) the popup
    says "Just now" when the date lies in the future, then the seconds up
    to 59, the whole minutes from 1 to 59, the whole hours from 1 to 23,
    and from one day on the whole days.  For an invalid date, such as the
    one made from a [lastSeen] text that does not parse, it says
    "NaNd ago". *)
Theorem formatRelativeTime_buckets (E : Engine) (now t : Z) :
  Z.abs (now - t) < 10 ^ 21 →
  formatRelativeTime E now (MkDate (Some t))
  = (if (now - t) / 1000 <? 0 then "Just now"%string
     else if (now - t) / 1000 <? 60
     then String.append (pretty ((now - t) / 1000)) "s ago"
     else if (now - t) / 1000 <? 3600
     then String.append (pretty ((now - t) / 1000 / 60)) "m ago"
     else if (now - t) / 1000 <? 86400
     then String.append (pretty ((now - t) / 1000 / 3600)) "h ago"
     else String.append (pretty ((now - t) / 1000 / 86400)) "d ago")
  ∧ formatRelativeTime E now (MkDate None) = "NaNd ago"%string
  ∧ (∀ node, DateParse E (MapNode.lastSeen node) = None →
       popupLastSeen E now node = "NaNd ago"%string).
Proof.
  intros Hbound. split_and!.
  - unfold formatRelativeTime. rewrite seconds_floor.
    set (s := (now - t) / 1000).
    assert (Z.abs s < 10 ^ 21) as Hs.
    { subst s. assert (0 < 10 ^ 21) by done.
      Z.to_euclidean_division_equations. lia. }
    change (Fin 0) with (ofZ 0). change (Fin 60) with (ofZ 60).
    change (Fin 3600) with (ofZ 3600). change (Fin 86400) with (ofZ 86400).
    rewrite !jslt_ofZ, !floor_div_ofZ.
    destruct (Z.ltb_spec s 0); [done|].
    rewrite !numberToString_ofZ; [done|..]; try done;
      Z.to_euclidean_division_equations; lia.
  - done.
  - intros node Hparse. unfold popupLastSeen, newDate. by rewrite Hparse.
Qed.

Lemma formatRelativeTime_buckets_witness :
  formatRelativeTime Demo.engine Demo.now (MkDate (Some (Demo.now - 125000)))
  = "2m ago"%string
  ∧ formatRelativeTime Demo.engine Demo.now (MkDate (Some (Demo.now + 500)))
    = "Just now"%string.
Proof.
  split.
  - destruct (formatRelativeTime_buckets Demo.engine Demo.now (Demo.now - 125000))
      as [-> _]; vm_compute; reflexivity.
  - destruct (formatRelativeTime_buckets Demo.engine Demo.now (Demo.now + 500))
      as [-> _]; vm_compute; reflexivity.
Defined.

(** ** The filters of the map *)

Lemma tier_exactly_one (n : MapNode.t) :
  (matchesHealthTier "Excellent" n = true ∧ matchesHealthTier "Good" n = false
   ∧ matchesHealthTier "Poor" n = false)
  ∨ (matchesHealthTier "Excellent" n = false ∧ matchesHealthTier "Good" n = true
     ∧ matchesHealthTier "Poor" n = false)
  ∨ (matchesHealthTier "Excellent" n = false ∧ matchesHealthTier "Good" n = false
     ∧ matchesHealthTier "Poor" n = true).
Proof.
  unfold matchesHealthTier.
  change (String.eqb "Excellent" "Excellent") with true.
  change (String.eqb "Good" "Excellent") with false.
  change (String.eqb "Good" "Good") with true.
  change (String.eqb "Poor" "Excellent") with false.
  change (String.eqb "Poor" "Good") with false.
  change (String.eqb "Poor" "Poor") with true.
  cbv iota. rewrite !jsge_Fin, !jslt_Fin.
  generalize (MapNode.healthScore n). intros s.
  destruct (Qle_bool 90 s) eqn:H90, (Qle_bool 75 s) eqn:H75; simpl; auto.
  apply Qle_bool_iff in H90. apply Qle_bool_false in H75. lra.
Qed.

Lemma tiers_partition (p : MapNode.t -> bool) (l : list MapNode.t) :
  List.filter p (List.filter (matchesHealthTier "Excellent") l)
  ++ List.filter p (List.filter (matchesHealthTier "Good") l)
  ++ List.filter p (List.filter (matchesHealthTier "Poor") l)
  ≡ₚ List.filter p l.
Proof.
  induction l as [|n l IH]; [done|]. simpl.
  destruct (tier_exactly_one n) as [(-> & -> & ->)|[(-> & -> & ->)|(-> & -> & ->)]];
    simpl; destruct (p n); simpl; try exact IH.
  - by constructor.
  - rewrite <- IH. by rewrite !Permutation_middle.
  - rewrite <- IH. rewrite app_assoc, <- Permutation_middle, <- app_assoc. done.
Qed.

(** X14. The three tier filters of the map split the nodes: whatever the
    other two filters are, every node they let through is kept by exactly
    one of "Excellent", "Good" and "Poor", so the three filtered lists
    together are the list without a tier filter, up to order, and each keeps
    the order of the input. *)
Theorem tier_filters_partition (online : bool) (version : string)
    (mapNodes : list MapNode.t) :
  filteredNodes online "Excellent" version mapNodes
  ++ filteredNodes online "Good" version mapNodes
  ++ filteredNodes online "Poor" version mapNodes
  ≡ₚ filteredNodes online "all" version mapNodes
  ∧ Forall (λ tier, filteredNodes online tier version mapNodes `sublist_of` mapNodes)
      ["all"; "Excellent"; "Good"; "Poor"]%string.
Proof.
  unfold filteredNodes.
  change (String.eqb "Excellent" "all") with false.
  change (String.eqb "Good" "all") with false.
  change (String.eqb "Poor" "all") with false.
  change (String.eqb "all" "all") with true.
  cbv iota; simpl negb; cbv iota.
  set (l := if online then _ else mapNodes).
  split.
  - destruct (negb (String.eqb version "all")).
    + apply tiers_partition.
    + pose proof (tiers_partition (λ _, true) l) as Hsplit.
      by rewrite !(List_filter_all (λ _, true)) in Hsplit.
  - repeat first [apply List.Forall_nil | apply List.Forall_cons];
      subst l; destruct online, (negb (String.eqb version "all"));
      repeat (etrans; [apply List_filter_sublist|]); done.
Qed.

(** X15. In the filter panel at most one tier switch is on: switching a
    tier on makes it the only one, switching any tier off leaves none on,
    even when another tier was the one selected.  The close button leaves
    no filter active, so that the map shows every node again, and does not
    touch the clustering switch. *)
Theorem panel_switches (st : MapFilterState) (mapNodes : list MapNode.t) :
  (showExcellent st && showGood st = false
   ∧ showExcellent st && showPoor st = false
   ∧ showGood st && showPoor st = false)
  ∧ Forall (λ tier, healthTierFilter (handleHealthTierToggle tier true st) = tier
                    ∧ hasActiveFilters (handleHealthTierToggle tier true st) = true
                    ∧ showExcellent (handleHealthTierToggle tier false st) = false
                    ∧ showGood (handleHealthTierToggle tier false st) = false
                    ∧ showPoor (handleHealthTierToggle tier false st) = false)
      ["Excellent"; "Good"; "Poor"]%string
  ∧ hasActiveFilters (closeButton_onClick st) = false
  ∧ shownNodes (closeButton_onClick st) mapNodes = mapNodes
  ∧ enableClustering (closeButton_onClick st) = enableClustering st.
Proof.
  split_and!.
  - unfold showExcellent, showGood, showPoor.
    destruct (String.eqb_spec (healthTierFilter st) "Excellent") as [->|]; done.
  - unfold showExcellent, showPoor.
    destruct (String.eqb_spec (healthTierFilter st) "Excellent") as [->|]; done.
  - unfold showGood, showPoor.
    destruct (String.eqb_spec (healthTierFilter st) "Good") as [->|]; done.
  - repeat first [apply List.Forall_nil | apply List.Forall_cons];
      (split_and!; [done| |done..]);
      unfold hasActiveFilters; simpl; by rewrite orb_true_r.
  - unfold closeButton_onClick. by destruct (hasActiveFilters st) eqn:Hact.
  - unfold closeButton_onClick, shownNodes.
    destruct (hasActiveFilters st) eqn:Hact; [done|].
    unfold hasActiveFilters in Hact.
    apply orb_false_iff in Hact as [[Ho Ht]%orb_false_iff Hv].
    rewrite Ho. unfold filteredNodes. by rewrite Ht, Hv.
  - unfold closeButton_onClick. by destruct (hasActiveFilters st).
Qed.

(** ** The versions offered by the filter panel *)

Lemma Set_from_sublist (seen : gset string) (l : list string) :
  Set_from seen l `sublist_of` l.
Proof.
  revert seen. induction l as [|v l IH]; intros seen; simpl; [done|].
  destruct (decide (v ∈ seen)); [by apply sublist_cons|by apply sublist_skip].
Qed.

Lemma Set_from_elem_of (seen : gset string) (l : list string) (v : string) :
  v ∈ Set_from seen l ↔ v ∈ l ∧ v ∉ seen.
Proof.
  revert seen. induction l as [|w l IH]; intros seen; simpl.
  - split; [by intros ?%elem_of_nil|by intros [?%elem_of_nil _]].
  - destruct (decide (w ∈ seen)) as [Hw|Hw].
    + rewrite IH, elem_of_cons. split.
      * intros [Hv Hs]. split; [by right|done].
      * intros [[->|Hv] Hs]; [done|by split].
    + rewrite !elem_of_cons, IH. split.
      * intros [->|[Hv Hs]]; [by split; [left|]|].
        split; [by right|]. intros Hin. apply Hs, elem_of_union. by right.
      * intros [[->|Hv] Hs]; [by left|].
        destruct (decide (v = w)) as [->|Hne]; [by left|].
        right. split; [done|].
        intros [Hin%elem_of_singleton|Hin]%elem_of_union; done.
Qed.

Lemma Set_from_NoDup (seen : gset string) (l : list string) : NoDup (Set_from seen l).
Proof.
  revert seen. induction l as [|w l IH]; intros seen; simpl; [constructor|].
  destruct (decide (w ∈ seen)); [apply IH|].
  constructor; [|apply IH]. rewrite Set_from_elem_of.
  intros [_ Hw]. apply Hw, elem_of_union. left. by apply elem_of_singleton.
Qed.

Lemma defaultCompare_sign (x y : string) :
  sortSign (defaultCompare x y) = String.compare x y.
Proof. unfold defaultCompare. by destruct (String.compare x y). Qed.

Lemma defaultCompare_consistent : consistentOn defaultCompare (λ _, True).
Proof.
  split.
  - intros x y _ _. unfold signOf. rewrite !defaultCompare_sign.
    apply String.compare_antisym.
  - intros x y z _ _ _. unfold notGreater, signOf. rewrite !defaultCompare_sign.
    apply string_compare_le_trans.
Qed.

Lemma sorted_NoDup_strict (l : list string) :
  NoDup l → StronglySorted (notGreater defaultCompare) l →
  StronglySorted (λ x y, String.compare x y = Lt) l.
Proof.
  intros Hnd Hs. induction Hs as [|x l Hs IH Hx]; [constructor|].
  apply NoDup_cons in Hnd as [Hx' Hnd]. constructor; [by apply IH|].
  rewrite Forall_forall in Hx. rewrite Forall_forall. intros y Hy.
  specialize (Hx y Hy). unfold notGreater, signOf in Hx.
  rewrite defaultCompare_sign in Hx.
  destruct (String.compare x y) eqn:Hc; [|done..].
  apply String.compare_eq_iff in Hc as ->. done.
Qed.

(** X17. The versions offered by the filter panel are the versions of the
    nodes, each once, in increasing order of their code units; and picking
    any of them as the only filter leaves at least one node on the map. *)
Theorem versions_sorted_distinct (mapNodes : list MapNode.t) :
  NoDup (versions mapNodes)
  ∧ StronglySorted (λ x y, String.compare x y = Lt) (versions mapNodes)
  ∧ (∀ v, v ∈ versions mapNodes ↔ ∃ n, n ∈ mapNodes ∧ MapNode.version n = v)
  ∧ (∀ v, v ∈ versions mapNodes → filteredNodes false "all" v mapNodes ≠ []).
Proof.
  assert (NoDup (versions mapNodes)) as Hnd.
  { unfold versions. rewrite array_sort_perm. apply Set_from_NoDup. }
  assert (∀ v, v ∈ versions mapNodes ↔ ∃ n, n ∈ mapNodes ∧ MapNode.version n = v) as Hin.
  { intros v. unfold versions.
    rewrite array_sort_elem_of, Set_from_elem_of, list_elem_of_fmap.
    split; [intros [(n & -> & Hn) _]; eauto|].
    intros (n & Hn & <-). split; [eauto|apply not_elem_of_empty]. }
  split_and!; [done| |done|].
  - apply sorted_NoDup_strict; [done|].
    unfold versions. apply (array_sort_sorted _ (λ _, True));
      [apply defaultCompare_consistent|]. by apply Forall_forall.
  - intros v (n & Hn & Hv)%Hin Hnil. unfold filteredNodes in Hnil.
    change (String.eqb "all" "all") with true in Hnil. simpl negb in Hnil. cbv iota in Hnil.
    assert (n ∈ (if negb (String.eqb v "all")
                 then List.filter (λ n, String.eqb (MapNode.version n) v) mapNodes
                 else mapNodes)) as Hmem.
    { destruct (negb (String.eqb v "all")); [|done].
      apply List_filter_elem_of. split; [done|]. by apply String.eqb_eq. }
    rewrite Hnil in Hmem. by apply elem_of_nil in Hmem.
Qed.

(** ** The short form of a key *)

Lemma length_append (s t : string) :
  String.length (s ++ t) = (String.length s + String.length t)%nat.
Proof. induction s as [|c s IH]; simpl; [done|by rewrite IH]. Qed.

Lemma substring_length (n m : nat) (s : string) :
  String.length (substring n m s) = (m `min` (String.length s - n))%nat.
Proof.
  revert n m. induction s as [|c s IH]; intros [|n] [|m]; simpl;
    rewrite ?IH, ?Nat.sub_0_r; done.
Qed.

Lemma substring_prefix (a r : string) (m : nat) :
  m = String.length a → substring 0 m (a ++ r) = a.
Proof.
  intros ->. induction a as [|c a IH]; simpl; [by destruct r|by rewrite IH].
Qed.

Lemma substring_whole (s : string) (m : nat) :
  (String.length s ≤ m)%nat → substring 0 m s = s.
Proof.
  revert m. induction s as [|c s IH]; intros [|m] Hm; simpl in *; try done; try lia.
  rewrite IH; [done|lia].
Qed.

Lemma substring_suffix (p b : string) (n m : nat) :
  n = String.length p → m = String.length b → substring n m (p ++ b) = b.
Proof.
  intros -> ->. induction p as [|c p IH]; simpl; [|done].
  by apply substring_whole.
Qed.

Lemma shortPubkey_parts (pubkey : string) :
  shortPubkey pubkey
  = (substring 0 (4 `min` String.length pubkey) pubkey ++ ".."
     ++ substring (String.length pubkey - 4) (4 `min` String.length pubkey) pubkey)%string.
Proof.
  unfold shortPubkey, String_substring. simpl default.
  f_equal; [f_equal; lia|]. f_equal. f_equal; lia.
Qed.

(** X18. The short form of a key is its first four characters, two dots
    and its last four characters, ten characters in all, also when the two
    groups overlap because the key has fewer than eight characters; a key
    of at most four characters appears whole on both sides of the dots, so
    its short form is longer than the key. *)
Theorem shortPubkey_shape (pubkey : string) :
  String.length (shortPubkey pubkey) = (2 + 2 * (4 `min` String.length pubkey))%nat
  ∧ ((String.length pubkey ≤ 4)%nat →
     shortPubkey pubkey = (pubkey ++ ".." ++ pubkey)%string)
  ∧ (∀ a r p b, pubkey = (a ++ r)%string → pubkey = (p ++ b)%string →
       String.length a = 4%nat → String.length b = 4%nat →
       shortPubkey pubkey = (a ++ ".." ++ b)%string).
Proof.
  rewrite shortPubkey_parts. split_and!.
  - rewrite !length_append, !substring_length.
    change (String.length "..") with 2%nat. lia.
  - intros Hlen.
    replace (String.length pubkey - 4)%nat with 0%nat by lia.
    rewrite substring_whole by lia. done.
  - intros a r p b Ha Hb Hla Hlb.
    assert (4 `min` String.length pubkey = 4)%nat as ->.
    { rewrite Ha, length_append. lia. }
    f_equal; [rewrite Ha; by apply substring_prefix|]. f_equal.
    rewrite Hb. apply substring_suffix; [|done].
    rewrite length_append. lia.
Qed.

(** ** The layers of the markers *)

Lemma removeMarkers_spec (markers : list nat) (m : LeafletMap) :
  objects (removeMarkers markers m) = objects m
  ∧ onMap (removeMarkers markers m) = onMap m ∖ list_to_set markers.
Proof.
  unfold removeMarkers. revert m.
  induction markers as [|x markers IH]; intros m; simpl.
  - split; [done|]. apply set_eq. intros y.
    rewrite elem_of_difference, elem_of_empty. tauto.
  - destruct (IH (removeLayer x m)) as [-> ->]. split; [done|].
    apply set_eq. intros y. simpl.
    rewrite !elem_of_difference, elem_of_union, elem_of_singleton. tauto.
Qed.

(** The map once the effect, or the clean-up, has removed the layers of the
    refs. *)
Lemma cleared_spec (refs : MarkerRefs) (m : LeafletMap) :
  objects (removeMarkers (markersRef refs)
             match clusterGroupRef refs with
             | Some clusterGroup => removeLayer clusterGroup m
             | None => m
             end) = objects m
  ∧ onMap (removeMarkers (markersRef refs)
             match clusterGroupRef refs with
             | Some clusterGroup => removeLayer clusterGroup m
             | None => m
             end) = onMap m ∖ tracked refs.
Proof.
  destruct (removeMarkers_spec (markersRef refs)
              match clusterGroupRef refs with
              | Some clusterGroup => removeLayer clusterGroup m
              | None => m
              end) as [-> ->].
  unfold tracked. destruct (clusterGroupRef refs) as [g|]; simpl.
  - split; [done|]. apply set_eq. intros y.
    rewrite !elem_of_difference, elem_of_union. tauto.
  - split; [done|]. apply set_eq. intros y.
    rewrite !elem_of_difference, elem_of_union, elem_of_empty. tauto.
Qed.

Lemma direct_markers (nodes : list MapNode.t) (refs : MarkerRefs) (m : LeafletMap) :
  objects (foldl directMarker (refs, m) nodes).2
  = objects m ++ ((λ n, Marker (MapNode.pubkey n)) <$> nodes)
  ∧ markersRef (foldl directMarker (refs, m) nodes).1
    = markersRef refs ++ seq (length (objects m)) (length nodes)
  ∧ onMap (foldl directMarker (refs, m) nodes).2
    = list_to_set (seq (length (objects m)) (length nodes)) ∪ onMap m
  ∧ clusterGroupRef (foldl directMarker (refs, m) nodes).1 = clusterGroupRef refs.
Proof.
  revert refs m. induction nodes as [|node nodes IH]; intros refs m.
  - simpl. rewrite !app_nil_r. split_and!; try done.
    apply set_eq. intros y. rewrite elem_of_union, elem_of_empty. tauto.
  - cbn [foldl]. unfold directMarker at 2 4 6 8. cbn [newLayer fst snd].
    match goal with
    | |- context [foldl directMarker (?r, ?m') nodes] =>
        destruct (IH r m') as (Ho & Hr & Hm & Hc)
    end.
    rewrite Ho, Hr, Hm, Hc. simpl.
    rewrite length_app, Nat.add_1_r, <- !app_assoc. simpl.
    split_and!; try done.
    apply set_eq. intros y. rewrite !elem_of_union, elem_of_singleton. tauto.
Qed.

Lemma clusterMarker_objects (g : nat) (markers : list nat) (m : LeafletMap)
    (node : MapNode.t) :
  objects m !! g = Some (MarkerClusterGroup markers) →
  objects (clusterMarker g m node)
  = <[g := MarkerClusterGroup (markers ++ [length (objects m)])]> (objects m)
    ++ [Marker (MapNode.pubkey node)]
  ∧ onMap (clusterMarker g m node) = onMap m.
Proof.
  intros Hg. pose proof (lookup_lt_Some _ _ _ Hg) as Hlt.
  unfold clusterMarker, newLayer, addLayer. simpl.
  rewrite (lookup_app_l _ _ _ Hlt), Hg. by rewrite insert_app_l.
Qed.

Lemma clustered_markers (nodes : list MapNode.t) (g : nat) (markers : list nat)
    (m : LeafletMap) :
  objects m !! g = Some (MarkerClusterGroup markers) →
  objects (foldl (clusterMarker g) m nodes)
  = <[g := MarkerClusterGroup (markers ++ seq (length (objects m)) (length nodes))]>
      (objects m)
    ++ ((λ n, Marker (MapNode.pubkey n)) <$> nodes)
  ∧ onMap (foldl (clusterMarker g) m nodes) = onMap m.
Proof.
  revert markers m. induction nodes as [|node nodes IH]; intros markers m Hg.
  - simpl. rewrite !app_nil_r. split; [|done]. by rewrite list_insert_id.
  - pose proof (lookup_lt_Some _ _ _ Hg) as Hlt. cbn [foldl].
    destruct (clusterMarker_objects g markers m node Hg) as [Hm1 Hon1].
    destruct (IH (markers ++ [length (objects m)]) (clusterMarker g m node)) as [Ho Hm].
    { rewrite Hm1, lookup_app_l by by rewrite length_insert.
      by rewrite list_lookup_insert_eq. }
    rewrite Ho, Hm, Hm1, Hon1. split; [|done].
    rewrite length_app, length_insert, Nat.add_1_r. cbn [length seq fmap list_fmap].
    rewrite insert_app_l by by rewrite length_insert.
    rewrite list_insert_insert_eq, <- !app_assoc. done.
Qed.

Lemma markerKeys_new (m : LeafletMap) (old : list LayerObject) (nodes : list MapNode.t) :
  objects m = old ++ ((λ n, Marker (MapNode.pubkey n)) <$> nodes) →
  markerKeys m (seq (length old) (length nodes))
  = (λ n, Some (MapNode.pubkey n)) <$> nodes.
Proof.
  intros Ho. unfold markerKeys. apply list_eq. intros i.
  rewrite !list_lookup_fmap.
  destruct (nodes !! i) as [n|] eqn:Hn; simpl.
  - assert (seq (length old) (length nodes) !! i = Some (length old + i)%nat) as ->.
    { apply lookup_seq. split; [done|]. by eapply lookup_lt_Some. }
    simpl. rewrite Ho, lookup_app_r by lia.
    replace (length old + i - length old)%nat with i by lia.
    by rewrite list_lookup_fmap, Hn.
  - assert (seq (length old) (length nodes) !! i = None) as ->; [|done].
    apply lookup_ge_None. rewrite length_seq. by apply lookup_ge_None.
Qed.

Lemma insert_last {A : Type} (l : list A) (x y : A) :
  <[length l := y]> (l ++ [x]) = l ++ [y].
Proof. rewrite insert_app_r_alt by lia. by rewrite Nat.sub_diag. Qed.

Lemma tracked_direct (markers : list nat) :
  tracked {| clusterGroupRef := None; markersRef := markers |} = list_to_set markers.
Proof.
  unfold tracked. simpl. apply set_eq. intros y.
  rewrite elem_of_union, elem_of_empty. tauto.
Qed.

Lemma tracked_clustered (g : nat) :
  tracked {| clusterGroupRef := Some g; markersRef := [] |} = {[g]}.
Proof.
  unfold tracked. simpl. apply set_eq. intros y.
  rewrite elem_of_union, elem_of_empty. tauto.
Qed.

(** What one run of the effect does to the refs and to the map. *)
Lemma markersEffect_spec (nodes : list MapNode.t) (clustering : bool)
    (refs : MarkerRefs) (m : LeafletMap) :
  ∃ news : list nat,
    news = (if clustering then [length (objects m)]
            else seq (length (objects m)) (length nodes))
    ∧ tracked (markersEffect nodes clustering (refs, m)).1 = list_to_set news
    ∧ onMap (markersEffect nodes clustering (refs, m)).2
      = list_to_set news ∪ (onMap m ∖ tracked refs)
    ∧ objects (markersEffect nodes clustering (refs, m)).2
      = objects m
        ++ (if clustering
            then [MarkerClusterGroup (seq (S (length (objects m))) (length nodes))]
            else [])
        ++ ((λ n, Marker (MapNode.pubkey n)) <$> nodes)
    ∧ clusterGroupRef (markersEffect nodes clustering (refs, m)).1
      = (if clustering then Some (length (objects m)) else None)
    ∧ markersRef (markersEffect nodes clustering (refs, m)).1
      = (if clustering then [] else seq (length (objects m)) (length nodes)).
Proof.
  eexists. split; [reflexivity|].
  unfold markersEffect. destruct (cleared_spec refs m) as [Hobj Hon].
  set (m1 := removeMarkers _ _) in *.
  destruct clustering.
  - unfold newLayer. rewrite Hobj.
    set (m2 := {| objects := objects m ++ [MarkerClusterGroup []]; onMap := onMap m1 |}).
    destruct (clustered_markers nodes (length (objects m)) [] m2) as [Ho Hm].
    { by apply list_lookup_middle. }
    simpl. rewrite Ho, Hm. simpl.
    rewrite length_app, Nat.add_1_r, insert_last, Hon, <- app_assoc.
    rewrite tracked_clustered. split_and!; try done.
    + apply set_eq. intros y.
      rewrite ?elem_of_union, ?elem_of_singleton, ?elem_of_empty. tauto.
    + apply set_eq. intros y.
      rewrite ?elem_of_union, ?elem_of_singleton, ?elem_of_empty. tauto.
  - destruct (direct_markers nodes {| clusterGroupRef := None; markersRef := [] |} m1)
      as (Ho & Hr & Hm & Hc).
    simpl in Hr, Hc.
    assert (tracked (foldl directMarker
                       ({| clusterGroupRef := None; markersRef := [] |}, m1) nodes).1
            = list_to_set (seq (length (objects m)) (length nodes))) as Ht.
    { unfold tracked. rewrite Hc, Hr, Hobj. apply set_eq. intros y.
      rewrite elem_of_union, elem_of_empty. tauto. }
    rewrite Ht, Ho, Hr, Hm, Hc, Hobj, Hon. done.
Qed.

(** X19. One run of the effect of the marker layer, from refs and a map
    whose layers are all known objects: the map then holds the layers it
    held before, less those the refs pointed to, plus the layers the refs
    point to now, which are new objects; the objects that existed are as
    they were.  With clustering the refs point to one new cluster group,
    which holds one marker per node in the order of the nodes, and to no
    marker; without it, to one distinct marker per node in that order and
    to no group.  After the clean-up the map holds what it held before
    less the layers of the old refs: no marker is left behind. *)
Theorem markers_lifecycle (nodes : list MapNode.t) (clustering : bool)
    (s : MarkerRefs * LeafletMap) :
  knownLayers s →
  let s' := markersEffect nodes clustering s in
  onMap s'.2 = (onMap s.2 ∖ tracked s.1) ∪ tracked s'.1
  ∧ (∀ layer, layer ∈ tracked s'.1 → (length (objects s.2) ≤ layer)%nat)
  ∧ (∀ i o, objects s.2 !! i = Some o → objects s'.2 !! i = Some o)
  ∧ (if clustering
     then ∃ g markers,
       clusterGroupRef s'.1 = Some g ∧ markersRef s'.1 = []
       ∧ objects s'.2 !! g = Some (MarkerClusterGroup markers)
       ∧ markerKeys s'.2 markers = (λ n, Some (MapNode.pubkey n)) <$> nodes
     else
       clusterGroupRef s'.1 = None ∧ NoDup (markersRef s'.1)
       ∧ markerKeys s'.2 (markersRef s'.1) = (λ n, Some (MapNode.pubkey n)) <$> nodes)
  ∧ knownLayers s'
  ∧ onMap (markersCleanup s').2 = onMap s.2 ∖ tracked s.1
  ∧ knownLayers (markersCleanup s').
Proof.
  destruct s as [refs m]. intros Hknown s'. subst s'.
  destruct (markersEffect_spec nodes clustering refs m)
    as (news & Hnews & Htr & Hon & Hobj & Hcg & Hmr).
  assert (∀ layer, layer ∈ news →
            (length (objects m) ≤ layer
             < length (objects (markersEffect nodes clustering (refs, m)).2))%nat)
    as Hfresh.
  { intros layer Hl. rewrite Hobj, !length_app, length_fmap. subst news.
    destruct clustering.
    - apply list_elem_of_singleton in Hl as ->. simpl. lia.
    - apply elem_of_seq in Hl. simpl. lia. }
  assert (knownLayers (markersEffect nodes clustering (refs, m))) as Hknown'.
  { intros layer Hl. rewrite Htr, Hon in Hl.
    assert (layer ∈ news ∨ layer ∈ onMap m) as [Hn|Hold].
    { revert Hl. rewrite !elem_of_union, elem_of_difference, elem_of_list_to_set.
      tauto. }
    + by apply Hfresh.
    + assert (layer < length (objects m))%nat as Hlt.
      { apply (Hknown layer). cbn [fst snd]. apply elem_of_union. by left. }
      rewrite Hobj, length_app. lia. }
  cbn [fst snd] in *. split_and!.
  - rewrite Htr, Hon. apply set_eq. intros y. rewrite !elem_of_union. tauto.
  - intros layer Hl. rewrite Htr, elem_of_list_to_set in Hl. by apply Hfresh.
  - intros i o Hi. rewrite Hobj. by apply lookup_app_l_Some.
  - destruct clustering.
    + eexists _, _. split_and!; [exact Hcg|exact Hmr| |].
      * rewrite Hobj. apply list_lookup_middle. done.
      * rewrite <- (markerKeys_new (markersEffect nodes true (refs, m)).2
                      (objects m ++ [MarkerClusterGroup
                         (seq (S (length (objects m))) (length nodes))]) nodes).
        -- by rewrite length_app, Nat.add_1_r.
        -- by rewrite Hobj, <- app_assoc.
    + split_and!; [exact Hcg|rewrite Hmr; apply NoDup_seq|].
      rewrite Hmr. apply markerKeys_new. by rewrite Hobj.
  - exact Hknown'.
  - unfold markersCleanup.
    destruct (markersEffect nodes clustering (refs, m)) as [refs' m'].
    cbn [fst snd] in *.
    destruct (cleared_spec refs' m') as [_ ->].
    rewrite Htr, Hon. apply set_eq. intros y.
    rewrite !elem_of_difference, elem_of_union, elem_of_difference, elem_of_list_to_set.
    split; [tauto|]. intros [Hy Hnot]. split; [by right|].
    intros Hnew%Hfresh.
    assert (y < length (objects m))%nat; [|lia].
    apply (Hknown y). cbn [fst snd]. apply elem_of_union. by left.
  - unfold markersCleanup. intros layer.
    destruct (markersEffect nodes clustering (refs, m)) as [refs' m'].
    cbn [fst snd] in *.
    destruct (cleared_spec refs' m') as [-> ->]. intros Hl. apply Hknown'.
    revert Hl. rewrite !elem_of_union, elem_of_difference. tauto.
Qed.

Lemma markers_lifecycle_witness :
  onMap (markersEffect Sample.twoNodes false Sample.freshMap).2
  = (onMap Sample.freshMap.2 ∖ tracked Sample.freshMap.1)
    ∪ tracked (markersEffect Sample.twoNodes false Sample.freshMap).1
  ∧ markerKeys (markersEffect Sample.twoNodes false Sample.freshMap).2
      (markersRef (markersEffect Sample.twoNodes false Sample.freshMap).1)
    = [Some "north"; Some "south"]%string
  ∧ onMap (markersCleanup (markersEffect Sample.twoNodes true Sample.freshMap)).2
    = onMap Sample.freshMap.2 ∖ tracked Sample.freshMap.1.
Proof.
  assert (knownLayers Sample.freshMap) as Hknown.
  { intros layer.
    change (onMap Sample.freshMap.2) with ({[0%nat]} : gset nat).
    change (tracked Sample.freshMap.1) with ((∅ : gset nat) ∪ ∅).
    change (length (objects Sample.freshMap.2)) with 1%nat.
    rewrite !elem_of_union, elem_of_singleton, elem_of_empty. lia. }
  destruct (markers_lifecycle Sample.twoNodes false Sample.freshMap Hknown)
    as (Hon & _ & _ & (_ & _ & Hkeys) & _).
  destruct (markers_lifecycle Sample.twoNodes true Sample.freshMap Hknown)
    as (_ & _ & _ & _ & _ & Hclean & _).
  split_and!; [exact Hon|exact Hkeys|exact Hclean].
Defined.

(** * The overview page *)

(** X20. The network badge follows the percentage of the "Online" card:
    "healthy" from 60 per cent, "degraded" from 40 up to 60, "critical"
    below 40.  Without nodes the card shows 0 and the badge "critical".
    When the online nodes are between none and all, the percentage is
    between 0 and 100. *)
Theorem networkHealth_bands (totalNodes onlineNodes : Q) :
  ∃ p, onlinePercentage totalNodes onlineNodes = Fin p
    ∧ ((totalNodes <= 0)%Q →
       p = 0%Q ∧ networkHealth totalNodes onlineNodes = "critical"%string)
    ∧ ((0 < totalNodes)%Q →
       (p == onlineNodes / totalNodes * 100)%Q
       ∧ (networkHealth totalNodes onlineNodes = "healthy"%string ↔ (60 <= p)%Q)
       ∧ (networkHealth totalNodes onlineNodes = "degraded"%string
          ↔ (40 <= p < 60)%Q)
       ∧ (networkHealth totalNodes onlineNodes = "critical"%string ↔ (p < 40)%Q))
    ∧ ((0 <= onlineNodes <= totalNodes)%Q → (0 <= p <= 100)%Q).
Proof.
  unfold onlinePercentage, networkHealth.
  destruct (jsgt (Fin totalNodes) (Fin 0)) eqn:Hpos.
  - rewrite (jsdiv_pos _ _ Hpos). apply jsgt_pos in Hpos.
    eexists. split; [reflexivity|]. rewrite !jsge_Fin, !andb_true_l.
    set (r := (onlineNodes / totalNodes)%Q).
    split_and!.
    + intros Hle. lra.
    + intros _. split; [done|].
      destruct (Qle_bool (3 # 5) r) eqn:H60, (Qle_bool (2 # 5) r) eqn:H40;
        rewrite ?Qle_bool_iff, ?Qle_bool_false in *;
        split_and!; split; intros H; try done; try lra.
    + intros [H0 H1].
      assert (0 <= r)%Q by (apply Qle_shift_div_l; [done|lra]).
      assert (r <= 1)%Q by (apply Qle_shift_div_r; [done|lra]).
      split; lra.
  - assert (totalNodes <= 0)%Q as Hle.
    { apply Qnot_lt_le. intros Hlt%jsgt_pos. congruence. }
    exists 0%Q. rewrite !andb_false_l. split_and!; [done|done|intros ?; lra|intros ?; lra].
Qed.

Lemma Array_find_key (k : string) (l : list PNode.t) :
  Array_find (λ n, String.eqb (PNode.pubkey n) k) l = firstWithKey k l.
Proof.
  unfold Array_find, firstWithKey.
  destruct (list_find (λ n, PNode.pubkey n = k) l) as [[i x]|] eqn:Hf.
  - apply list_find_Some in Hf as (Hi & Hk & Hmin).
    assert (list_find (λ x, String.eqb (PNode.pubkey x) k = true) l = Some (i, x)) as ->;
      [|done].
    apply list_find_Some. split_and!; [done|by apply String.eqb_eq|].
    intros j y Hj Hlt Hy%String.eqb_eq. by eapply Hmin.
  - apply list_find_None in Hf.
    assert (list_find (λ x, String.eqb (PNode.pubkey x) k = true) l = None) as ->;
      [|done].
    apply list_find_None. eapply Forall_impl; [exact Hf|].
    intros x Hx Hy%String.eqb_eq. done.
Qed.

(** X21. A click on a marker selects the first record of the input whose
    key is the key of the marker, and leaves the selection as it is when no
    record has this key.  When the keys of the input are unique, the
    record selected for the key of a row of the table is the record of
    that row. *)
Theorem onNodeClick_selects (pnodes : list PNode.t) (pubkey : string)
    (selectedNode : option PNode.t) :
  ((∀ n, n ∈ pnodes → PNode.pubkey n ≠ pubkey) →
   onNodeClick pnodes pubkey selectedNode = selectedNode)
  ∧ (∀ i n, pnodes !! i = Some n → PNode.pubkey n = pubkey →
       (∀ j m, pnodes !! j = Some m → (j < i)%nat → PNode.pubkey m ≠ pubkey) →
       onNodeClick pnodes pubkey selectedNode = Some n)
  ∧ (NoDup (PNode.pubkey <$> pnodes) →
     ∀ E ramMap vs n, n ∈ view E ramMap vs pnodes → PNode.pubkey n = pubkey →
       onNodeClick pnodes pubkey selectedNode = Some n).
Proof.
  unfold onNodeClick. rewrite Array_find_key. split_and!.
  - intros Hnone. destruct (firstWithKey pubkey pnodes) as [n|] eqn:Hf; [|done].
    apply firstWithKey_Some in Hf as (i & Hi & Hk & _).
    destruct (Hnone n); [by eapply list_elem_of_lookup_2|done].
  - intros i n Hi Hk Hmin.
    assert (firstWithKey pubkey pnodes = Some n) as ->; [|done].
    apply firstWithKey_Some. by exists i.
  - intros Hnd E ramMap vs n Hn Hk.
    apply view_elem_of in Hn as [[i Hi]%list_elem_of_lookup_1 _].
    assert (firstWithKey pubkey pnodes = Some n) as ->; [|done].
    apply firstWithKey_Some. exists i. split_and!; [done..|].
    intros j m Hj Hlt Hm.
    assert (j = i); [|lia].
    apply (NoDup_lookup _ j i pubkey Hnd); rewrite list_lookup_fmap.
    + by rewrite Hj, <- Hm.
    + by rewrite Hi, <- Hk.
Qed.

(** * The metric card and the tier chart *)

Lemma animation_lookup (value : Q) (i : nat) (v : number) :
  animation value !! i = Some v
  ↔ (i < 60)%nat ∧ v = animationTick value (Z.of_nat i + 1).
Proof.
  unfold animation, Array_from_length. rewrite <- list_fmap_compose, list_lookup_fmap.
  change (Z.to_nat 60) with 60%nat.
  destruct (seq 0 60 !! i) as [j|] eqn:Hj; simpl.
  - apply lookup_seq in Hj as [-> Hlt]. simpl. split; [intros [= <-]|intros [_ ->]]; done.
  - apply lookup_ge_None in Hj. rewrite length_seq in Hj.
    split; [done|]. intros [Hlt _]. lia.
Qed.

Lemma animationTick_early (value : Q) (step : Z) :
  1 ≤ step < 60 →
  animationTick value step
  = if Qle_bool (value / 60 * inject_Z step) value
    then Fin (value / 60 * inject_Z step)%Q else Fin value.
Proof.
  intros Hstep. unfold animationTick.
  destruct (Z.leb_spec 60 step); [lia|].
  change (Math_min (jsmul (jsdiv (Fin value) (ofZ 60)) (ofZ step)) (Fin value))
    with (if negb (Qle_bool (value / 60 * inject_Z step) value)
          then Fin value else Fin (value / 60 * inject_Z step)%Q).
  by destruct (Qle_bool (value / 60 * inject_Z step) value).
Qed.

(** X22. The metric card animates a number in sixty steps and ends on the
    number itself.  For a number that is not negative the value shown
    after step [k] is [k] sixtieths of it, between zero and the number;
    for a negative number every step already shows the number. *)
Theorem animation_frames (value : Q) :
  length (animation value) = 60%nat
  ∧ animation value !! 59%nat = Some (Fin value)
  ∧ ((0 <= value)%Q →
     ∀ i v, animation value !! i = Some v →
       ∃ q, v = Fin q ∧ (q == value * inject_Z (Z.of_nat i + 1) / 60)%Q
         ∧ (0 <= q <= value)%Q)
  ∧ ((value < 0)%Q → ∀ i v, animation value !! i = Some v → v = Fin value).
Proof.
  split_and!.
  - unfold animation, Array_from_length. by rewrite !length_fmap, length_seq.
  - apply animation_lookup. split; [lia|]. done.
  - intros Hpos i v [Hi ->]%animation_lookup.
    destruct (decide (i = 59%nat)) as [->|Hne].
    + exists value. change (inject_Z (Z.of_nat 59 + 1)) with 60%Q.
      split_and!; [done|by field|lra|lra].
    + rewrite animationTick_early by lia.
      assert (1 <= inject_Z (Z.of_nat i + 1) <= 60)%Q as [Hlo Hhi].
      { change 1%Q with (inject_Z 1). change 60%Q with (inject_Z 60).
        rewrite <- !Zle_Qle. lia. }
      set (c := inject_Z (Z.of_nat i + 1)) in *.
      assert (0 <= value * c)%Q by (apply Qmult_le_0_compat; lra).
      assert (0 <= value * (60 - c))%Q by (apply Qmult_le_0_compat; lra).
      assert (value / 60 * c == value * c * (1 # 60))%Q as Heq by (field; done).
      assert (value / 60 * c <= value)%Q as Hle by (rewrite Heq; lra).
      apply Qle_bool_iff in Hle. rewrite Hle.
      eexists. split_and!; [done|field|rewrite Heq; lra|by apply Qle_bool_iff].
  - intros Hneg i v [Hi ->]%animation_lookup.
    destruct (decide (i = 59%nat)) as [->|Hne]; [done|].
    rewrite animationTick_early by lia.
    assert (1 <= inject_Z (Z.of_nat i + 1) <= 59)%Q as [Hlo Hhi].
    { change 1%Q with (inject_Z 1). change 59%Q with (inject_Z 59).
      rewrite <- !Zle_Qle. lia. }
    set (c := inject_Z (Z.of_nat i + 1)) in *.
    assert (0 <= (- value) * (59 - c))%Q by (apply Qmult_le_0_compat; lra).
    assert (value / 60 * c == value * c * (1 # 60))%Q as Heq by (field; done).
    assert (Qle_bool (value / 60 * c) value = false) as ->; [|done].
    apply Qle_bool_false. rewrite Heq. lra.
Qed.

(** X23. The three bars of the tier chart never count a node twice: their
    sum is at most the number of nodes, and equals it exactly when every
    node has one of the tiers "Excellent", "Good" and "Poor". *)
Theorem distribution_total (nodeMetrics : list NodeMetrics.t) :
  (Excellent (distribution nodeMetrics) + Good (distribution nodeMetrics)
   + Poor (distribution nodeMetrics) ≤ length nodeMetrics)%nat
  ∧ ((Excellent (distribution nodeMetrics) + Good (distribution nodeMetrics)
      + Poor (distribution nodeMetrics) = length nodeMetrics)%nat
     ↔ Forall (λ m, NodeMetrics.tier m = "Excellent" ∨ NodeMetrics.tier m = "Good"
                    ∨ NodeMetrics.tier m = "Poor")%string nodeMetrics).
Proof.
  unfold distribution. simpl.
  induction nodeMetrics as [|m nodeMetrics [IHle IHeq]]; simpl.
  - split; [lia|]. split; [constructor|done].
  - rewrite Forall_cons. generalize (NodeMetrics.tier m). intros t.
    destruct (String.eqb_spec t "Excellent") as [->|HE]; simpl.
    { split; [lia|]. split.
      - intros Hs. split; [by left|]. apply IHeq. lia.
      - intros [_ Hs%IHeq]. lia. }
    destruct (String.eqb_spec t "Good") as [->|HG]; simpl.
    { split; [lia|]. split.
      - intros Hs. split; [by right; left|]. apply IHeq. lia.
      - intros [_ Hs%IHeq]. lia. }
    destruct (String.eqb_spec t "Poor") as [->|HP]; simpl.
    { split; [lia|]. split.
      - intros Hs. split; [by right; right|]. apply IHeq. lia.
      - intros [_ Hs%IHeq]. lia. }
    split; [lia|]. split; [lia|].
    intros [[?|[?|?]] _]; done.
Qed.
